(** * Oracle Database node: bind compilation and result normalisation

    A shallow embedding of [src/nodes/Oracle/OracleDatabase.node.ts]:
    the reducer that compiles the parameter list into binds and rewrites
    the SQL text, the helper [normalizeOutBinds], and [execute] from the
    acquired connection on.

    - JavaScript strings are [string]s whose characters are code units
      below 256; parameter values, names and SQL text are such strings.
      [replaceAll] is the native method, with the special patterns of
      its replacement text.
    - A descriptor's [value] is a text or [undefined]; its [maxSize] is a
      Number or [undefined]. Numbers are kept as the exact value of the
      literal they were read from, next to NaN and the infinities.
    - The object used as the bind mapping ([result] in the reducer) is a
      [gmap string Bind.t]. Every key but [__proto__] is an own property
      of the object. Under the key [__proto__] the map keeps the
      prototype: writing [result["__proto__"]] replaces the prototype
      of the object and creates no property.
    - [NodeOperationError] is the class of n8n-workflow; the model keeps
      the text an error is built from, not the message the class shows
      for it.
    - [crypto.randomUUID] is a stream [nat -> string] read through a
      counter that is threaded through the reducer.
    - The driver (connection, result sets) is a record of outcomes plus a
      store of result sets; every call is recorded in a trace of events.
      The callbacks of a [Promise.all] overlap: each one runs to its
      first [await] before any goes on, and the calls on the connection
      are answered in the order in which they were made.
    - [returnJsonArray] wraps the record without changing it; the
      wrapper is left out. *)

From Stdlib Require Import ZArith NArith String Ascii List Bool Lia.
From stdpp Require Import base option list gmap strings.

Local Open Scope string_scope.
Set Warnings "-register-all".

(** ** String.prototype operations used by the node *)

Module JsString.

Definition dquote : string := String "034"%char "".

(** WhiteSpace and LineTerminator code units below 256:
    TAB, LF, VT, FF, CR, SP and NBSP. *)
Definition isWhiteSpace (c : ascii) : bool :=
  match nat_of_ascii c with
  | 9 | 10 | 11 | 12 | 13 | 32 | 160 => true
  | _ => false
  end.

Fixpoint trimStart (s : string) : string :=
  match s with
  | String c s' => if isWhiteSpace c then trimStart s' else s
  | EmptyString => EmptyString
  end.

(** [trimEnd] keeps a character when it is not white space or when
    something survives to its right. *)
Fixpoint trimEnd (s : string) : string :=
  match s with
  | EmptyString => EmptyString
  | String c s' =>
      match trimEnd s' with
      | EmptyString => if isWhiteSpace c then EmptyString else String c EmptyString
      | t => String c t
      end
  end.

Definition trim (s : string) : string := trimEnd (trimStart s).

(** [s.split(sep)] for a one-character separator: the pieces between
    the occurrences of [sep]; the empty string gives one empty piece. *)
Fixpoint split (sep : ascii) (s : string) : list string :=
  match s with
  | EmptyString => [EmptyString]
  | String c s' =>
      if Ascii.eqb c sep then EmptyString :: split sep s'
      else match split sep s' with
           | p :: ps => String c p :: ps
           | [] => [String c EmptyString]
           end
  end.

Fixpoint isPrefix (p s : string) : bool :=
  match p, s with
  | EmptyString, _ => true
  | String a p', String b s' => Ascii.eqb a b && isPrefix p' s'
  | String _ _, EmptyString => false
  end.

Fixpoint drop (n : nat) (s : string) : string :=
  match n, s with
  | S n', String _ s' => drop n' s'
  | _, _ => s
  end.

(** [s.includes(p)] *)
Fixpoint includes (p s : string) : bool :=
  isPrefix p s ||
  match s with
  | EmptyString => false
  | String _ s' => includes p s'
  end.

(** [s.slice(0, -1)]: everything but the last character. *)
Fixpoint sliceInit (s : string) : string :=
  match s with
  | EmptyString => EmptyString
  | String c EmptyString => EmptyString
  | String c s' => String c (sliceInit s')
  end.

(** GetSubstitution for a string pattern (no captures): in the
    replacement template [$$] is a dollar, [$&] the matched text,
    [$`] the text before the match and [$'] the text after it; any
    other dollar stands for itself. *)
Fixpoint getSubstitution (matched before after tpl : string) : string :=
  match tpl with
  | EmptyString => EmptyString
  | String c rest =>
      if Ascii.eqb c "$" then
        match rest with
        | EmptyString => String c EmptyString
        | String d rest' =>
            if Ascii.eqb d "$" then String "$" (getSubstitution matched before after rest')
            else if Ascii.eqb d "&" then matched ++ getSubstitution matched before after rest'
            else if Ascii.eqb d "`" then before ++ getSubstitution matched before after rest'
            else if Ascii.eqb d "'" then after ++ getSubstitution matched before after rest'
            else String c (getSubstitution matched before after rest)
        end
      else String c (getSubstitution matched before after rest)
  end.

(** The scan of [replaceAll] for a non-empty pattern: matches are
    found left to right and do not overlap. [before] is the text
    already passed, [fuel] bounds the number of steps. *)
Fixpoint replaceScan (pat tpl : string) (fuel : nat) (before s : string) : string :=
  match fuel with
  | O => s
  | S fuel' =>
      if isPrefix pat s then
        let after := drop (String.length pat) s in
        getSubstitution pat before after tpl
          ++ replaceScan pat tpl fuel' (before ++ pat) after
      else
        match s with
        | EmptyString => EmptyString
        | String c s' =>
            String c (replaceScan pat tpl fuel' (before ++ String c EmptyString) s')
        end
  end.

(** The empty pattern matches before every character and at the end. *)
Fixpoint replaceEmpty (tpl before s : string) : string :=
  getSubstitution EmptyString before s tpl ++
  match s with
  | EmptyString => EmptyString
  | String c s' => String c (replaceEmpty tpl (before ++ String c EmptyString) s')
  end.

Definition replaceAll (s pat tpl : string) : string :=
  match pat with
  | EmptyString => replaceEmpty tpl EmptyString s
  | _ => replaceScan pat tpl (S (String.length s)) EmptyString s
  end.

End JsString.

(** ** Number values and [Number(text)] *)

Module JsNumber.

(** A Number is NaN, an infinity, or a finite value written as
    sign, decimal mantissa and decimal exponent: the mathematical
    value of the literal it was read from (the driver receives its
    nearest double). Both zeros are [JFin _ 0 _]. *)
Inductive jsnum : Type :=
| JNaN
| JInf (neg : bool)
| JFin (neg : bool) (mant : N) (exp10 : Z).

Definition ofN (n : N) : jsnum := JFin false n 0.
Definition zero : jsnum := ofN 0.

Definition isNaN (x : jsnum) : bool :=
  match x with JNaN => true | _ => false end.

(** ToBoolean on a Number: false for NaN and the zeros. *)
Definition truthy (x : jsnum) : bool :=
  match x with
  | JNaN => false
  | JInf _ => true
  | JFin _ m _ => negb (N.eqb m 0)
  end.

Definition digitVal (radix : N) (c : ascii) : option N :=
  let n := N_of_ascii c in
  let v :=
    if (48 <=? n)%N && (n <=? 57)%N then Some (n - 48)%N
    else if (97 <=? n)%N && (n <=? 102)%N then Some (n - 87)%N
    else if (65 <=? n)%N && (n <=? 70)%N then Some (n - 55)%N
    else None in
  match v with
  | Some d => if (d <? radix)%N then Some d else None
  | None => None
  end.

(** Reads the longest run of digits of [s] in [radix]; returns the
    accumulated value, the number of digits read and the rest. *)
Fixpoint digits (radix : N) (acc : N) (cnt : nat) (s : string) : N * nat * string :=
  match s with
  | EmptyString => (acc, cnt, s)
  | String c s' =>
      match digitVal radix c with
      | Some d => digits radix (acc * radix + d)%N (S cnt) s'
      | None => (acc, cnt, s)
      end
  end.

(** NonDecimalIntegerLiteral body: one or more digits, nothing after. *)
Definition nonDecimal (radix : N) (s : string) : jsnum :=
  match digits radix 0 0 s with
  | (v, S _, EmptyString) => ofN v
  | _ => JNaN
  end.

(** ExponentPart, after the [e] or [E]. *)
Definition exponent (s : string) : option Z :=
  let '(neg, body) :=
    match s with
    | String "+" r => (false, r)
    | String "-" r => (true, r)
    | _ => (false, s)
    end in
  match digits 10 0 0 body with
  | (v, S _, EmptyString) => Some (if neg then (- Z.of_N v)%Z else Z.of_N v)
  | _ => None
  end.

(** StrUnsignedDecimalLiteral: [Infinity], or digits with an optional
    fraction and an optional exponent, at least one digit before the
    exponent. *)
Definition unsignedDecimal (neg : bool) (s : string) : jsnum :=
  if String.eqb s "Infinity" then JInf neg else
  let '(ip, ni, r1) := digits 10 0 0 s in
  let '(m, nf, r2) :=
    match r1 with
    | String "." r => digits 10 ip 0 r
    | _ => (ip, 0, r1)
    end in
  match ni + nf with
  | O => JNaN
  | S _ =>
      match r2 with
      | EmptyString => JFin neg m (- Z.of_nat nf)
      | String c r3 =>
          if Ascii.eqb c "e" || Ascii.eqb c "E" then
            match exponent r3 with
            | Some e => JFin neg m (e - Z.of_nat nf)
            | None => JNaN
            end
          else JNaN
      end
  end.

(** StringToNumber: white space is trimmed; the empty text is zero;
    [0x], [0o] and [0b] literals take no sign; anything that is not a
    StrNumericLiteral is NaN. *)
Definition ofString (raw : string) : jsnum :=
  match JsString.trim raw with
  | EmptyString => zero
  | String "0" (String "x" r) | String "0" (String "X" r) => nonDecimal 16 r
  | String "0" (String "o" r) | String "0" (String "O" r) => nonDecimal 8 r
  | String "0" (String "b" r) | String "0" (String "B" r) => nonDecimal 2 r
  | String "+" r => unsignedDecimal false r
  | String "-" r => unsignedDecimal true r
  | t => unsignedDecimal false t
  end.

End JsNumber.

Export JsNumber (jsnum(..)).

(** ** Errors *)

Record JsError : Type := MkError { errName : string; errMessage : string }.

#[global] Instance JsError_eq_dec : EqDecision JsError.
Proof. solve_decision. Defined.

(** [new NodeOperationError(this.getNode(), message)]. The class
    belongs to n8n-workflow, which is not part of the repository: it
    shows the text it is given, unless the text contains the name of a
    common system error (ECONNREFUSED, EPERM, ENOENT and the like), for
    which it shows a description of that error instead. [errMessage] of
    such an error is the text given to the constructor. What is stated
    of an error of this class is its class, and the guard that built
    it; nothing is stated of the message it shows. *)
Definition NodeOperationError (message : string) : JsError :=
  MkError "NodeOperationError" message.

(** [String(error)], Error.prototype.toString *)
Definition errorToString (e : JsError) : string :=
  match errName e, errMessage e with
  | EmptyString, m => m
  | n, EmptyString => n
  | n, m => n ++ ": " ++ m
  end.

Inductive Outcome (A : Type) : Type :=
| Ok (a : A)
| Throw (e : JsError).
Arguments Ok {A} a.
Arguments Throw {A} e.

(** ** Parameter descriptors and bind contracts *)

Inductive ParamDirection : Type := DirIn | DirOut | DirInOut.
Inductive ParamDatatype : Type := DtString | DtNumber | DtDate | DtCursor.

(** [oracledb.STRING], [NUMBER], [DATE], [CURSOR] *)
Inductive DbType : Type := STRING | NUMBER | DATE | CURSOR.

(** [oracledb.BIND_IN], [BIND_OUT], [BIND_INOUT] *)
Inductive BindDir : Type := BIND_IN | BIND_OUT | BIND_INOUT.

#[global] Instance ParamDirection_eq_dec : EqDecision ParamDirection.
Proof. solve_decision. Defined.
#[global] Instance ParamDatatype_eq_dec : EqDecision ParamDatatype.
Proof. solve_decision. Defined.
#[global] Instance DbType_eq_dec : EqDecision DbType.
Proof. solve_decision. Defined.
#[global] Instance BindDir_eq_dec : EqDecision BindDir.
Proof. solve_decision. Defined.

(** What [coerceVal] returns: a Number, the Date object built from a
    text ([new Date(text)], which never throws; an unparsable text
    gives an Invalid Date), or a string. *)
Inductive BindValue : Type :=
| ValNumber (n : jsnum)
| ValDate (text : string)
| ValString (s : string).

(** One element of the [params.values] list. [value] and [maxSize] are
    optional: [None] is [undefined]. *)
Module Param.
Record t : Type := Make {
  name : string;
  value : option string;
  datatype : ParamDatatype;
  direction : ParamDirection;
  maxSize : option jsnum;
  parseInStatement : bool
}.
End Param.

(** [oracledb.BindParameter]: a field that is [None] is not a key of
    the object. *)
Module Bind.
Record t : Type := Make {
  dir : BindDir;
  type : DbType;
  val : option BindValue;
  maxSize : option jsnum
}.
End Bind.

Definition mapDatatype (dt : ParamDatatype) : DbType :=
  match dt with
  | DtNumber => NUMBER
  | DtDate => DATE
  | DtCursor => CURSOR
  | DtString => STRING
  end.

Definition coerceVal (raw : string) (dt : ParamDatatype) : BindValue :=
  match dt with
  | DtNumber => ValNumber (JsNumber.ofString raw)
  | DtDate => ValDate raw
  | _ => ValString raw
  end.

Definition ensureOutMaxSize (dt : ParamDatatype) (maxSize : jsnum) : jsnum :=
  if bool_decide (dt = DtString)
     && (negb (JsNumber.truthy maxSize) || JsNumber.isNaN maxSize)
  then JsNumber.ofN 2000
  else maxSize.

(** [Number(maxSize)] for a field that is a Number or [undefined]. *)
Definition toNumber (x : option jsnum) : jsnum :=
  match x with
  | Some n => n
  | None => JNaN
  end.

(** [String(value ?? "")] *)
Definition valueText (v : option string) : string :=
  match v with
  | Some s => s
  | None => EmptyString
  end.

(** [direction.toUpperCase()] *)
Definition directionUpper (d : ParamDirection) : string :=
  match d with
  | DirIn => "IN"
  | DirOut => "OUT"
  | DirInOut => "INOUT"
  end.

Definition quoted (s : string) : string :=
  JsString.dquote ++ s ++ JsString.dquote.

Definition errExpandDirection (name : string) (d : ParamDirection) : JsError :=
  NodeOperationError
    ("Parameter " ++ quoted name ++ " uses " ++ quoted "Parse for IN statement"
       ++ " but direction is " ++ directionUpper d).

Definition errExpandCursor (name : string) : JsError :=
  NodeOperationError
    ("Parameter " ++ quoted name ++ " cannot be CURSOR with "
       ++ quoted "Parse for IN statement").

Definition errNoValues (name : string) : JsError :=
  NodeOperationError ("Parameter " ++ quoted name ++ " has no values for IN list.").

Definition errCursorIn (name : string) : JsError :=
  NodeOperationError ("Parameter " ++ quoted name ++ " cannot be CURSOR with IN direction.").

Definition errCursorInOut (name : string) : JsError :=
  NodeOperationError ("Parameter " ++ quoted name ++ " cannot be CURSOR with IN OUT direction.").

(** ** The bind compiler: the reducer over the parameter list *)

(** The state the reducer works on: the accumulator [result], the
    captured variable [query], and the number of UUIDs drawn so far.

    [result] is an ordinary object, written by [result[key] = bind].
    For every key but [__proto__] the assignment creates or overwrites
    the own property [key]. For the key [__proto__] it runs the setter
    inherited from [Object.prototype]: the bind becomes the prototype
    of the object and no property is created. The map holds under
    [__proto__] the bind that is the prototype, when one was set, and
    under every other key the own property of that name. *)
Record CompileState : Type := MkState {
  result : gmap string Bind.t;
  query : string;
  drawn : nat
}.




Section Compiler.

(** [crypto.randomUUID()]: the [n]-th call returns [randomUUID n]. *)
Variable randomUUID : nat -> string.

(** [crypto.randomUUID().replaceAll("-", "_")] *)
Definition uniqueId (n : nat) : string :=
  JsString.replaceAll (randomUUID n) "-" "_".

(** [String(value ?? "").split(",").map(trim).filter(nonempty)] *)
Definition valList (v : option string) : list string :=
  List.filter (fun t => negb (Nat.eqb (String.length t) 0))
    (List.map JsString.trim (JsString.split "," (valueText v))).

(** The state of the [forEach] loop: the accumulator, the text
    [generatedSqlString] and the number of UUIDs drawn. *)
Definition expandOne (name : string) (dt : ParamDatatype)
    (acc : gmap string Bind.t * string * nat) (v : string)
  : gmap string Bind.t * string * nat :=
  let '(res, generated, n) := acc in
  let newParamName := name ++ uniqueId n in
  (<[newParamName := Bind.Make BIND_IN (mapDatatype dt) (Some (coerceVal v dt)) None]> res,
   generated ++ ":" ++ newParamName ++ ",",
   S n).

(** The body of the reducer. *)
Definition bindStep (st : CompileState) (item : Param.t) : Outcome CompileState :=
  let name := Param.name item in
  let datatype := Param.datatype item in
  let direction := Param.direction item in
  let dbType := mapDatatype datatype in
  if Param.parseInStatement item then
    if negb (bool_decide (direction = DirIn)) then
      Throw (errExpandDirection name direction)
    else if bool_decide (datatype = DtCursor) then
      Throw (errExpandCursor name)
    else
      let vals := valList (Param.value item) in
      if Nat.eqb (List.length vals) 0 then Throw (errNoValues name)
      else
        let '(res, generated, n) :=
          List.fold_left (expandOne name datatype) vals (result st, "(", drawn st) in
        let generatedSqlString := JsString.sliceInit generated ++ ")" in
        Ok (MkState res
              (JsString.replaceAll (query st) (":" ++ name) generatedSqlString)
              n)
  else
    match direction with
    | DirIn =>
        if bool_decide (datatype = DtCursor) then Throw (errCursorIn name)
        else
          Ok (MkState
                (<[name := Bind.Make BIND_IN dbType
                             (Some (coerceVal (valueText (Param.value item)) datatype))
                             None]> (result st))
                (query st) (drawn st))
    | DirOut =>
        let finalMax := ensureOutMaxSize datatype (toNumber (Param.maxSize item)) in
        Ok (MkState
              (<[name := Bind.Make BIND_OUT dbType None
                           (if bool_decide (dbType = STRING) then Some finalMax else None)]>
                 (result st))
              (query st) (drawn st))
    | DirInOut =>
        if bool_decide (datatype = DtCursor) then Throw (errCursorInOut name)
        else
          let finalMax := ensureOutMaxSize datatype (toNumber (Param.maxSize item)) in
          Ok (MkState
                (<[name := Bind.Make BIND_INOUT dbType
                             (Some (coerceVal (valueText (Param.value item)) datatype))
                             (if bool_decide (dbType = STRING) then Some finalMax else None)]>
                   (result st))
                (query st) (drawn st))
    end.

(** [list.reduce(body, init)]: the first throw ends the reduction. *)
Fixpoint bindFold (items : list Param.t) (st : CompileState) : Outcome CompileState :=
  match items with
  | [] => Ok st
  | item :: rest =>
      match bindStep st item with
      | Ok st' => bindFold rest st'
      | Throw e => Throw e
      end
  end.

(** The compiled binds and the final SQL text of an invocation. *)
Definition bindParameters (items : list Param.t) (sql : string) : Outcome CompileState :=
  bindFold items (MkState ∅ sql 0).

End Compiler.

(** ** Values returned by the driver *)

(** The values found in a result envelope. [JResultSet h] is an object
    with [getRows] and [close] methods, the handle [h] of a result set
    of the store; [JObj] lists the own enumerable properties of an
    object in the order of [Object.entries]. *)
Inductive jsval : Type :=
| JUndefined
| JNull
| JBool (b : bool)
| JNum (n : jsnum)
| JStr (s : string)
| JResultSet (h : nat)
| JArr (items : list jsval)
| JObj (entries : list (string * jsval)).

(** The state of a result set: the rows not fetched yet, whether it was
    closed, the failures its two operations are going to answer with,
    and the own enumerable properties of the handle object. *)
Record ResultSet : Type := MkResultSet {
  rsRows : list jsval;
  rsClosed : bool;
  rsGetRowsError : option JsError;
  rsCloseError : option JsError;
  rsEntries : list (string * jsval)
}.

Inductive Event : Type :=
| EvExecute (sql : string) (binds : gmap string Bind.t)
| EvConnectionClose
| EvConsoleError (text : string)
| EvGetRows (h : nat) (numRows : nat)
| EvResultSetClose (h : nat).

(** The world outside the node: the result sets of the connection and
    the calls made so far, oldest first. *)
Record World : Type := MkWorld {
  resultSets : gmap nat ResultSet;
  trace : list Event
}.

Definition record (ev : Event) (w : World) : World :=
  MkWorld (resultSets w) (trace w ++ [ev]).

(** ** A monad for code that awaits the driver: state and exceptions *)

Definition M (A : Type) : Type := World -> Outcome A * World.

Definition ret {A} (a : A) : M A := fun w => (Ok a, w).
Definition throw {A} (e : JsError) : M A := fun w => (Throw e, w).

Definition bind {A B} (m : M A) (k : A -> M B) : M B :=
  fun w =>
    match m w with
    | (Ok a, w') => k a w'
    | (Throw e, w') => (Throw e, w')
    end.

Notation "x <- m ;; k" := (bind m (fun x => k))
  (at level 100, m at next level, right associativity).
Notation "m ;;; k" := (bind m (fun _ => k))
  (at level 100, right associativity).

(** [try { body } catch (error) { handler(error) }] *)
Definition tryCatch {A} (body : M A) (handler : JsError -> M A) : M A :=
  fun w =>
    match body w with
    | (Ok a, w') => (Ok a, w')
    | (Throw e, w') => handler e w'
    end.

(** [try { body } finally { cleanup }]: the outcome of [body] stands
    unless [cleanup] throws. *)
Definition tryFinally {A} (body : M A) (cleanup : M unit) : M A :=
  fun w =>
    match body w with
    | (r, w') =>
        match cleanup w' with
        | (Ok _, w'') => (r, w'')
        | (Throw e, w'') => (Throw e, w'')
        end
    end.

Definition emit (ev : Event) : M unit := fun w => (Ok tt, record ev w).

(** ** Result sets *)

Definition errInvalidResultSet : JsError :=
  MkError "Error" "NJS-018: invalid ResultSet".

(** [rs.getRows(n)]: up to [n] of the rows that are left. *)
Definition getRows (h : nat) (n : nat) : M jsval :=
  fun w =>
    let w1 := record (EvGetRows h n) w in
    match resultSets w !! h with
    | None => (Throw errInvalidResultSet, w1)
    | Some rs =>
        if rsClosed rs then (Throw errInvalidResultSet, w1)
        else match rsGetRowsError rs with
             | Some e => (Throw e, w1)
             | None =>
                 (Ok (JArr (take n (rsRows rs))),
                  MkWorld (<[h := MkResultSet (List.skipn n (rsRows rs)) false
                                    (rsGetRowsError rs) (rsCloseError rs) (rsEntries rs)]>
                             (resultSets w1))
                          (trace w1))
             end
    end.

(** [rs.close()] *)
Definition closeResultSet (h : nat) : M unit :=
  fun w =>
    let w1 := record (EvResultSetClose h) w in
    match resultSets w !! h with
    | None => (Throw errInvalidResultSet, w1)
    | Some rs =>
        if rsClosed rs then (Throw errInvalidResultSet, w1)
        else match rsCloseError rs with
             | Some e => (Throw e, w1)
             | None =>
                 (Ok tt,
                  MkWorld (<[h := MkResultSet (rsRows rs) true
                                    (rsGetRowsError rs) (rsCloseError rs) (rsEntries rs)]>
                             (resultSets w1))
                          (trace w1))
             end
    end.

(** ** The result normaliser *)

(** The page size of the single read: [getRows(10000)]. *)
Definition maxRows : nat := N.to_nat 10000.

(** [readResultSet], run on its own. Inside a [Promise.all] it is
    taken in its two parts, before and after its first [await]:
    [startItem] and [finishItem] below. *)
Definition readResultSet (h : nat) : M jsval :=
  rows <- getRows h maxRows ;;
  closeResultSet h ;;;
  ret rows.

(** *** [Promise.all] over callbacks that read result sets

    [list.map(async cb)] calls every callback before any of them is
    resumed. A callback runs up to its first [await], which for a handle
    is the [getRows] of [readResultSet]: every [getRows] is called, in
    list order, before any [close]. The calls on one connection are
    served one at a time in the order in which they were made, so the
    callbacks are resumed in list order, and each one then calls
    [close]. A callback that fails does not stop the others: the promise
    of [Promise.all] is rejected with the failure that comes first in
    time, and the other callbacks still run to their end. *)

Section PromiseAll.

Context {A P B : Type}.

(** A callback in two parts: up to its first [await], and from there
    on. [failure] is the failure of the awaited call, which the resumed
    callback throws at once. *)
Variable start : A -> World -> P * World.
Variable finish : P -> M B.
Variable failure : P -> option JsError.

(** [list.map(async cb)]: every callback runs up to its first [await]. *)
Fixpoint startAll (l : list A) (w : World) : list P * World :=
  match l with
  | [] => ([], w)
  | x :: l' =>
      let '(p, w1) := start x w in
      let '(ps, w2) := startAll l' w1 in
      (p :: ps, w2)
  end.

(** The callbacks resumed in list order, each one to its end whatever
    became of the others. *)
Fixpoint finishAll (ps : list P) (w : World) : list (Outcome B) * World :=
  match ps with
  | [] => ([], w)
  | p :: ps' =>
      let '(r, w1) := finish p w in
      let '(rs, w2) := finishAll ps' w1 in
      (r :: rs, w2)
  end.

(** The first awaited call that failed. *)
Fixpoint firstFailure (ps : list P) : option JsError :=
  match ps with
  | [] => None
  | p :: ps' =>
      match failure p with
      | Some e => Some e
      | None => firstFailure ps'
      end
  end.

(** The values of the callbacks in list order, or the first failure. *)
Fixpoint collect (rs : list (Outcome B)) : Outcome (list B) :=
  match rs with
  | [] => Ok []
  | Ok b :: rs' =>
      match collect rs' with
      | Ok bs => Ok (b :: bs)
      | Throw e => Throw e
      end
  | Throw e :: _ => Throw e
  end.

(** What [Promise.all] settles to: a failed awaited call is known
    before any callback has gone on to its next call. *)
Definition settle (ps : list P) (rs : list (Outcome B)) : Outcome (list B) :=
  match firstFailure ps with
  | Some e => Throw e
  | None => collect rs
  end.

(** [await Promise.all(list.map(async cb))]. The world that comes
    with a failure is the one all callbacks have left behind: those
    that did not fail have run to their end. *)
Definition promiseAll (l : list A) : M (list B) :=
  fun w =>
    let '(ps, w1) := startAll l w in
    let '(rs, w2) := finishAll ps w1 in
    (settle ps rs, w2).

End PromiseAll.

(** A callback over an array element stopped at its first [await]: a
    value that is not a handle is returned as it is; for a handle
    [getRows] has been called and [answer] is what it is answered. *)
Inductive Pending : Type :=
| Kept (v : jsval)
| Fetching (h : nat) (answer : Outcome jsval).

(** The callback of both [map]s over arrays,
    [isResultSet(val) ? await readResultSet(val) : val],
    up to its first [await]. *)
Definition startItem (val : jsval) (w : World) : Pending * World :=
  match val with
  | JResultSet h =>
      let '(answer, w') := getRows h maxRows w in (Fetching h answer, w')
  | _ => (Kept val, w)
  end.

(** The same callback from its first [await] on: the rest of
    [readResultSet]. *)
Definition finishItem (p : Pending) : M jsval :=
  match p with
  | Kept v => ret v
  | Fetching h (Ok rows) => closeResultSet h ;;; ret rows
  | Fetching h (Throw e) => throw e
  end.

(** The failure of [getRows], which the resumed callback throws. *)
Definition itemFailure (p : Pending) : option JsError :=
  match p with
  | Fetching _ (Throw e) => Some e
  | _ => None
  end.

(** The callback of the [map] over [Object.entries(outBinds)] stopped
    at its first [await]: for an array value the callbacks of the inner
    [map] have been called. *)
Inductive PendingEntry : Type :=
| OneValue (k : string) (p : Pending)
| ArrayValue (k : string) (ps : list Pending).

(** That callback up to its first [await]: [readResultSet(v)] for a
    handle, the inner [map] for an array, nothing for any other value. *)
Definition startEntry (kv : string * jsval) (w : World) : PendingEntry * World :=
  let '(k, v) := kv in
  match v with
  | JArr items =>
      let '(ps, w') := startAll startItem items w in (ArrayValue k ps, w')
  | _ =>
      let '(p, w') := startItem v w in (OneValue k p, w')
  end.

(** The same callback from its first [await] on: the rest of
    [readResultSet], or the rest of the inner [Promise.all]. *)
Definition finishEntry (pe : PendingEntry) : M (string * jsval) :=
  match pe with
  | OneValue k p => v <- finishItem p ;; ret (k, v)
  | ArrayValue k ps =>
      fun w =>
        let '(rs, w') := finishAll finishItem ps w in
        match settle itemFailure ps rs with
        | Ok arr => (Ok (k, JArr arr), w')
        | Throw e => (Throw e, w')
        end
  end.

(** The first [getRows] of the entry that failed. *)
Definition entryFailure (pe : PendingEntry) : option JsError :=
  match pe with
  | OneValue _ p => itemFailure p
  | ArrayValue _ ps => firstFailure itemFailure ps
  end.

(** Writing a property: an existing key keeps its place. *)
Fixpoint setProperty (k : string) (v : jsval) (o : list (string * jsval))
  : list (string * jsval) :=
  match o with
  | [] => [(k, v)]
  | (k', v') :: o' =>
      if String.eqb k' k then (k, v) :: o' else (k', v') :: setProperty k v o'
  end.

(** [Object.fromEntries(entries)] *)
Definition fromEntries (entries : list (string * jsval)) : list (string * jsval) :=
  List.fold_left (fun o kv => setProperty (fst kv) (snd kv) o) entries [].

(** [Object.entries(v)] for a value that is an object. *)
Definition objectEntries (v : jsval) : M (list (string * jsval)) :=
  fun w =>
    match v with
    | JObj entries => (Ok entries, w)
    | JResultSet h =>
        (Ok (match resultSets w !! h with
             | Some rs => rsEntries rs
             | None => []
             end), w)
    | _ => (Ok [], w)
    end.

Definition normalizeOutBinds (outBinds : jsval) : M jsval :=
  match outBinds with
  | JArr items =>
      arr <- promiseAll startItem finishItem itemFailure items ;;
      ret (JArr arr)
  | JObj _ | JResultSet _ =>
      own <- objectEntries outBinds ;;
      entries <- promiseAll startEntry finishEntry entryFailure own ;;
      ret (JObj (fromEntries entries))
  | _ => ret outBinds
  end.

(** ** The node's [execute] *)

(** The result envelope of [connection.execute]. *)
Record ExecResult : Type := MkExecResult {
  exMetaData : jsval;
  exRows : jsval;
  exRowsAffected : jsval;
  exLastRowid : jsval;
  exOutBinds : jsval
}.

(** The record handed to [returnJsonArray]. *)
Record Item : Type := MkItem {
  metaData : jsval;
  rows : jsval;
  rowsAffected : jsval;
  lastRowid : jsval;
  outBinds : jsval
}.

(** An acquired connection: what [execute] answers for a statement and
    its binds, and whether [close] rejects. *)
Record Connection : Type := MkConnection {
  connExecute : string -> gmap string Bind.t -> Outcome ExecResult;
  connClose : option JsError
}.

Definition connectionExecute (c : Connection) (sql : string)
    (binds : gmap string Bind.t) : M ExecResult :=
  emit (EvExecute sql binds) ;;;
  match connExecute c sql binds with
  | Ok r => ret r
  | Throw e => throw e
  end.

Definition connectionClose (c : Connection) : M unit :=
  emit EvConnectionClose ;;;
  match connClose c with
  | None => ret tt
  | Some e => throw e
  end.

(** [error?.message || String(error)] *)
Definition messageOf (e : JsError) : string :=
  match errMessage e with
  | EmptyString => errorToString e
  | m => m
  end.

Definition closeFailureText (e : JsError) : string :=
  "OracleDB: Failed to close the database connection: " ++ errorToString e.

Section Execute.

Variable randomUUID : nat -> string.
Variable connection : Connection.

(** The [try] block. *)
Definition executeBody (sql : string) (items : list Param.t) : M (list Item) :=
  match bindParameters randomUUID items sql with
  | Throw e => throw e
  | Ok st =>
      execResult <- connectionExecute connection (query st) (result st) ;;
      let item := MkItem (exMetaData execResult) (exRows execResult)
                    (exRowsAffected execResult) (exLastRowid execResult)
                    (exOutBinds execResult) in
      ret [item]
  end.

(** The [finally] block. *)
Definition executeCleanup : M unit :=
  tryCatch (connectionClose connection)
           (fun error => emit (EvConsoleError (closeFailureText error))).

(** [execute], from the acquired connection on. *)
Definition execute (sql : string) (items : list Param.t) : M (list (list Item)) :=
  returnItems <-
    tryFinally
      (tryCatch (executeBody sql items)
                (fun error => throw (NodeOperationError (messageOf error))))
      executeCleanup ;;
  ret [returnItems].

End Execute.

(** ** Vocabulary of the statements *)

Definition isConnectionClose (ev : Event) : bool :=
  match ev with EvConnectionClose => true | _ => false end.

Definition isExecute (ev : Event) : bool :=
  match ev with EvExecute _ _ => true | _ => false end.

Definition isResultSetCall (ev : Event) : bool :=
  match ev with EvGetRows _ _ | EvResultSetClose _ => true | _ => false end.

Definition isResultSetClose (h : nat) (ev : Event) : bool :=
  match ev with EvResultSetClose h' => Nat.eqb h h' | _ => false end.

(** What the [finally] block adds to the trace. *)
Definition closeEvents (c : Connection) : list Event :=
  EvConnectionClose ::
  match connClose c with
  | Some e => [EvConsoleError (closeFailureText e)]
  | None => []
  end.

Definition itemOf (r : ExecResult) : Item :=
  MkItem (exMetaData r) (exRows r) (exRowsAffected r) (exLastRowid r) (exOutBinds r).

Definition isValidationError (e : JsError) : Prop :=
  errName e = "NodeOperationError".

(** The guards of the reducer's body, as one test on the descriptor. *)
Definition accepts (d : Param.t) : bool :=
  if Param.parseInStatement d then
    bool_decide (Param.direction d = DirIn)
    && negb (bool_decide (Param.datatype d = DtCursor))
    && negb (Nat.eqb (List.length (valList (Param.value d))) 0)
  else
    bool_decide (Param.direction d = DirOut)
    || negb (bool_decide (Param.datatype d = DtCursor)).

(** The bind a descriptor without expansion is compiled to. *)
Definition simpleBind (d : Param.t) : Bind.t :=
  let dt := Param.datatype d in
  let v := Some (coerceVal (valueText (Param.value d)) dt) in
  let ms :=
    if bool_decide (mapDatatype dt = STRING)
    then Some (ensureOutMaxSize dt (toNumber (Param.maxSize d)))
    else None in
  match Param.direction d with
  | DirIn => Bind.Make BIND_IN (mapDatatype dt) v None
  | DirOut => Bind.Make BIND_OUT (mapDatatype dt) None ms
  | DirInOut => Bind.Make BIND_INOUT (mapDatatype dt) v ms
  end.

(** The bind one token of an expanded descriptor is compiled to. *)
Definition tokenBind (dt : ParamDatatype) (token : string) : Bind.t :=
  Bind.Make BIND_IN (mapDatatype dt) (Some (coerceVal token dt)) None.


(** The shape every compiled bind has. *)
Definition wellFormedBind (b : Bind.t) : Prop :=
  (Bind.type b = CURSOR -> Bind.dir b = BIND_OUT /\ Bind.val b = None)
  /\ (Bind.maxSize b <> None -> Bind.type b = STRING /\ Bind.dir b <> BIND_IN)
  /\ (Bind.type b = STRING -> Bind.dir b <> BIND_IN -> Bind.maxSize b <> None)
  /\ (Bind.val b = None <-> Bind.dir b = BIND_OUT).

(** Tests on the characters of a string. *)
Fixpoint allChars (p : ascii -> bool) (s : string) : bool :=
  match s with
  | EmptyString => true
  | String c s' => p c && allChars p s'
  end.

Definition noDollar (s : string) : bool :=
  allChars (fun c => negb (Ascii.eqb c "$")) s.

(** [Replaced pat rep s s']: [s'] is [s] with every occurrence of [pat],
    taken from left to right without overlap, replaced by [rep]. In the
    second rule [pre ++ pat] ends at the leftmost occurrence of [pat]. *)
Inductive Replaced (pat rep : string) : string -> string -> Prop :=
| Replaced_done s :
    JsString.includes pat s = false -> Replaced pat rep s s
| Replaced_next pre post post' :
    JsString.includes pat (pre +:+ JsString.sliceInit pat) = false ->
    Replaced pat rep post post' ->
    Replaced pat rep (pre +:+ pat +:+ post) (pre +:+ rep +:+ post').

(** The texts [crypto.randomUUID] returns: 36 characters, lower-case
    hexadecimal digits in groups of 8, 4, 4, 4 and 12 joined by hyphens. *)
Definition isHexDigit (c : ascii) : bool :=
  let n := nat_of_ascii c in
  (48 <=? n)%nat && (n <=? 57)%nat || (97 <=? n)%nat && (n <=? 102)%nat.

Definition isUuidChar (c : ascii) : bool := isHexDigit c || Ascii.eqb c "-".

Definition isHyphenAt (s : string) (i : nat) : bool :=
  match String.get i s with
  | Some c => Ascii.eqb c "-"
  | None => false
  end.

Definition isUUID (s : string) : bool :=
  Nat.eqb (String.length s) 36
  && allChars isUuidChar s
  && List.forallb (isHyphenAt s) [8; 13; 18; 23].

Fixpoint mapChars (f : ascii -> ascii) (s : string) : string :=
  match s with
  | EmptyString => EmptyString
  | String c s' => String (f c) (mapChars f s')
  end.

Definition dashToUnderscore (c : ascii) : ascii :=
  if Ascii.eqb c "-" then "_"%char else c.

(** The names an expansion generates when [n] UUIDs were drawn before
    it and it has [k] tokens. *)
Definition generatedNames (uuid : nat -> string) (name : string) (n k : nat)
  : list string :=
  List.map (fun i => name +:+ uniqueId uuid i) (List.seq n k).

(** The text that takes the place of [:name]. *)
Definition placeholderList (names : list string) : string :=
  "(" +:+ String.concat "," (List.map (fun nm => ":" +:+ nm) names) +:+ ")".

(** Writing a list of entries into a bind mapping, in list order. *)
Definition insertAll (kvs : list (string * Bind.t)) (m : gmap string Bind.t)
  : gmap string Bind.t :=
  List.fold_left (fun acc kv => <[fst kv := snd kv]> acc) kvs m.

(** White space or the separator of the IN list. *)
Definition isBlankOrComma (c : ascii) : bool :=
  JsString.isWhiteSpace c || Ascii.eqb c ",".

(** The text the [forEach] loop appends to the opening parenthesis. *)
Fixpoint commaTerminated (names : list string) : string :=
  match names with
  | [] => EmptyString
  | nm :: rest => ":" +:+ nm +:+ "," +:+ commaTerminated rest
  end.

(** The rows the single read of handle [h] returns in world [w]. *)
Definition fetched (w : World) (h : nat) : option jsval :=
  match resultSets w !! h with
  | Some rs => Some (JArr (take maxRows (rsRows rs)))
  | None => None
  end.

(** What an array element becomes: a handle gives its fetched rows, any
    other value itself. *)
Definition itemNormalized (w : World) (v v' : jsval) : Prop :=
  match v with
  | JResultSet h => fetched w h = Some v'
  | _ => v' = v
  end.

(** What an entry of a mapping becomes: the key stays; a handle gives
    its rows, an array is normalised element by element, any other value
    stays. *)
Definition entryNormalized (w : World) (kv kv' : string * jsval) : Prop :=
  fst kv' = fst kv
  /\ match snd kv with
     | JResultSet h => fetched w h = Some (snd kv')
     | JArr items =>
         exists items', snd kv' = JArr items' /\ Forall2 (itemNormalized w) items items'
     | v => snd kv' = v
     end.

(** A result set that is open and whose operations succeed. *)
Definition healthy (w : World) (h : nat) : Prop :=
  exists rs,
    resultSets w !! h = Some rs
    /\ rsClosed rs = false
    /\ rsGetRowsError rs = None
    /\ rsCloseError rs = None.

(** The handles the normaliser reads, in reading order. *)
Definition itemHandles (items : list jsval) : list nat :=
  List.flat_map (fun v => match v with JResultSet h => [h] | _ => [] end) items.

Definition entryHandles (entries : list (string * jsval)) : list nat :=
  List.flat_map
    (fun kv =>
       match snd kv with
       | JResultSet h => [h]
       | JArr items => itemHandles items
       | _ => []
       end) entries.

Definition ownEntries (w : World) (v : jsval) : list (string * jsval) :=
  match v with
  | JObj entries => entries
  | JResultSet h =>
      match resultSets w !! h with
      | Some rs => rsEntries rs
      | None => []
      end
  | _ => []
  end.

Definition handlesOf (w : World) (v : jsval) : list nat :=
  match v with
  | JArr items => itemHandles items
  | JObj _ | JResultSet _ => entryHandles (ownEntries w v)
  | _ => []
  end.

(** The [getRows] calls on the handles [hs], and the [close] calls. *)
Definition fetchEvents (hs : list nat) : list Event :=
  (fun h => EvGetRows h maxRows) <$> hs.

Definition releaseEvents (hs : list nat) : list Event := EvResultSetClose <$> hs.

(** The handles of the stopped callbacks that go on to [close]: those
    whose [getRows] was answered with rows. *)
Definition okHandles (ps : list Pending) : list nat :=
  List.flat_map (fun p => match p with Fetching h (Ok _) => [h] | _ => [] end) ps.

Definition entryOkHandles (pes : list PendingEntry) : list nat :=
  List.flat_map
    (fun pe =>
       match pe with
       | OneValue _ p => okHandles [p]
       | ArrayValue _ ps => okHandles ps
       end) pes.

Definition openIn (w : World) (h : nat) : Prop :=
  exists rs, resultSets w !! h = Some rs /\ rsClosed rs = false.

(** What the callbacks return when they all went to their end. *)
Definition returned (p : Pending) (v' : jsval) : Prop :=
  match p with
  | Kept v => v' = v
  | Fetching _ (Ok rows) => v' = rows
  | Fetching _ (Throw _) => False
  end.

Definition returnedEntry (pe : PendingEntry) (kv' : string * jsval) : Prop :=
  match pe with
  | OneValue k p => fst kv' = k /\ returned p (snd kv')
  | ArrayValue k ps =>
      fst kv' = k /\ exists arr, snd kv' = JArr arr /\ Forall2 returned ps arr
  end.

(** ** Concrete invocations used in the examples *)

Module Fixtures.

(** A stream of version-4 UUIDs. *)
Definition uuid (n : nat) : string :=
  match n with
  | 0 => "3b241101-e2bb-4255-8caf-4136c566a962"
  | 1 => "9f0c1d2e-5a6b-4c7d-8e9f-0a1b2c3d4e5f"
  | 2 => "0e1f2a3b-4c5d-4e6f-9a8b-7c6d5e4f3a2b"
  | _ => "ffffffff-ffff-4fff-bfff-ffffffffffff"
  end.

Definition row (id : N) : jsval := JObj [("ID", JNum (JsNumber.ofN id))].

(** A world with one open result set of two rows under handle 0. *)
Definition world : World :=
  MkWorld {[ 0 := MkResultSet [row 1; row 2] false None None [] ]} [].

Definition cursorParam : Param.t :=
  Param.Make "result" None DtCursor DirOut None false.

Definition envelope (binds : jsval) : ExecResult :=
  MkExecResult JUndefined JUndefined JUndefined JUndefined binds.

(** A connection whose statement answers the handle in [outBinds]. *)
Definition cursorConnection : Connection :=
  MkConnection (fun _ _ => Ok (envelope (JObj [("result", JResultSet 0)]))) None.

(** A world with two open result sets, under handles 0 and 1. *)
Definition twoCursors : World :=
  MkWorld {[ 0 := MkResultSet [row 1; row 2] false None None [];
             1 := MkResultSet [] false None None [] ]} [].

Definition closeError : JsError := MkError "Error" "ORA-03113: end-of-file on communication channel".

End Fixtures.

(** ** Vocabulary of the further properties *)

(** The guards of the reducer's body, read as conditions on the fields
    of a descriptor. *)
Definition passesGuards (d : Param.t) : Prop :=
  (Param.parseInStatement d = true ->
     Param.direction d = DirIn
     /\ Param.datatype d <> DtCursor
     /\ valList (Param.value d) <> [])
  /\ (Param.parseInStatement d = false ->
        Param.datatype d = DtCursor -> Param.direction d = DirOut).

(** The number of tokens of the expanding descriptors of a list. *)
Fixpoint totalTokens (items : list Param.t) : nat :=
  match items with
  | [] => 0
  | d :: rest =>
      (if Param.parseInStatement d then List.length (valList (Param.value d)) else 0)
      + totalTokens rest
  end.

(** The value of a bind is of the kind of its wire type; a bind without
    value is an OUT bind. *)
Definition valueMatchesType (b : Bind.t) : Prop :=
  match Bind.val b with
  | Some (ValNumber _) => Bind.type b = NUMBER
  | Some (ValDate _) => Bind.type b = DATE
  | Some (ValString _) => Bind.type b = STRING
  | None => Bind.dir b = BIND_OUT
  end.

(** A [maxSize] that is carried is neither NaN nor zero. *)
Definition usableMaxSize (b : Bind.t) : Prop :=
  match Bind.maxSize b with
  | Some n => JsNumber.truthy n = true
  | None => True
  end.

Definition notComma (c : ascii) : bool := negb (Ascii.eqb c ",").

(** The first and the last character of a text. *)
Definition firstChar (s : string) : option ascii :=
  match s with
  | String c _ => Some c
  | EmptyString => None
  end.

Fixpoint lastChar (s : string) : option ascii :=
  match s with
  | EmptyString => None
  | String c EmptyString => Some c
  | String _ s' => lastChar s'
  end.

(** A result set that was closed. *)
Definition closedIn (w : World) (h : nat) : Prop :=
  exists rs, resultSets w !! h = Some rs /\ rsClosed rs = true.

Definition isGetRows (h : nat) (ev : Event) : bool :=
  match ev with EvGetRows h' _ => Nat.eqb h h' | _ => false end.

(** What callbacks that all went to their end have done to the handles
    [hs] they closed: the handles were open before and are pairwise
    different, they are closed now, a closed result set stays closed and
    the other result sets are untouched. *)
Definition released (hs : list nat) (w w' : World) : Prop :=
  NoDup hs
  /\ Forall (openIn w) hs
  /\ Forall (closedIn w') hs
  /\ (forall h, closedIn w h -> closedIn w' h)
  /\ (forall h, h ∉ hs -> resultSets w' !! h = resultSets w !! h).

(** The values the normaliser leaves alone: no handle at the levels it
    inspects, and for a mapping pairwise different keys. *)
Definition settled (v : jsval) : Prop :=
  match v with
  | JArr items => itemHandles items = []
  | JObj entries => entryHandles entries = [] /\ NoDup entries.*1
  | JResultSet _ => False
  | _ => True
  end.

(** ** Further concrete invocations *)

Module MoreFixtures.

Definition numberParam : Param.t :=
  Param.Make "a" (Some "1") DtNumber DirIn None false.

Definition stringOutParam : Param.t :=
  Param.Make "msg" None DtString DirOut (Some (JsNumber.ofN 0)) false.

Definition cursorInParam : Param.t :=
  Param.Make "c" None DtCursor DirIn None false.

Definition idsParam : Param.t :=
  Param.Make "ids" (Some "1, 2") DtNumber DirIn None true.

Definition fetchError : JsError := MkError "Error" "ORA-01002: fetch out of sequence".

Definition tableError : JsError :=
  MkError "Error" "ORA-00942: table or view does not exist".

(** Handle 0 is healthy, the fetch of handle 1 fails, the release of
    handle 2 fails. *)
Definition faulty : World :=
  MkWorld {[ 0 := MkResultSet [Fixtures.row 1] false None None [];
             1 := MkResultSet [Fixtures.row 2] false (Some fetchError) None [];
             2 := MkResultSet [Fixtures.row 3] false None (Some fetchError) [] ]} [].

Definition failingConnection : Connection :=
  MkConnection (fun _ _ => Throw tableError) None.

End MoreFixtures.

(** * Properties *)

Local Open Scope list_scope.

(** ** Strings *)

Module StringFacts.
Import JsString.

Lemma append_nil_l (b : string) : "" +:+ b = b.
Proof. reflexivity. Qed.

Lemma append_cons (x : ascii) (a b : string) : String x a +:+ b = String x (a +:+ b).
Proof. reflexivity. Qed.

Lemma append_assoc (a b c : string) : (a +:+ b) +:+ c = a +:+ (b +:+ c).
Proof.
  induction a as [|x a IH]; [reflexivity|].
  by rewrite !append_cons, IH.
Qed.

Lemma append_nil_r (a : string) : a +:+ "" = a.
Proof.
  induction a as [|x a IH]; [reflexivity|]. by rewrite append_cons, IH.
Qed.

Lemma length_append (a b : string) :
  String.length (a +:+ b) = String.length a + String.length b.
Proof.
  induction a as [|x a IH]; [reflexivity|].
  rewrite append_cons. simpl. by rewrite IH.
Qed.

Lemma isPrefix_true p s : isPrefix p s = true <-> exists t, s = p +:+ t.
Proof.
  revert s. induction p as [|a p IH]; intros s; simpl.
  - split; eauto.
  - destruct s as [|b s].
    + split; [discriminate | intros [t [=]]].
    + rewrite andb_true_iff, Ascii.eqb_eq, IH. split.
      * intros [-> [t ->]]. eauto.
      * intros [t Ht]. rewrite append_cons in Ht. injection Ht as -> ->. eauto.
Qed.


Lemma isPrefix_extend p s t : isPrefix p s = true -> isPrefix p (s +:+ t) = true.
Proof.
  rewrite !isPrefix_true. intros [u ->]. exists (u +:+ t). apply append_assoc.
Qed.

Lemma drop_app p t : drop (String.length p) (p +:+ t) = t.
Proof.
  induction p as [|a p IH]; [by destruct t|]. rewrite append_cons. exact IH.
Qed.

Lemma isPrefix_length p s : isPrefix p s = true -> String.length p <= String.length s.
Proof. rewrite isPrefix_true. intros [t ->]. rewrite length_append. lia. Qed.

Lemma includes_true p s :
  includes p s = true <-> exists a b, s = a +:+ p +:+ b.
Proof.
  induction s as [|c s IH]; simpl.
  - rewrite orb_false_r, isPrefix_true. split.
    + intros [t Ht]. exists "", t. exact Ht.
    + intros [a [b Hab]]. destruct a; [eauto | discriminate].
  - rewrite orb_true_iff, IH, isPrefix_true. split.
    + intros [[t Ht] | [a [b ->]]].
      * exists "", t. exact Ht.
      * exists (String c a), b. reflexivity.
    + intros [a [b Hab]]. destruct a as [|x a].
      * left. eauto.
      * right. rewrite append_cons in Hab. injection Hab as -> ->. eauto.
Qed.

Lemma includes_length p s : includes p s = true -> String.length p <= String.length s.
Proof.
  rewrite includes_true. intros [a [b ->]]. rewrite !length_append. lia.
Qed.

Lemma sliceInit_snoc s c : sliceInit (s +:+ String c "") = s.
Proof.
  induction s as [|x s IH]; [reflexivity|].
  rewrite append_cons. simpl. rewrite IH. destruct s; reflexivity.
Qed.

Lemma sliceInit_last s : s <> "" -> exists c, s = sliceInit s +:+ String c "".
Proof.
  induction s as [|x s IH]; intros Hne; [congruence|].
  destruct s as [|y s].
  - exists x. reflexivity.
  - destruct IH as [c Hc]; [discriminate|]. exists c.
    change (sliceInit (String x (String y s))) with (String x (sliceInit (String y s))).
    rewrite append_cons. by rewrite <- Hc.
Qed.

Lemma length_sliceInit s : s <> "" -> S (String.length (sliceInit s)) = String.length s.
Proof.
  intros Hne. destruct (sliceInit_last s Hne) as [c Hc].
  rewrite Hc at 2. rewrite length_append. simpl. lia.
Qed.



Lemma allChars_app p a b : allChars p (a +:+ b) = allChars p a && allChars p b.
Proof.
  induction a as [|x a IH]; [reflexivity|].
  rewrite append_cons. simpl. by rewrite IH, andb_assoc.
Qed.

Lemma getSubstitution_plain m b a tpl :
  noDollar tpl = true -> getSubstitution m b a tpl = tpl.
Proof.
  unfold noDollar. induction tpl as [|c tpl IH]; simpl; [reflexivity|].
  rewrite andb_true_iff, negb_true_iff. intros [-> Htpl]. by rewrite IH.
Qed.

Lemma Replaced_cons pat rep c s r :
  pat <> "" ->
  isPrefix pat (String c s) = false ->
  Replaced pat rep s r -> Replaced pat rep (String c s) (String c r).
Proof.
  intros Hne Hhead Hrep. destruct Hrep as [s Hnone | pre post post' Hleft Hrest].
  - apply Replaced_done.
    change (isPrefix pat (String c s) || includes pat s = false).
    by rewrite Hhead, Hnone.
  - change (Replaced pat rep (String c pre +:+ pat +:+ post) (String c pre +:+ rep +:+ post')).
    apply Replaced_next; [|assumption].
    rewrite append_cons.
    change (isPrefix pat (String c (pre +:+ sliceInit pat))
            || includes pat (pre +:+ sliceInit pat) = false).
    rewrite Hleft, orb_false_r.
    destruct (isPrefix pat (String c (pre +:+ sliceInit pat))) eqn:Hp; [|reflexivity].
    destruct (sliceInit_last pat Hne) as [l Hl].
    apply (isPrefix_extend _ _ (String l "" +:+ post)) in Hp.
    rewrite append_cons, append_assoc, <- (append_assoc (sliceInit pat)), <- Hl in Hp.
    congruence.
Qed.

Lemma replaceScan_Replaced pat rep :
  pat <> "" -> noDollar rep = true ->
  forall fuel before s,
    String.length s < fuel ->
    Replaced pat rep s (replaceScan pat rep fuel before s).
Proof.
  intros Hne Hrep. induction fuel as [|fuel IH]; intros before s Hlen; [lia|].
  simpl. destruct (isPrefix pat s) eqn:Hp.
  - apply isPrefix_true in Hp as [t ->].
    rewrite drop_app, getSubstitution_plain by assumption.
    apply (Replaced_next pat rep "" t).
    + rewrite append_nil_l.
      destruct (includes pat (sliceInit pat)) eqn:Hin; [|reflexivity].
      apply includes_length in Hin. pose proof (length_sliceInit pat Hne). lia.
    + apply IH. rewrite length_append in Hlen.
      destruct pat; [congruence|]. simpl in Hlen. lia.
  - destruct s as [|c s].
    + apply Replaced_done. simpl. by rewrite Hp.
    + apply Replaced_cons; [assumption..|]. apply IH. simpl in Hlen. lia.
Qed.

Lemma replaceAll_Replaced s pat rep :
  pat <> "" -> noDollar rep = true -> Replaced pat rep s (replaceAll s pat rep).
Proof.
  intros Hne Hrep. unfold replaceAll. destruct pat as [|a pat]; [congruence|].
  apply replaceScan_Replaced; [assumption..|lia].
Qed.

Lemma append_split (a b c d : string) :
  a +:+ b = c +:+ d -> String.length a <= String.length c ->
  exists x, c = a +:+ x /\ b = x +:+ d.
Proof.
  revert c. induction a as [|y a IH]; intros c Heq Hlen.
  - exists c. split; [reflexivity | exact Heq].
  - destruct c as [|z c]; [simpl in Hlen; lia|].
    rewrite !append_cons in Heq. injection Heq as -> Heq.
    simpl in Hlen. destruct (IH c Heq) as [x [-> ->]]; [lia|].
    exists x. by split.
Qed.

Lemma includes_app_l p a b : includes p a = true -> includes p (a +:+ b) = true.
Proof.
  rewrite !includes_true. intros [x [y ->]]. exists x, (y +:+ b).
  by rewrite !append_assoc.
Qed.

Lemma includes_app_r p a b : includes p b = true -> includes p (a +:+ b) = true.
Proof.
  rewrite !includes_true. intros [x [y ->]]. exists (a +:+ x), y.
  by rewrite !append_assoc.
Qed.

(** Two decompositions of a text at a leftmost occurrence agree. *)
Lemma leftmost_unique pat pre1 post1 pre2 post2 :
  pat <> "" ->
  pre1 +:+ pat +:+ post1 = pre2 +:+ pat +:+ post2 ->
  includes pat (pre2 +:+ sliceInit pat) = false ->
  String.length pre1 <= String.length pre2 ->
  pre1 = pre2.
Proof.
  intros Hne Heq Hleft Hlen.
  destruct (append_split _ _ _ _ Heq Hlen) as [x [-> Hrest]].
  destruct x as [|c x]; [by rewrite append_nil_r|].
  exfalso.
  destruct (sliceInit_last pat Hne) as [l Hl].
  assert (Hlen' : String.length pat <= String.length (String c x +:+ sliceInit pat)).
  { rewrite length_append. pose proof (length_sliceInit pat Hne). simpl. lia. }
  assert (Heq' : pat +:+ post1 = (String c x +:+ sliceInit pat) +:+ (String l "" +:+ post2)).
  { rewrite Hrest. rewrite Hl at 1. by rewrite !append_assoc. }
  destruct (append_split _ _ _ _ Heq' Hlen') as [y [Hy _]].
  assert (includes pat (pre1 +:+ String c x +:+ sliceInit pat) = true).
  { apply includes_app_r. rewrite Hy. apply includes_true. exists "", y. reflexivity. }
  rewrite append_assoc in Hleft. congruence.
Qed.

Lemma Replaced_functional pat rep s r1 r2 :
  pat <> "" -> Replaced pat rep s r1 -> Replaced pat rep s r2 -> r1 = r2.
Proof.
  intros Hne H1. revert r2.
  induction H1 as [s Hnone | pre post post' Hleft Hrest IH]; intros r2 H2.
  - inversion H2 as [s0 _ | pre2 post2 post2' _ _ Hs]; subst; [reflexivity|].
    exfalso. assert (includes pat (pre2 +:+ pat +:+ post2) = true).
    { apply includes_true. eauto. }
    congruence.
  - inversion H2 as [s0 Hnone | pre2 post2 post2' Hleft2 Hrest2 Hs]; subst.
    + exfalso. assert (includes pat (pre +:+ pat +:+ post) = true).
      { apply includes_true. eauto. }
      congruence.
    + assert (Hpre : pre2 = pre).
      { destruct (Nat.le_gt_cases (String.length pre2) (String.length pre)).
        - by apply (leftmost_unique pat pre2 post2 pre post).
        - symmetry. apply (leftmost_unique pat pre post pre2 post2); auto. lia. }
      subst pre2. apply (inj (String.append pre)) in Hs.
      apply (inj (String.append pat)) in Hs. subst post2.
      by rewrite (IH post2' Hrest2).
Qed.

End StringFacts.

(** ** The string and number primitives on examples *)

Example trim_example :
  JsString.trim "  1, 2 " = "1, 2"
  /\ JsString.trim (String "009" (String "160" "a b" +:+ String "010" "")) = "a b".
Proof. split; reflexivity. Qed.

Example split_example :
  JsString.split "," "1, 2,,3" = ["1"; " 2"; ""; "3"]
  /\ JsString.split "," "" = [""]
  /\ JsString.split "," "a," = ["a"; ""].
Proof. repeat split. Qed.

Example replaceAll_example :
  JsString.replaceAll "a-b--c" "-" "_" = "a_b__c"
  /\ JsString.replaceAll "aaa" "aa" "b" = "ba"
  /\ JsString.replaceAll "x:p y:pq" ":p" "(:p1,:p2)" = "x(:p1,:p2) y(:p1,:p2)q"
  /\ JsString.replaceAll "ab" "" "-" = "-a-b-".
Proof. repeat split. Qed.

(** The special patterns of a replacement text. *)
Example replaceAll_dollar_example :
  JsString.replaceAll "a:p." ":p" "[$$|$&|$`|$'|$1]" = "a[$|:p|a|.|$1].".
Proof. reflexivity. Qed.

Example ofString_example :
  List.map JsNumber.ofString
    ["12"; " 1.50 "; "-.5e3"; "0x1F"; "abc"; ""; "1,2"; "12px"; ".";
     "-Infinity"; "1e"; "0x"; "+0b101"; "5."; "-0"]
  = [JFin false 12 0; JFin false 150 (-2); JFin true 5 2; JFin false 31 0; JNaN;
     JFin false 0 0; JNaN; JNaN; JNaN;
     JInf true; JNaN; JNaN; JNaN; JFin false 5 0; JFin true 0 0].
Proof. reflexivity. Qed.

Example valList_example :
  valList (Some "1, 2, 3") = ["1"; "2"; "3"]
  /\ valList (Some " a ,, b,") = ["a"; "b"]
  /\ valList (Some " , ") = []
  /\ valList None = [].
Proof. repeat split. Qed.

Example isUUID_example :
  List.map (fun n => isUUID (Fixtures.uuid n)) [0; 1; 2; 3] = [true; true; true; true]
  /\ isUUID "3b241101_e2bb_4255_8caf_4136c566a962" = false.
Proof. split; reflexivity. Qed.


(** ** The orchestration *)

Lemma executeCleanup_run c w :
  executeCleanup c w = (Ok tt, MkWorld (resultSets w) (trace w ++ closeEvents c)).
Proof.
  unfold executeCleanup, tryCatch, connectionClose, closeEvents, bind, emit, record.
  simpl. destruct (connClose c) as [e|]; simpl.
  - unfold record; simpl. by rewrite <- app_assoc.
  - reflexivity.
Qed.

(** [execute] in closed form: one case per exit path. *)
Lemma execute_run uuid c sql items w :
  execute uuid c sql items w =
  match bindParameters uuid items sql with
  | Throw e =>
      (Throw (NodeOperationError (messageOf e)),
       MkWorld (resultSets w) (trace w ++ closeEvents c))
  | Ok st =>
      let tr := (trace w ++ EvExecute (query st) (result st) :: closeEvents c)%list in
      match connExecute c (query st) (result st) with
      | Ok r => (Ok [[itemOf r]], MkWorld (resultSets w) tr)
      | Throw e => (Throw (NodeOperationError (messageOf e)), MkWorld (resultSets w) tr)
      end
  end.
Proof.
  unfold execute, bind, tryFinally, tryCatch, executeBody.
  destruct (bindParameters uuid items sql) as [st|e]; simpl.
  - unfold connectionExecute, bind, emit; simpl.
    destruct (connExecute c (query st) (result st)) as [r|e]; simpl;
      rewrite executeCleanup_run; simpl; unfold ret, itemOf;
      by rewrite <- app_assoc.
  - rewrite executeCleanup_run. reflexivity.
Qed.

(** C8. Whatever the exit path of [execute] (compilation failed, the
    statement failed, or a record is returned), the connection is closed
    exactly once, as the last driver call; a failing close is written to
    the console and changes neither the returned record nor the error
    thrown: the outcome is the one of the same invocation with a close
    that succeeds, namely the error of the compilation, the error of the
    statement, or the record built from the envelope. *)
Theorem close_runs_once_and_is_swallowed
    (uuid : nat -> string) (exec : string -> gmap string Bind.t -> Outcome ExecResult)
    (closing : option JsError) (sql : string) (items : list Param.t) (w : World) :
  let c := MkConnection exec closing in
  let run := execute uuid c sql items w in
  (exists evs,
      trace (snd run) = (trace w ++ evs ++ closeEvents c)%list
      /\ List.filter isConnectionClose evs = [])
  /\ List.filter isConnectionClose (closeEvents c) = [EvConnectionClose]
  /\ fst run = fst (execute uuid (MkConnection exec None) sql items w)
  /\ fst run
     = match bindParameters uuid items sql with
       | Throw e => Throw (NodeOperationError (messageOf e))
       | Ok st =>
           match exec (query st) (result st) with
           | Throw e => Throw (NodeOperationError (messageOf e))
           | Ok r => Ok [[itemOf r]]
           end
       end
  /\ last (trace (snd run))
     = Some (match closing with
             | Some e => EvConsoleError (closeFailureText e)
             | None => EvConnectionClose
             end)
  /\ resultSets (snd run) = resultSets w.
Proof.
  intros c run. subst run. rewrite !execute_run.
  assert (Hlast : forall tr : list Event,
             last (tr ++ closeEvents c)
             = Some (match closing with
                     | Some e => EvConsoleError (closeFailureText e)
                     | None => EvConnectionClose
                     end)).
  { intros tr. unfold closeEvents, c; simpl.
    destruct closing as [j|]; simpl.
    - change (EvConnectionClose :: [EvConsoleError (closeFailureText j)])
        with ([EvConnectionClose] ++ [EvConsoleError (closeFailureText j)]).
      by rewrite !app_assoc, last_snoc.
    - by rewrite last_snoc. }
  assert (Hone : List.filter isConnectionClose (closeEvents c) = [EvConnectionClose]).
  { unfold closeEvents, c; simpl. by destruct closing. }
  destruct (bindParameters uuid items sql) as [st|e]; simpl.
  - change (connExecute c) with exec.
    destruct (exec (query st) (result st)) as [r|e]; simpl.
    + repeat split; auto.
      * exists [EvExecute (query st) (result st)]. by split.
      * change (trace w ++ EvExecute (query st) (result st) :: closeEvents c)
          with (trace w ++ [EvExecute (query st) (result st)] ++ closeEvents c).
        rewrite app_assoc. apply Hlast.
    + repeat split; auto.
      * exists [EvExecute (query st) (result st)]. by split.
      * change (trace w ++ EvExecute (query st) (result st) :: closeEvents c)
          with (trace w ++ [EvExecute (query st) (result st)] ++ closeEvents c).
        rewrite app_assoc. apply Hlast.
  - repeat split; auto.
    exists []. by split.
Qed.

(** A close that rejects after a statement that failed: the error of
    the statement is the one thrown, the close failure is only logged. *)
Example execute_close_failure_example :
  let c := MkConnection
             (fun _ _ => Throw (MkError "Error" "ORA-00942: table or view does not exist"))
             (Some Fixtures.closeError) in
  execute Fixtures.uuid c "SELECT * FROM missing" [] Fixtures.world
  = (Throw (NodeOperationError "ORA-00942: table or view does not exist"),
     MkWorld (resultSets Fixtures.world)
       [EvExecute "SELECT * FROM missing" ∅;
        EvConnectionClose;
        EvConsoleError
          "OracleDB: Failed to close the database connection: Error: ORA-03113: end-of-file on communication channel"]).
Proof. reflexivity. Qed.

(** [execute] copies the [outBinds] of the envelope into the record as
    they are and never calls a result set. *)
Lemma execute_passes_outBinds_through uuid c sql items w its :
  fst (execute uuid c sql items w) = Ok its ->
  exists st r,
    bindParameters uuid items sql = Ok st
    /\ connExecute c (query st) (result st) = Ok r
    /\ its = [[itemOf r]]
    /\ List.filter isResultSetCall (trace (snd (execute uuid c sql items w)))
       = List.filter isResultSetCall (trace w)
    /\ resultSets (snd (execute uuid c sql items w)) = resultSets w.
Proof.
  rewrite execute_run.
  destruct (bindParameters uuid items sql) as [st|e]; simpl; [|discriminate].
  destruct (connExecute c (query st) (result st)) as [r|e] eqn:Hr; simpl; [|discriminate].
  intros [= <-]. exists st, r. repeat split; auto.
  rewrite List.filter_app. simpl.
  unfold closeEvents. destruct (connClose c); simpl; by rewrite app_nil_r.
Qed.

(** C1 (the code departs from it). For the descriptor
    [{name: "result", datatype: cursor, direction: out}] and a statement
    that answers a cursor handle, [execute] succeeds and the record's
    [outBinds.result] is still the handle: no row was fetched, the
    handle's [close] was called zero times and the result set is left
    open. [normalizeOutBinds], which the node defines, would have given
    the two rows and closed the handle once. *)
Theorem execute_returns_cursor_unread :
  let run := execute Fixtures.uuid Fixtures.cursorConnection
               "BEGIN OPEN :result FOR SELECT id FROM t; END;"
               [Fixtures.cursorParam] Fixtures.world in
  fst run = Ok [[MkItem JUndefined JUndefined JUndefined JUndefined
                   (JObj [("result", JResultSet 0)])]]
  /\ List.filter (isResultSetClose 0) (trace (snd run)) = []
  /\ List.filter isResultSetCall (trace (snd run)) = []
  /\ rsClosed <$> (resultSets (snd run) !! 0) = Some false
  /\ (let norm := normalizeOutBinds (JObj [("result", JResultSet 0)]) Fixtures.world in
      fst norm = Ok (JObj [("result", JArr [Fixtures.row 1; Fixtures.row 2])])
      /\ List.filter (isResultSetClose 0) (trace (snd norm)) = [EvResultSetClose 0]).
Proof. vm_compute. repeat split; reflexivity. Qed.

(** ** The bind compiler: guards *)

Section CompilerFacts.

Variable uuid : nat -> string.

Lemma bindStep_simple st d :
  Param.parseInStatement d = false ->
  accepts d = true ->
  bindStep uuid st d
  = Ok (MkState (<[Param.name d := simpleBind d]> (result st)) (query st) (drawn st)).
Proof.
  unfold accepts, bindStep, simpleBind. intros -> Hacc.
  destruct (Param.direction d), (Param.datatype d); simpl in *;
    try discriminate; reflexivity.
Qed.

Lemma bindStep_accepts st d :
  (exists st', bindStep uuid st d = Ok st') <-> accepts d = true.
Proof.
  unfold accepts, bindStep.
  destruct (Param.parseInStatement d).
  - destruct (Param.direction d), (Param.datatype d); simpl;
      try (split; [intros [? [=]] | discriminate]);
      destruct (List.length (valList (Param.value d)) =? 0)%nat; simpl;
      try (split; [intros [? [=]] | discriminate]);
      (split; [reflexivity | intros _]);
      match goal with
      | |- context [List.fold_left ?f ?l ?a] =>
          destruct (List.fold_left f l a) as [[? ?] ?]
      end; eauto.
  - destruct (Param.direction d), (Param.datatype d); simpl;
      try (split; [intros [? [=]] | discriminate]);
      (split; [reflexivity | eauto]).
Qed.

Lemma bindStep_rejects st d :
  accepts d = false -> exists e, bindStep uuid st d = Throw e.
Proof.
  intros Hrej. destruct (bindStep uuid st d) as [st'|e] eqn:Hstep; [|eauto].
  assert (accepts d = true) by (apply (bindStep_accepts st); eauto).
  congruence.
Qed.

Lemma bindStep_throws_validation st d e :
  bindStep uuid st d = Throw e -> isValidationError e.
Proof.
  unfold bindStep, isValidationError.
  repeat match goal with
         | |- context [if ?b then _ else _] => destruct b
         | |- context [match ?x with DirIn => _ | _ => _ end] => destruct x
         | |- context [List.fold_left ?f ?l ?a] =>
             destruct (List.fold_left f l a) as [[? ?] ?]
         end; intros [= <-]; reflexivity.
Qed.

Lemma bindFold_app l1 l2 st :
  bindFold uuid (l1 ++ l2) st
  = match bindFold uuid l1 st with
    | Ok st' => bindFold uuid l2 st'
    | Throw e => Throw e
    end.
Proof.
  revert st. induction l1 as [|d l1 IH]; intros st; simpl; [reflexivity|].
  destruct (bindStep uuid st d); [apply IH | reflexivity].
Qed.

Lemma bindFold_throws_validation items st e :
  bindFold uuid items st = Throw e -> isValidationError e.
Proof.
  revert st. induction items as [|d items IH]; intros st; simpl; [discriminate|].
  destruct (bindStep uuid st d) as [st'|e'] eqn:Hstep.
  - apply IH.
  - intros [= <-]. eapply bindStep_throws_validation; eauto.
Qed.

(** One rejected descriptor anywhere in the list fails the reduction. *)
Lemma bindFold_rejects items st d :
  In d items -> accepts d = false ->
  exists e, bindFold uuid items st = Throw e /\ isValidationError e.
Proof.
  revert st. induction items as [|d' items IH]; intros st Hin Hrej; [destruct Hin|].
  simpl. destruct (bindStep uuid st d') as [st'|e] eqn:Hstep.
  - destruct Hin as [->|Hin].
    + destruct (bindStep_rejects st d Hrej) as [e He]. congruence.
    + apply IH; assumption.
  - exists e. split; [reflexivity|]. eapply bindStep_throws_validation; eauto.
Qed.

Lemma bindFold_accepts items st :
  Forall (fun d => accepts d = true) items ->
  exists st', bindFold uuid items st = Ok st'.
Proof.
  revert st. induction items as [|d items IH]; intros st Hall; simpl; [eauto|].
  inversion Hall as [|? ? Hd Hrest]; subst.
  destruct (proj2 (bindStep_accepts st d) Hd) as [st' ->]. apply IH, Hrest.
Qed.

End CompilerFacts.

Lemma filter_isExecute_run tr sql binds c :
  List.filter isExecute (tr ++ EvExecute sql binds :: closeEvents c)
  = List.filter isExecute tr ++ [EvExecute sql binds].
Proof.
  rewrite List.filter_app. f_equal.
  unfold closeEvents. by destruct (connClose c).
Qed.

(** A failed compilation ends [execute] with a validation error before
    the statement reaches the connection. *)
Lemma execute_compile_failure uuid c sql items w e :
  bindParameters uuid items sql = Throw e ->
  exists e',
    fst (execute uuid c sql items w) = Throw e'
    /\ isValidationError e'
    /\ trace (snd (execute uuid c sql items w)) = trace w ++ closeEvents c
    /\ List.filter isExecute (closeEvents c) = [].
Proof.
  intros Hc. rewrite execute_run, Hc. simpl.
  exists (NodeOperationError (messageOf e)). repeat split.
  unfold closeEvents. by destruct (connClose c).
Qed.

(** ** Generated identifiers *)

Section UniqueIds.

Import JsString StringFacts.

Lemma replaceScan_step pat tpl fuel before s :
  replaceScan pat tpl (S fuel) before s
  = if isPrefix pat s then
      getSubstitution pat before (drop (String.length pat) s) tpl
        +:+ replaceScan pat tpl fuel (before +:+ pat) (drop (String.length pat) s)
    else match s with
         | EmptyString => EmptyString
         | String c s' =>
             String c (replaceScan pat tpl fuel (before +:+ String c EmptyString) s')
         end.
Proof. reflexivity. Qed.

Lemma isPrefix_single a c s :
  isPrefix (String a EmptyString) (String c s) = Ascii.eqb c a.
Proof.
  change (Ascii.eqb a c && true = Ascii.eqb c a).
  by rewrite andb_true_r, Ascii.eqb_sym.
Qed.

Lemma replaceScan_dash fuel before s :
  String.length s < fuel ->
  replaceScan "-" "_" fuel before s = mapChars dashToUnderscore s.
Proof.
  revert before s. induction fuel as [|fuel IH]; intros before s Hlen; [lia|].
  destruct s as [|c s]; [reflexivity|].
  simpl in Hlen. rewrite replaceScan_step, isPrefix_single.
  change (mapChars dashToUnderscore (String c s))
    with (String (dashToUnderscore c) (mapChars dashToUnderscore s)).
  unfold dashToUnderscore at 1.
  destruct (Ascii.eqb c "-") eqn:Hc.
  - change (String "_" (replaceScan "-" "_" fuel (before +:+ "-") s)
            = String "_" (mapChars dashToUnderscore s)).
    f_equal. apply IH. lia.
  - f_equal. apply IH. lia.
Qed.

Lemma uniqueId_mapChars uuid n :
  uniqueId uuid n = mapChars dashToUnderscore (uuid n).
Proof. unfold uniqueId, replaceAll. apply replaceScan_dash. lia. Qed.

Lemma dashToUnderscore_inj x y :
  isUuidChar x = true -> isUuidChar y = true ->
  dashToUnderscore x = dashToUnderscore y -> x = y.
Proof.
  unfold dashToUnderscore. intros Hx Hy.
  destruct (Ascii.eqb x "-") eqn:Ex, (Ascii.eqb y "-") eqn:Ey.
  - apply Ascii.eqb_eq in Ex, Ey. congruence.
  - intros <-. discriminate Hy.
  - intros ->. discriminate Hx.
  - trivial.
Qed.

Lemma mapChars_dash_inj a b :
  allChars isUuidChar a = true -> allChars isUuidChar b = true ->
  mapChars dashToUnderscore a = mapChars dashToUnderscore b -> a = b.
Proof.
  revert b. induction a as [|x a IH]; intros [|y b]; simpl; try discriminate; [trivial|].
  rewrite !andb_true_iff. intros [Hx Ha] [Hy Hb] [= Hxy Hab].
  f_equal; [by apply dashToUnderscore_inj | by apply IH].
Qed.

Lemma isUUID_chars s : isUUID s = true -> allChars isUuidChar s = true.
Proof. unfold isUUID. rewrite !andb_true_iff. tauto. Qed.

Lemma noDollar_mapChars_dash s :
  allChars isUuidChar s = true -> noDollar (mapChars dashToUnderscore s) = true.
Proof.
  unfold noDollar. induction s as [|c s IH]; simpl; [trivial|].
  rewrite !andb_true_iff. intros [Hc Hs]. split; [|by apply IH].
  unfold dashToUnderscore. destruct (Ascii.eqb c "-"); [reflexivity|].
  apply negb_true_iff. destruct (Ascii.eqb c "$") eqn:Ec; [|reflexivity].
  apply Ascii.eqb_eq in Ec. subst c. discriminate Hc.
Qed.

(** Distinct well-formed UUIDs give distinct generated names. *)
Lemma generatedNames_NoDup uuid name n k :
  Forall (fun i => isUUID (uuid i) = true) (List.seq n k) ->
  NoDup (List.map uuid (List.seq n k)) ->
  NoDup (generatedNames uuid name n k).
Proof.
  intros Hwf Hnd. unfold generatedNames.
  assert (Hmap : List.map (fun i => name +:+ uniqueId uuid i) (List.seq n k)
                 = (fun u => name +:+ mapChars dashToUnderscore u)
                     <$> (List.map uuid (List.seq n k))).
  { rewrite <- list_fmap_compose. apply List.map_ext.
    intros i. simpl. by rewrite uniqueId_mapChars. }
  rewrite Hmap. apply NoDup_fmap_2_strong; [|assumption].
  assert (Hall : Forall (fun u => isUUID u = true) (List.map uuid (List.seq n k))).
  { by apply Forall_fmap. }
  rewrite Forall_forall in Hall.
  intros u v Hu Hv Heq. apply (inj (String.append name)) in Heq.
  apply mapChars_dash_inj in Heq; [assumption | by apply isUUID_chars, Hall..].
Qed.

End UniqueIds.

(** ** The bind compiler: expansion of a descriptor into an IN list *)

Section Expansion.

Import JsString StringFacts.

Variable uuid : nat -> string.

Lemma fold_expandOne name dt vals res gen n :
  List.fold_left (expandOne uuid name dt) vals (res, gen, n)
  = (insertAll (zip (generatedNames uuid name n (List.length vals))
                    (List.map (tokenBind dt) vals)) res,
     gen +:+ commaTerminated (generatedNames uuid name n (List.length vals)),
     n + List.length vals).
Proof.
  revert res gen n. induction vals as [|v vals IH]; intros res gen n.
  - simpl. by rewrite append_nil_r, Nat.add_0_r.
  - change (List.fold_left (expandOne uuid name dt) (v :: vals) (res, gen, n))
      with (List.fold_left (expandOne uuid name dt) vals
              (<[name +:+ uniqueId uuid n := tokenBind dt v]> res,
               gen +:+ ":" +:+ (name +:+ uniqueId uuid n) +:+ ",",
               S n)).
    rewrite IH. simpl List.length. unfold generatedNames. simpl List.seq.
    simpl List.map. simpl zip. simpl commaTerminated.
    f_equal; [f_equal|lia].
    by rewrite !append_assoc.
Qed.

Lemma commaTerminated_concat names :
  names <> [] ->
  commaTerminated names
  = String.concat "," (List.map (fun nm => ":" +:+ nm) names) +:+ ",".
Proof.
  induction names as [|nm names IH]; intros Hne; [congruence|].
  destruct names as [|nm' names].
  - simpl. by rewrite append_nil_r, !append_assoc.
  - change (commaTerminated (nm :: nm' :: names))
      with (":" +:+ nm +:+ "," +:+ commaTerminated (nm' :: names)).
    rewrite IH by discriminate.
    change (String.concat "," (List.map (fun x => ":" +:+ x) (nm :: nm' :: names)))
      with ((":" +:+ nm) +:+ "," +:+
            String.concat "," (List.map (fun x => ":" +:+ x) (nm' :: names))).
    by rewrite !append_assoc.
Qed.

Lemma generatedSqlString_placeholderList names :
  names <> [] ->
  sliceInit ("(" +:+ commaTerminated names) +:+ ")" = placeholderList names.
Proof.
  intros Hne. rewrite commaTerminated_concat by assumption.
  rewrite <- append_assoc, sliceInit_snoc. unfold placeholderList.
  by rewrite append_assoc.
Qed.

Lemma lookup_insertAll_notin kvs (m : gmap string Bind.t) k :
  k ∉ kvs.*1 -> insertAll kvs m !! k = m !! k.
Proof.
  revert m. induction kvs as [|[k' v'] kvs IH]; intros m Hk; [reflexivity|].
  rewrite fmap_cons, not_elem_of_cons in Hk. destruct Hk as [Hne Hk].
  change (insertAll kvs (<[k' := v']> m) !! k = m !! k).
  rewrite IH by assumption. apply lookup_insert_ne. simpl in Hne. congruence.
Qed.

Lemma lookup_insertAll_at kvs (m : gmap string Bind.t) i k v :
  NoDup kvs.*1 -> kvs !! i = Some (k, v) -> insertAll kvs m !! k = Some v.
Proof.
  revert m i. induction kvs as [|[k' v'] kvs IH]; intros m i Hnd Hi; [discriminate|].
  rewrite fmap_cons in Hnd. apply NoDup_cons in Hnd as [Hk' Hnd].
  change (insertAll kvs (<[k' := v']> m) !! k = Some v).
  destruct i as [|i]; simpl in Hi.
  - injection Hi as -> ->. rewrite lookup_insertAll_notin by assumption.
    apply lookup_insert_eq.
  - eapply IH; eauto.
Qed.

Lemma map_Forall_insertAll (P : Bind.t -> Prop) kvs (m : gmap string Bind.t) :
  Forall (fun kv => P (snd kv)) kvs ->
  map_Forall (fun _ => P) m -> map_Forall (fun _ => P) (insertAll kvs m).
Proof.
  revert m. induction kvs as [|[k v] kvs IH]; intros m Hkvs Hm; [assumption|].
  inversion Hkvs; subst.
  change (map_Forall (fun _ => P) (insertAll kvs (<[k := v]> m))).
  apply IH; [assumption|]. by apply map_Forall_insert_2.
Qed.

(** The body of the reducer on an accepted expanding descriptor. *)
Lemma bindStep_expand st d :
  Param.parseInStatement d = true ->
  accepts d = true ->
  let tokens := valList (Param.value d) in
  let names := generatedNames uuid (Param.name d) (drawn st) (List.length tokens) in
  bindStep uuid st d
  = Ok (MkState
          (insertAll (zip names (List.map (tokenBind (Param.datatype d)) tokens))
                     (result st))
          (replaceAll (query st) (":" +:+ Param.name d) (placeholderList names))
          (drawn st + List.length tokens)).
Proof.
  intros Hexp Hacc tokens names. unfold accepts in Hacc. unfold bindStep.
  rewrite Hexp in Hacc |- *.
  rewrite !andb_true_iff in Hacc. destruct Hacc as [[Hdir Hdt] Hlen].
  rewrite Hdir. simpl negb. cbv iota.
  apply negb_true_iff in Hdt. rewrite Hdt.
  apply negb_true_iff in Hlen. fold tokens in Hlen |- *. rewrite Hlen.
  rewrite fold_expandOne. fold names.
  rewrite generatedSqlString_placeholderList; [reflexivity|].
  unfold names, generatedNames. destruct (List.length tokens); [discriminate Hlen|].
  discriminate.
Qed.

End Expansion.

(** ** The bind compiler: what a reduction writes *)

Section Writes.

Import JsString StringFacts.

Variable uuid : nat -> string.

Lemma length_generatedNames name n k :
  List.length (generatedNames uuid name n k) = k.
Proof. unfold generatedNames. by rewrite List.length_map, List.length_seq. Qed.




Lemma ensureOutMaxSize_string n :
  ensureOutMaxSize DtString n = if JsNumber.truthy n then n else JsNumber.ofN 2000.
Proof. unfold ensureOutMaxSize. by destruct n as [| |neg [|m] e]. Qed.

Lemma simpleBind_wellFormed d :
  Param.parseInStatement d = false -> accepts d = true -> wellFormedBind (simpleBind d).
Proof.
  unfold accepts, simpleBind, wellFormedBind. intros ->.
  destruct (Param.direction d), (Param.datatype d); simpl; intros Hacc;
    try discriminate Hacc; repeat split; intros; try congruence; try discriminate.
Qed.

Lemma tokenBind_wellFormed dt token :
  dt <> DtCursor -> wellFormedBind (tokenBind dt token).
Proof.
  unfold tokenBind, wellFormedBind. intros Hdt.
  destruct dt; simpl; repeat split; intros; try congruence; try discriminate.
Qed.

Lemma bindStep_wellFormed st d st' :
  bindStep uuid st d = Ok st' ->
  map_Forall (fun _ => wellFormedBind) (result st) ->
  map_Forall (fun _ => wellFormedBind) (result st').
Proof.
  intros Hstep Hinv.
  assert (Hacc : accepts d = true) by (apply (bindStep_accepts uuid st); eauto).
  destruct (Param.parseInStatement d) eqn:Hexp.
  - rewrite bindStep_expand in Hstep by assumption. injection Hstep as <-.
    simpl. apply map_Forall_insertAll; [|assumption].
    apply Forall_forall. intros [k b] Hin. simpl.
    apply elem_of_zip_r, list_elem_of_In, List.in_map_iff in Hin as [token [<- _]].
    apply tokenBind_wellFormed.
    unfold accepts in Hacc. rewrite Hexp in Hacc.
    destruct (Param.datatype d); try discriminate.
    by rewrite andb_false_r in Hacc.
  - rewrite bindStep_simple in Hstep by assumption. injection Hstep as <-.
    simpl. apply map_Forall_insert_2; [|assumption].
    by apply simpleBind_wellFormed.
Qed.

Lemma bindFold_wellFormed items st st' :
  bindFold uuid items st = Ok st' ->
  map_Forall (fun _ => wellFormedBind) (result st) ->
  map_Forall (fun _ => wellFormedBind) (result st').
Proof.
  revert st. induction items as [|d items IH]; intros st Hfold Hinv; simpl in Hfold.
  - by injection Hfold as <-.
  - destruct (bindStep uuid st d) as [st1|e] eqn:Hstep; [|discriminate].
    eapply IH; eauto. eapply bindStep_wellFormed; eauto.
Qed.

(** Every bind of a compiled mapping is well formed. *)
Lemma bindParameters_wellFormed items sql st key b :
  bindParameters uuid items sql = Ok st ->
  result st !! key = Some b -> wellFormedBind b.
Proof.
  intros Hc Hb. unfold bindParameters in Hc.
  apply bindFold_wellFormed in Hc; [|apply map_Forall_empty].
  exact (Hc key b Hb).
Qed.

End Writes.

(** ** The bind compiler: validation *)

Lemma execute_rejects uuid items sql d :
  In d items -> accepts d = false ->
  (exists e, bindParameters uuid items sql = Throw e /\ isValidationError e)
  /\ (forall c w,
        exists e,
          fst (execute uuid c sql items w) = Throw e
          /\ isValidationError e
          /\ List.filter isExecute (trace (snd (execute uuid c sql items w)))
             = List.filter isExecute (trace w)).
Proof.
  intros Hin Hrej.
  destruct (bindFold_rejects uuid items (MkState ∅ sql 0) d Hin Hrej) as [e [He Hv]].
  split; [eauto|]. intros c w.
  destruct (execute_compile_failure uuid c sql items w e He) as [e' [Hr [Hv' [Htr Hnone]]]].
  exists e'. repeat split; try assumption.
  by rewrite Htr, List.filter_app, Hnone, app_nil_r.
Qed.

(** C3. A cursor descriptor whose direction is [in] or [inout], or
    that asks for expansion, makes the compilation of any parameter list
    that contains it fail with a validation error, and [execute] then
    throws that kind of error without the statement reaching the
    connection. Consequently, in every mapping that is compiled, a
    CURSOR-typed bind has direction OUT. *)
Theorem cursor_binds_are_out_only (uuid : nat -> string) :
  (forall items sql d,
      In d items ->
      Param.datatype d = DtCursor ->
      Param.direction d = DirIn \/ Param.direction d = DirInOut
        \/ Param.parseInStatement d = true ->
      (exists e, bindParameters uuid items sql = Throw e /\ isValidationError e)
      /\ (forall c w,
            exists e,
              fst (execute uuid c sql items w) = Throw e
              /\ isValidationError e
              /\ List.filter isExecute (trace (snd (execute uuid c sql items w)))
                 = List.filter isExecute (trace w)))
  /\ (forall items sql st key b,
        bindParameters uuid items sql = Ok st ->
        result st !! key = Some b ->
        Bind.type b = CURSOR -> Bind.dir b = BIND_OUT).
Proof.
  split.
  - intros items sql d Hin Hdt Hbad. apply execute_rejects with d; [assumption|].
    unfold accepts. rewrite Hdt.
    destruct (Param.parseInStatement d), (Param.direction d); simpl;
      try reflexivity; destruct Hbad as [H | [H | H]]; discriminate H.
  - intros items sql st key b Hc Hb Hty.
    destruct (bindParameters_wellFormed uuid items sql st key b Hc Hb) as [Hcur _].
    by apply Hcur.
Qed.

Lemma cursor_binds_are_out_only_witness :
  exists e,
    bindParameters Fixtures.uuid
      [Param.Make "a" (Some "1") DtNumber DirIn None false;
       Param.Make "c" None DtCursor DirInOut None false]
      "BEGIN p(:a, :c); END;" = Throw e
    /\ isValidationError e.
Proof.
  apply (proj1 (cursor_binds_are_out_only Fixtures.uuid)
           _ _ (Param.Make "c" None DtCursor DirInOut None false)).
  - simpl. right. left. reflexivity.
  - reflexivity.
  - right. left. reflexivity.
Defined.

(** ** The bind compiler: empty IN lists *)

Section BlankValues.

Import JsString StringFacts.

Lemma trim_blank s : allChars isWhiteSpace s = true -> trim s = EmptyString.
Proof.
  unfold trim. induction s as [|c s IH]; simpl; [reflexivity|].
  rewrite andb_true_iff. intros [-> Hs]. by apply IH.
Qed.

Lemma split_blank s :
  allChars isBlankOrComma s = true ->
  Forall (fun piece => allChars isWhiteSpace piece = true) (split "," s).
Proof.
  induction s as [|c s IH]; simpl.
  - intros _. by repeat constructor.
  - rewrite andb_true_iff. unfold isBlankOrComma at 1. intros [Hc Hs].
    specialize (IH Hs). destruct (Ascii.eqb c ",") eqn:Ec.
    + by constructor.
    + rewrite orb_false_r in Hc. destruct (split "," s) as [|piece pieces].
      * repeat constructor. simpl. by rewrite Hc.
      * inversion IH; subst. constructor; [|assumption]. simpl. by rewrite Hc.
Qed.

(** A value made of white space and commas only has no token. *)
Lemma valList_blank s :
  allChars isBlankOrComma s = true -> valList (Some s) = [].
Proof.
  intros Hs. unfold valList. simpl valueText.
  pose proof (split_blank s Hs) as Hpieces.
  induction Hpieces as [|piece pieces Hp _ IH]; [reflexivity|].
  simpl. by rewrite (trim_blank piece Hp).
Qed.

Lemma valList_undefined : valList None = [].
Proof. reflexivity. Qed.

End BlankValues.

(** C4. An expanding descriptor whose value leaves no token after the
    split on commas, the trim and the removal of empty pieces (a missing
    value, or one made of white space and commas only) makes the
    compilation of any parameter list that contains it fail with a
    validation error, and [execute] throws it without the statement
    reaching the connection. *)
Theorem expansion_without_tokens_fails
    (uuid : nat -> string) (items : list Param.t) (sql : string) (d : Param.t) :
  In d items ->
  Param.parseInStatement d = true ->
  valList (Param.value d) = []
    \/ (exists s, Param.value d = Some s /\ allChars isBlankOrComma s = true)
    \/ Param.value d = None ->
  (exists e, bindParameters uuid items sql = Throw e /\ isValidationError e)
  /\ (forall c w,
        exists e,
          fst (execute uuid c sql items w) = Throw e
          /\ isValidationError e
          /\ List.filter isExecute (trace (snd (execute uuid c sql items w)))
             = List.filter isExecute (trace w))
  /\ (forall st,
        Param.direction d = DirIn -> Param.datatype d <> DtCursor ->
        bindStep uuid st d = Throw (errNoValues (Param.name d))).
Proof.
  intros Hin Hexp Hval.
  assert (Hnone : valList (Param.value d) = []).
  { destruct Hval as [H | [[s [Hs Hblank]] | H]]; [assumption| |].
    - rewrite Hs. by apply valList_blank.
    - by rewrite H. }
  split; [|split].
  - apply execute_rejects with d; [assumption|].
    unfold accepts. rewrite Hexp, Hnone. simpl. by rewrite andb_false_r.
  - apply (execute_rejects uuid items sql d Hin).
    unfold accepts. rewrite Hexp, Hnone. simpl. by rewrite andb_false_r.
  - intros st Hdir Hdt. unfold bindStep. rewrite Hexp, Hdir, Hnone. simpl.
    by destruct (Param.datatype d).
Qed.

Lemma expansion_without_tokens_fails_witness :
  exists e,
    bindParameters Fixtures.uuid
      [Param.Make "ids" (Some " , ,") DtNumber DirIn None true]
      "SELECT id FROM t WHERE id IN (:ids)" = Throw e
    /\ isValidationError e.
Proof.
  apply (expansion_without_tokens_fails Fixtures.uuid _ _
           (Param.Make "ids" (Some " , ,") DtNumber DirIn None true)).
  - simpl. left. reflexivity.
  - reflexivity.
  - left. reflexivity.
Defined.

(** ** The bind compiler: output buffer sizes *)

(** C5 as stated fails on a supplied size of zero: [!maxSize] holds for
    0, so the string OUT bind is compiled with 2000, not with the 0 that
    was supplied. *)
Lemma zero_maxSize_is_not_carried :
  let d := Param.Make "msg" None DtString DirOut (Some (JsNumber.ofN 0)) false in
  Param.maxSize d = Some (JsNumber.ofN 0)
  /\ JsNumber.isNaN (JsNumber.ofN 0) = false
  /\ bindParameters Fixtures.uuid [d] "BEGIN :msg := f(); END;"
     = Ok (MkState {[ "msg" := Bind.Make BIND_OUT STRING None (Some (JsNumber.ofN 2000)) ]}
             "BEGIN :msg := f(); END;" 0)
  /\ JsNumber.ofN 2000 <> JsNumber.ofN 0.
Proof. repeat split. discriminate. Qed.

(** C5, amended. A string descriptor with direction [out] or [inout]
    and no expansion is compiled to a bind whose [maxSize] is 2000 when
    the supplied size is missing, NaN or zero, and the supplied size
    otherwise. In every compiled mapping a bind that carries a
    [maxSize] is STRING-typed and is not an IN bind, and every
    STRING-typed OUT or INOUT bind carries one. *)
Theorem string_out_binds_carry_maxSize (uuid : nat -> string) :
  (forall st d,
      Param.parseInStatement d = false ->
      Param.datatype d = DtString ->
      Param.direction d = DirOut \/ Param.direction d = DirInOut ->
      exists b,
        bindStep uuid st d
        = Ok (MkState (<[Param.name d := b]> (result st)) (query st) (drawn st))
        /\ Bind.type b = STRING
        /\ Bind.maxSize b
           = Some (match Param.maxSize d with
                   | None => JsNumber.ofN 2000
                   | Some n => if JsNumber.truthy n then n else JsNumber.ofN 2000
                   end))
  /\ (forall items sql st key b,
        bindParameters uuid items sql = Ok st ->
        result st !! key = Some b ->
        (Bind.maxSize b <> None -> Bind.type b = STRING /\ Bind.dir b <> BIND_IN)
        /\ (Bind.type b = STRING -> Bind.dir b <> BIND_IN -> Bind.maxSize b <> None)).
Proof.
  split.
  - intros st d Hexp Hdt Hdir. exists (simpleBind d). split; [|split].
    + apply bindStep_simple; [assumption|].
      unfold accepts. rewrite Hexp, Hdt. simpl. apply orb_true_r.
    + unfold simpleBind. rewrite Hdt. by destruct (Param.direction d).
    + unfold simpleBind. rewrite Hdt. simpl mapDatatype.
      rewrite ensureOutMaxSize_string.
      destruct Hdir as [-> | ->]; simpl; by destruct (Param.maxSize d).
  - intros items sql st key b Hc Hb.
    destruct (bindParameters_wellFormed uuid items sql st key b Hc Hb)
      as [_ [Hms [Hstr _]]].
    by split.
Qed.

Lemma string_out_binds_carry_maxSize_witness :
  exists b,
    bindStep Fixtures.uuid (MkState ∅ "BEGIN :msg := f(); END;" 0)
      (Param.Make "msg" None DtString DirOut None false)
    = Ok (MkState (<["msg" := b]> ∅) "BEGIN :msg := f(); END;" 0)
    /\ Bind.type b = STRING
    /\ Bind.maxSize b = Some (JsNumber.ofN 2000).
Proof.
  apply (proj1 (string_out_binds_carry_maxSize Fixtures.uuid)
           (MkState ∅ "BEGIN :msg := f(); END;" 0)
           (Param.Make "msg" None DtString DirOut None false)).
  - reflexivity.
  - reflexivity.
  - left. reflexivity.
Defined.

(** ** The bind compiler: coercion of values *)

(** C6 as stated fails: the text [abc] under datatype [number] is
    compiled without any error to an IN bind whose value is NaN, and the
    statement is executed with it. *)
Lemma unparsable_number_is_compiled :
  let d := Param.Make "n" (Some "abc") DtNumber DirIn None false in
  let binds : gmap string Bind.t :=
    {[ "n" := Bind.Make BIND_IN NUMBER (Some (ValNumber JNaN)) None ]} in
  JsNumber.ofString "abc" = JNaN
  /\ bindParameters Fixtures.uuid [d] "SELECT :n FROM dual"
     = Ok (MkState binds "SELECT :n FROM dual" 0)
  /\ List.filter isExecute
       (trace (snd (execute Fixtures.uuid Fixtures.cursorConnection
                      "SELECT :n FROM dual" [d] Fixtures.world)))
     = [EvExecute "SELECT :n FROM dual" binds].
Proof. repeat split. Qed.

(** C6, amended. For a descriptor without expansion, with direction
    [in] or [inout] and datatype [number] or [date], compilation never
    fails on the text of the value: the bind carries [Number(text)],
    which is NaN when the text is not a numeric literal, or the Date
    object built from the text; a list made of that descriptor compiles
    and the statement is executed with the bind. *)
Theorem coercion_never_rejects
    (uuid : nat -> string) (st : CompileState) (d : Param.t) :
  Param.parseInStatement d = false ->
  Param.direction d = DirIn \/ Param.direction d = DirInOut ->
  Param.datatype d = DtNumber \/ Param.datatype d = DtDate ->
  let text := valueText (Param.value d) in
  let v := match Param.datatype d with
           | DtNumber => ValNumber (JsNumber.ofString text)
           | _ => ValDate text
           end in
  bindStep uuid st d
  = Ok (MkState (<[Param.name d := simpleBind d]> (result st)) (query st) (drawn st))
  /\ Bind.val (simpleBind d) = Some v
  /\ (forall sql,
        bindParameters uuid [d] sql
        = Ok (MkState {[ Param.name d := simpleBind d ]} sql 0))
  /\ (forall sql c w,
        List.filter isExecute (trace (snd (execute uuid c sql [d] w)))
        = List.filter isExecute (trace w)
            ++ [EvExecute sql {[ Param.name d := simpleBind d ]}]).
Proof.
  intros Hexp Hdir Hdt text v.
  assert (Hacc : accepts d = true).
  { unfold accepts. rewrite Hexp.
    destruct Hdt as [-> | ->]; simpl; apply orb_true_r. }
  assert (Hone : forall sql,
             bindParameters uuid [d] sql
             = Ok (MkState {[ Param.name d := simpleBind d ]} sql 0)).
  { intros sql. unfold bindParameters. simpl.
    by rewrite bindStep_simple by assumption. }
  split; [by apply bindStep_simple|]. split; [|split].
  - unfold simpleBind, v, text.
    destruct Hdir as [-> | ->], Hdt as [-> | ->]; reflexivity.
  - exact Hone.
  - intros sql c w. rewrite execute_run, Hone.
    cbv zeta. change (query (MkState {[Param.name d := simpleBind d]} sql 0)) with sql.
    change (result (MkState {[Param.name d := simpleBind d]} sql 0))
      with ({[Param.name d := simpleBind d]} : gmap string Bind.t).
    destruct (connExecute c sql _); apply filter_isExecute_run.
Qed.

Lemma coercion_never_rejects_witness :
  bindStep Fixtures.uuid (MkState ∅ "SELECT :n FROM dual" 0)
    (Param.Make "n" (Some "12px") DtNumber DirInOut None false)
  = Ok (MkState
          (<["n" := Bind.Make BIND_INOUT NUMBER (Some (ValNumber JNaN)) None]> ∅)
          "SELECT :n FROM dual" 0).
Proof.
  apply (coercion_never_rejects Fixtures.uuid (MkState ∅ "SELECT :n FROM dual" 0)
           (Param.Make "n" (Some "12px") DtNumber DirInOut None false)).
  - reflexivity.
  - right. reflexivity.
  - left. reflexivity.
Defined.

(** C9. A descriptor without expansion, with direction [in] or [inout]
    and datatype [number], whose value is missing or the empty text is
    compiled without error to a NUMBER bind whose value is the number 0:
    the missing value becomes the empty text, and [Number] of the empty
    text is 0. *)
Theorem missing_number_is_zero
    (uuid : nat -> string) (st : CompileState) (d : Param.t) :
  Param.parseInStatement d = false ->
  Param.datatype d = DtNumber ->
  Param.direction d = DirIn \/ Param.direction d = DirInOut ->
  Param.value d = None \/ Param.value d = Some EmptyString ->
  let b := Bind.Make (match Param.direction d with
                      | DirIn => BIND_IN
                      | _ => BIND_INOUT
                      end)
             NUMBER (Some (ValNumber JsNumber.zero)) None in
  valueText (Param.value d) = EmptyString
  /\ JsNumber.ofString EmptyString = JsNumber.zero
  /\ bindStep uuid st d
     = Ok (MkState (<[Param.name d := b]> (result st)) (query st) (drawn st))
  /\ (forall sql,
        bindParameters uuid [d] sql = Ok (MkState {[ Param.name d := b ]} sql 0)).
Proof.
  intros Hexp Hdt Hdir Hval b.
  assert (Htext : valueText (Param.value d) = EmptyString).
  { by destruct Hval as [-> | ->]. }
  assert (Hacc : accepts d = true).
  { unfold accepts. rewrite Hexp, Hdt. simpl. apply orb_true_r. }
  assert (Hb : simpleBind d = b).
  { unfold simpleBind, b. rewrite Hdt, Htext.
    by destruct Hdir as [-> | ->]. }
  repeat split; try assumption.
  - by rewrite bindStep_simple, Hb by assumption.
  - intros sql. unfold bindParameters. simpl.
    by rewrite bindStep_simple, Hb by assumption.
Qed.

Lemma missing_number_is_zero_witness :
  bindParameters Fixtures.uuid [Param.Make "qty" None DtNumber DirIn None false]
    "UPDATE t SET qty = :qty"
  = Ok (MkState
          {[ "qty" := Bind.Make BIND_IN NUMBER (Some (ValNumber (JFin false 0 0))) None ]}
          "UPDATE t SET qty = :qty" 0).
Proof.
  apply (missing_number_is_zero Fixtures.uuid (MkState ∅ EmptyString 0)
           (Param.Make "qty" None DtNumber DirIn None false)).
  - reflexivity.
  - reflexivity.
  - left. reflexivity.
  - left. reflexivity.
Defined.

(** ** The bind compiler: descriptors that share a name *)






(** ** The bind compiler: IN lists *)

Section InLists.

Import JsString StringFacts.

Variable uuid : nat -> string.

Lemma noDollar_app a b : noDollar (a +:+ b) = noDollar a && noDollar b.
Proof. apply allChars_app. Qed.

Lemma noDollar_generatedNames name n k :
  noDollar name = true ->
  Forall (fun i => isUUID (uuid i) = true) (List.seq n k) ->
  Forall (fun nm => noDollar nm = true) (generatedNames uuid name n k).
Proof.
  intros Hname Hwf. unfold generatedNames. apply Forall_fmap.
  eapply Forall_impl; [exact Hwf|]. intros i Hi. simpl.
  rewrite noDollar_app, Hname, uniqueId_mapChars. simpl.
  by apply noDollar_mapChars_dash, isUUID_chars.
Qed.

Lemma noDollar_concat names :
  Forall (fun nm => noDollar nm = true) names ->
  noDollar (String.concat "," (List.map (fun nm => ":" +:+ nm) names)) = true.
Proof.
  induction 1 as [|nm names Hnm Hrest IH]; [reflexivity|].
  destruct names as [|nm' names].
  - simpl. by rewrite noDollar_app, Hnm.
  - change (String.concat "," (List.map (fun x => ":" +:+ x) (nm :: nm' :: names)))
      with ((":" +:+ nm) +:+ "," +:+
            String.concat "," (List.map (fun x => ":" +:+ x) (nm' :: names))).
    by rewrite !noDollar_app, Hnm, IH.
Qed.

Lemma noDollar_placeholderList names :
  Forall (fun nm => noDollar nm = true) names ->
  noDollar (placeholderList names) = true.
Proof.
  intros Hall. unfold placeholderList.
  by rewrite !noDollar_app, noDollar_concat.
Qed.

(** The replacement text itself contains [:name]. *)
Lemma placeholderList_includes name n k :
  k <> 0 ->
  includes (":" +:+ name) (placeholderList (generatedNames uuid name n k)) = true.
Proof.
  intros Hk. destruct k as [|k]; [congruence|].
  apply includes_true. unfold generatedNames, placeholderList.
  simpl List.seq. simpl List.map.
  destruct (List.map (fun nm => ":" +:+ nm)
              (List.map (fun i => name +:+ uniqueId uuid i) (List.seq (S n) k)))
    as [|p ps].
  - exists "(", (uniqueId uuid n +:+ ")"). simpl String.concat.
    by rewrite !append_assoc.
  - exists "(", (uniqueId uuid n +:+ "," +:+ String.concat "," (p :: ps) +:+ ")").
    change (String.concat "," ((":" +:+ name +:+ uniqueId uuid n) :: p :: ps))
      with ((":" +:+ name +:+ uniqueId uuid n) +:+ "," +:+ String.concat "," (p :: ps)).
    by rewrite !append_assoc.
Qed.

Lemma Replaced_keeps_included pat rep s s' :
  Replaced pat rep s s' ->
  includes pat rep = true -> includes pat s = true -> includes pat s' = true.
Proof.
  intros Hrep Hin Hs. destruct Hrep as [s Hnone | pre post post' _ _]; [congruence|].
  apply includes_true in Hin as [a [b ->]]. apply includes_true.
  exists (pre +:+ a), (b +:+ post'). by rewrite !append_assoc.
Qed.

Lemma bindFold_simple_keeps_query items st st' :
  Forall (fun d => Param.parseInStatement d = false) items ->
  bindFold uuid items st = Ok st' ->
  query st' = query st /\ drawn st' = drawn st.
Proof.
  revert st. induction items as [|d items IH]; intros st Hall Hfold; simpl in Hfold.
  - by injection Hfold as <-.
  - inversion Hall as [|? ? Hd Hrest]; subst.
    destruct (bindStep uuid st d) as [st1|e] eqn:Hstep; [|discriminate].
    assert (Hacc : accepts d = true) by (apply (bindStep_accepts uuid st); eauto).
    rewrite bindStep_simple in Hstep by assumption. injection Hstep as <-.
    by apply (IH _ Hrest) in Hfold.
Qed.

(** When one descriptor of an accepted list expands, the final SQL is
    the template with the occurrences of its placeholder replaced. *)
Lemma bindParameters_one_expansion pre d post sql :
  Forall (fun d => Param.parseInStatement d = false) (pre ++ post) ->
  Forall (fun d => accepts d = true) (pre ++ d :: post) ->
  Param.parseInStatement d = true ->
  let names :=
    generatedNames uuid (Param.name d) 0 (List.length (valList (Param.value d))) in
  exists st,
    bindParameters uuid (pre ++ d :: post) sql = Ok st
    /\ query st = replaceAll sql (":" +:+ Param.name d) (placeholderList names).
Proof.
  intros Hsimple Hall Hexp names.
  apply Forall_app in Hsimple as [Hpre Hpost].
  apply Forall_app in Hall as [Hpre' Hrest].
  inversion Hrest as [|? ? Hd Hpost']; subst.
  destruct (bindFold_accepts uuid pre (MkState ∅ sql 0) Hpre') as [st1 Hst1].
  destruct (bindFold_simple_keeps_query pre _ st1 Hpre Hst1) as [Hq1 Hd1].
  simpl in Hq1, Hd1.
  pose proof (bindStep_expand uuid st1 d Hexp Hd) as Hstep.
  cbv zeta in Hstep. rewrite Hq1, Hd1 in Hstep. fold names in Hstep.
  match type of Hstep with _ = Ok ?st2 =>
    destruct (bindFold_accepts uuid post st2 Hpost') as [st Hst];
    destruct (bindFold_simple_keeps_query post st2 st Hpost Hst) as [Hq _]
  end.
  exists st. split; [|exact Hq].
  unfold bindParameters. rewrite bindFold_app, Hst1. simpl. by rewrite Hstep.
Qed.

End InLists.

(** C2 as stated fails on its last clause: in the example of the
    specification the generated placeholders begin with [:ids], so the
    text [:ids] is still found in the compiled SQL. *)
Lemma expanded_sql_still_includes_name :
  let d := Param.Make "ids" (Some "1, 2, 3") DtNumber DirIn None true in
  exists st,
    bindParameters Fixtures.uuid [d] "SELECT id FROM t WHERE id IN (:ids)" = Ok st
    /\ query st
       = "SELECT id FROM t WHERE id IN ((:ids3b241101_e2bb_4255_8caf_4136c566a962,:ids9f0c1d2e_5a6b_4c7d_8e9f_0a1b2c3d4e5f,:ids0e1f2a3b_4c5d_4e6f_9a8b_7c6d5e4f3a2b))"
    /\ JsString.includes ":ids" (query st) = true.
Proof. eexists. split; [reflexivity|]. split; reflexivity. Qed.

(** C2, amended. For an expanding descriptor with direction [in], a
    datatype other than cursor, at least one token and a name without
    a dollar sign, and when the UUIDs drawn are well formed and
    pairwise different: the step generates one name per token, the
    names are pairwise different, each is bound to an IN bind of the
    wire type holding its token coerced, no other key changes, and the
    SQL text after the step is the text before it with every occurrence
    of [:name], left to right without overlap, replaced by the
    parenthesised comma-separated list of the generated placeholders.
    Each placeholder begins with [:name], so [:name] is still found in
    the text whenever it was found before. *)
Theorem expansion_binds_one_name_per_token
    (uuid : nat -> string) (st : CompileState) (d : Param.t) :
  let tokens := valList (Param.value d) in
  let names := generatedNames uuid (Param.name d) (drawn st) (List.length tokens) in
  let placeholder := ":" +:+ Param.name d in
  Param.parseInStatement d = true ->
  Param.direction d = DirIn ->
  Param.datatype d <> DtCursor ->
  tokens <> [] ->
  noDollar (Param.name d) = true ->
  Forall (fun i => isUUID (uuid i) = true) (List.seq (drawn st) (List.length tokens)) ->
  NoDup (List.map uuid (List.seq (drawn st) (List.length tokens))) ->
  exists st',
    bindStep uuid st d = Ok st'
    /\ List.length names = List.length tokens
    /\ NoDup names
    /\ (forall i nm token,
          names !! i = Some nm -> tokens !! i = Some token ->
          result st' !! nm = Some (tokenBind (Param.datatype d) token))
    /\ (forall key, key ∉ names -> result st' !! key = result st !! key)
    /\ query st' = JsString.replaceAll (query st) placeholder (placeholderList names)
    /\ Replaced placeholder (placeholderList names) (query st) (query st')
    /\ JsString.includes placeholder (placeholderList names) = true
    /\ (JsString.includes placeholder (query st) = true ->
        JsString.includes placeholder (query st') = true)
    /\ drawn st' = drawn st + List.length tokens.
Proof.
  intros tokens names placeholder Hexp Hdir Hdt Htok Hname Hwf Hnd.
  assert (Hacc : accepts d = true).
  { unfold accepts. rewrite Hexp, Hdir. fold tokens.
    destruct tokens; [congruence|]. simpl.
    by destruct (Param.datatype d). }
  assert (Hlen : List.length names = List.length tokens)
    by apply length_generatedNames.
  assert (Hnames : NoDup names) by (by apply generatedNames_NoDup).
  assert (Hrep : Replaced placeholder (placeholderList names) (query st)
                   (JsString.replaceAll (query st) placeholder (placeholderList names))).
  { apply StringFacts.replaceAll_Replaced; [discriminate|].
    by apply noDollar_placeholderList, noDollar_generatedNames. }
  assert (Hincl : JsString.includes placeholder (placeholderList names) = true).
  { apply placeholderList_includes. destruct tokens; [congruence | discriminate]. }
  eexists. split; [by apply bindStep_expand|]. simpl.
  fold tokens. fold names. fold placeholder.
  repeat split; try assumption.
  - intros i nm token Hi Htoken.
    apply (lookup_insertAll_at _ _ i).
    + rewrite fst_zip; [assumption|]. rewrite List.length_map. lia.
    + apply lookup_zip_with_Some. exists nm, (tokenBind (Param.datatype d) token).
      repeat split; [assumption|].
      change (List.map (tokenBind (Param.datatype d)) tokens !! i)
        with ((tokenBind (Param.datatype d) <$> tokens) !! i).
      by rewrite list_lookup_fmap, Htoken.
  - intros key Hkey. apply lookup_insertAll_notin.
    rewrite fst_zip; [assumption|]. rewrite List.length_map. lia.
  - intros Hbefore. eapply Replaced_keeps_included; eauto.
Qed.

Lemma expansion_binds_one_name_per_token_witness :
  exists st',
    bindStep Fixtures.uuid (MkState ∅ "SELECT id FROM t WHERE id IN (:ids)" 0)
      (Param.Make "ids" (Some "1, 2, 3") DtNumber DirIn None true) = Ok st'
    /\ NoDup (generatedNames Fixtures.uuid "ids" 0 3)
    /\ result st' !! "ids9f0c1d2e_5a6b_4c7d_8e9f_0a1b2c3d4e5f"
       = Some (Bind.Make BIND_IN NUMBER (Some (ValNumber (JFin false 2 0))) None).
Proof.
  destruct (expansion_binds_one_name_per_token Fixtures.uuid
              (MkState ∅ "SELECT id FROM t WHERE id IN (:ids)" 0)
              (Param.Make "ids" (Some "1, 2, 3") DtNumber DirIn None true))
    as [st' [Hstep [_ [Hnd [Hbind _]]]]].
  - reflexivity.
  - reflexivity.
  - discriminate.
  - discriminate.
  - reflexivity.
  - repeat constructor.
  - apply (bool_decide_unpack _). vm_compute. reflexivity.
  - exists st'. split; [exact Hstep|]. split; [exact Hnd|].
    apply (Hbind 1 _ "2"); reflexivity.
Defined.

(** ** The result normaliser *)

Arguments maxRows : simpl never.

Section Reads.

Lemma readResultSet_inv h w v w' :
  readResultSet h w = (Ok v, w') ->
  exists rs,
    resultSets w !! h = Some rs
    /\ rsClosed rs = false
    /\ v = JArr (take maxRows (rsRows rs))
    /\ resultSets w'
       = <[h := MkResultSet (List.skipn maxRows (rsRows rs)) true
                  (rsGetRowsError rs) (rsCloseError rs) (rsEntries rs)]> (resultSets w)
    /\ trace w' = trace w ++ [EvGetRows h maxRows; EvResultSetClose h].
Proof.
  unfold readResultSet, bind, getRows, closeResultSet, ret.
  destruct (resultSets w !! h) as [rs|] eqn:Hrs; [|discriminate].
  destruct (rsClosed rs) eqn:Hclosed; [discriminate|].
  destruct (rsGetRowsError rs) eqn:Hget; [discriminate|].
  cbn [resultSets trace record]. rewrite lookup_insert_eq.
  cbn [rsClosed rsCloseError].
  destruct (rsCloseError rs) eqn:Hclose; [discriminate|].
  intros [= <- <-]. exists rs. repeat split; try assumption.
  - cbn [resultSets rsRows rsGetRowsError rsCloseError rsEntries].
    by rewrite insert_insert_eq, Hget, Hclose.
  - cbn [trace]. by rewrite <- app_assoc.
Qed.

(** The two parts of the callback are [readResultSet] cut at its first
    [await]. *)
Lemma readResultSet_stages h w :
  readResultSet h w
  = finishItem (fst (startItem (JResultSet h) w)) (snd (startItem (JResultSet h) w)).
Proof.
  unfold readResultSet, startItem, finishItem, bind.
  by destruct (getRows h maxRows w) as [[rows|e] w1].
Qed.

End Reads.

Section Shapes.

Lemma entryNormalized_keys w entries entries' :
  Forall2 (entryNormalized w) entries entries' -> entries'.*1 = entries.*1.
Proof.
  induction 1 as [|kv kv' entries entries' [Hk _] _ IH]; [reflexivity|].
  rewrite !fmap_cons. by f_equal.
Qed.

Lemma setProperty_fresh k v o :
  k ∉ o.*1 -> setProperty k v o = o ++ [(k, v)].
Proof.
  induction o as [|[k' v'] o IH]; intros Hk; [reflexivity|].
  rewrite fmap_cons, not_elem_of_cons in Hk. destruct Hk as [Hne Hk].
  simpl in *. destruct (String.eqb k' k) eqn:Ek.
  - apply String.eqb_eq in Ek. congruence.
  - by rewrite IH.
Qed.

Lemma fold_setProperty_fresh entries acc :
  NoDup (acc.*1 ++ entries.*1) ->
  List.fold_left (fun o kv => setProperty (fst kv) (snd kv) o) entries acc
  = acc ++ entries.
Proof.
  revert acc. induction entries as [|[k v] entries IH]; intros acc Hnd.
  - by rewrite app_nil_r.
  - simpl. rewrite fmap_cons in Hnd. simpl in Hnd.
    assert (Hk : k ∉ acc.*1).
    { apply NoDup_app in Hnd as [_ [Hdisj _]]. intros Hin.
      apply (Hdisj k Hin). by left. }
    rewrite setProperty_fresh by assumption.
    rewrite IH.
    + by rewrite <- app_assoc.
    + rewrite fmap_app. simpl. by rewrite <- app_assoc.
Qed.

(** On entries with pairwise different keys [Object.fromEntries]
    gives back the entries. *)
Lemma fromEntries_NoDup entries : NoDup entries.*1 -> fromEntries entries = entries.
Proof. intros Hnd. unfold fromEntries. by rewrite fold_setProperty_fresh. Qed.

End Shapes.

Section Driver.

Lemma getRows_trace h n w : trace (snd (getRows h n w)) = trace w ++ [EvGetRows h n].
Proof.
  unfold getRows. destruct (resultSets w !! h) as [rs|]; [|reflexivity].
  destruct (rsClosed rs); [reflexivity|]. by destruct (rsGetRowsError rs).
Qed.

Lemma getRows_frame h n w h' :
  h' <> h -> resultSets (snd (getRows h n w)) !! h' = resultSets w !! h'.
Proof.
  intros Hne. unfold getRows. destruct (resultSets w !! h) as [rs|]; [|reflexivity].
  destruct (rsClosed rs); [reflexivity|].
  destruct (rsGetRowsError rs); [reflexivity|].
  cbn [snd resultSets record]. by rewrite lookup_insert_ne.
Qed.

Lemma getRows_local h n w w' :
  resultSets w' !! h = resultSets w !! h ->
  fst (getRows h n w') = fst (getRows h n w)
  /\ resultSets (snd (getRows h n w')) !! h = resultSets (snd (getRows h n w)) !! h.
Proof.
  intros Heq. unfold getRows. rewrite Heq.
  destruct (resultSets w !! h) as [rs|] eqn:Hrs; [|split; [reflexivity | cbn; congruence]].
  destruct (rsClosed rs); [split; [reflexivity | cbn; congruence]|].
  destruct (rsGetRowsError rs); [split; [reflexivity | cbn; congruence]|].
  cbn [fst snd resultSets record]. by rewrite !lookup_insert_eq.
Qed.

Lemma closeResultSet_trace h w :
  trace (snd (closeResultSet h w)) = trace w ++ [EvResultSetClose h].
Proof.
  unfold closeResultSet. destruct (resultSets w !! h) as [rs|]; [|reflexivity].
  destruct (rsClosed rs); [reflexivity|]. by destruct (rsCloseError rs).
Qed.

Lemma closeResultSet_frame h w h' :
  h' <> h -> resultSets (snd (closeResultSet h w)) !! h' = resultSets w !! h'.
Proof.
  intros Hne. unfold closeResultSet. destruct (resultSets w !! h) as [rs|]; [|reflexivity].
  destruct (rsClosed rs); [reflexivity|].
  destruct (rsCloseError rs); [reflexivity|].
  cbn [snd resultSets record]. by rewrite lookup_insert_ne.
Qed.

Lemma closeResultSet_local h w w' :
  resultSets w' !! h = resultSets w !! h ->
  fst (closeResultSet h w') = fst (closeResultSet h w)
  /\ resultSets (snd (closeResultSet h w')) !! h
     = resultSets (snd (closeResultSet h w)) !! h.
Proof.
  intros Heq. unfold closeResultSet. rewrite Heq.
  destruct (resultSets w !! h) as [rs|] eqn:Hrs; [|split; [reflexivity | cbn; congruence]].
  destruct (rsClosed rs); [split; [reflexivity | cbn; congruence]|].
  destruct (rsCloseError rs); [split; [reflexivity | cbn; congruence]|].
  cbn [fst snd resultSets record]. by rewrite !lookup_insert_eq.
Qed.

(** A close that succeeds finds the result set open and leaves it
    closed; no call opens a result set again. *)
Lemma closeResultSet_ok h w u w' :
  closeResultSet h w = (Ok u, w') -> openIn w h /\ closedIn w' h.
Proof.
  unfold closeResultSet, openIn, closedIn.
  destruct (resultSets w !! h) as [rs|] eqn:Hrs; [|discriminate].
  destruct (rsClosed rs) eqn:Hcl; [discriminate|].
  destruct (rsCloseError rs); [discriminate|].
  intros [= <- <-]. split; [by exists rs|].
  eexists. cbn [resultSets]. rewrite lookup_insert_eq. by split.
Qed.

Lemma closeResultSet_closed h w h' :
  closedIn w h' -> closedIn (snd (closeResultSet h w)) h'.
Proof.
  intros (rs' & Hrs' & Hcl'). unfold closedIn.
  destruct (decide (h' = h)) as [-> | Hne].
  - unfold closeResultSet. rewrite Hrs', Hcl'. by exists rs'.
  - exists rs'. by rewrite closeResultSet_frame.
Qed.

Lemma closeResultSet_open h w h' :
  openIn (snd (closeResultSet h w)) h' -> openIn w h'.
Proof.
  intros (rs' & Hrs' & Hop'). unfold openIn.
  destruct (decide (h' = h)) as [-> | Hne].
  - revert Hrs'. unfold closeResultSet.
    destruct (resultSets w !! h) as [rs|] eqn:Hrs;
      [|cbn [snd resultSets record]; congruence].
    destruct (rsClosed rs) eqn:Hcl.
    { cbn [snd resultSets record]. intros. exists rs'. split; congruence. }
    destruct (rsCloseError rs).
    { cbn [snd resultSets record]. intros. exists rs. split; congruence. }
    cbn [snd resultSets record]. rewrite lookup_insert_eq. intros [= <-]. discriminate Hop'.
  - exists rs'. by rewrite <- (closeResultSet_frame h w h').
Qed.

End Driver.


Section Unfolding.

Lemma startAll_cons {A P} (start : A -> World -> P * World) x l w :
  startAll start (x :: l) w
  = (fst (start x w) :: fst (startAll start l (snd (start x w))),
     snd (startAll start l (snd (start x w)))).
Proof.
  simpl. destruct (start x w) as [p w1]. simpl. by destruct (startAll start l w1).
Qed.

Lemma finishAll_cons {P B} (finish : P -> M B) p ps w :
  finishAll finish (p :: ps) w
  = (fst (finish p w) :: fst (finishAll finish ps (snd (finish p w))),
     snd (finishAll finish ps (snd (finish p w)))).
Proof.
  simpl. destruct (finish p w) as [r w1]. simpl. by destruct (finishAll finish ps w1).
Qed.

Lemma promiseAll_run {A P B} (start : A -> World -> P * World) (finish : P -> M B)
    (failure : P -> option JsError) l w :
  promiseAll start finish failure l w
  = (settle failure (fst (startAll start l w))
       (fst (finishAll finish (fst (startAll start l w)) (snd (startAll start l w)))),
     snd (finishAll finish (fst (startAll start l w)) (snd (startAll start l w)))).
Proof.
  unfold promiseAll. destruct (startAll start l w) as [ps w1]. cbn [fst snd].
  by destruct (finishAll finish ps w1).
Qed.

Lemma settle_ok {P B} (failure : P -> option JsError) ps (rs : list (Outcome B)) arr :
  settle failure ps rs = Ok arr ->
  firstFailure failure ps = None /\ collect rs = Ok arr.
Proof. unfold settle. by destruct (firstFailure failure ps). Qed.

Lemma startItem_handle h w :
  startItem (JResultSet h) w
  = (Fetching h (fst (getRows h maxRows w)), snd (getRows h maxRows w)).
Proof. unfold startItem. by destruct (getRows h maxRows w). Qed.

Lemma finishItem_fetched h rows w :
  finishItem (Fetching h (Ok rows)) w
  = (match fst (closeResultSet h w) with
     | Ok _ => Ok rows
     | Throw e => Throw e
     end, snd (closeResultSet h w)).
Proof.
  unfold finishItem, bind, ret. by destruct (closeResultSet h w) as [[u|e] w'].
Qed.

Lemma itemHandles_cons v items :
  itemHandles (v :: items) = itemHandles [v] ++ itemHandles items.
Proof. unfold itemHandles. simpl. by rewrite app_nil_r. Qed.

Lemma itemHandles_app l1 l2 : itemHandles (l1 ++ l2) = itemHandles l1 ++ itemHandles l2.
Proof. apply List.flat_map_app. Qed.

Lemma okHandles_cons p ps : okHandles (p :: ps) = okHandles [p] ++ okHandles ps.
Proof. unfold okHandles. simpl. by rewrite app_nil_r. Qed.

End Unfolding.

Section Settling.

Lemma released_nil w : released [] w w.
Proof.
  unfold released. split; [constructor|]. split; [constructor|]. split; [constructor|].
  split; [trivial | reflexivity].
Qed.

Lemma released_app hs1 hs2 w w1 w2 :
  released hs1 w w1 -> released hs2 w1 w2 -> released (hs1 ++ hs2) w w2.
Proof.
  intros (Hnd1 & Hopen1 & Hcl1 & Hmono1 & Hf1) (Hnd2 & Hopen2 & Hcl2 & Hmono2 & Hf2).
  rewrite Forall_forall in Hopen1, Hcl1, Hopen2, Hcl2.
  unfold released. split; [|split; [|split; [|split]]].
  - apply NoDup_app. split; [assumption|]. split; [|assumption].
    intros h Hh1 Hh2. destruct (Hopen2 h Hh2) as (rs & Hrs & Hop).
    destruct (Hcl1 h Hh1) as (rs' & Hrs' & Hcl). congruence.
  - apply Forall_app. split; apply Forall_forall; intros h Hh; [by apply Hopen1|].
    destruct (Hopen2 h Hh) as (rs & Hrs & Hop).
    destruct (decide (h ∈ hs1)) as [Hin | Hout].
    + destruct (Hcl1 h Hin) as (rs' & Hrs' & Hcl). congruence.
    + exists rs. by rewrite <- Hf1.
  - apply Forall_app. split; apply Forall_forall; intros h Hh; [|by apply Hcl2].
    by apply Hmono2, Hcl1.
  - intros h Hc. by apply Hmono2, Hmono1.
  - intros h Hh. apply not_elem_of_app in Hh as [Hh1 Hh2]. by rewrite Hf2, Hf1.
Qed.

Lemma closeResultSet_released h w u w' :
  closeResultSet h w = (Ok u, w') -> released [h] w w'.
Proof.
  intros Hrun. destruct (closeResultSet_ok h w u w' Hrun) as [Hop Hcl].
  assert (Hw' : w' = snd (closeResultSet h w)) by (by rewrite Hrun).
  unfold released. split; [apply NoDup_singleton|].
  split; [by apply Forall_singleton|]. split; [by apply Forall_singleton|]. split.
  - intros h' Hc. rewrite Hw'. by apply closeResultSet_closed.
  - intros h' Hh'. rewrite Hw'. apply closeResultSet_frame.
    intros ->. apply Hh'. by left.
Qed.

Lemma collect_cons_ok {B} (r : Outcome B) rs arr :
  collect (r :: rs) = Ok arr ->
  exists b bs, r = Ok b /\ collect rs = Ok bs /\ arr = b :: bs.
Proof.
  simpl. destruct r as [b|e]; [|discriminate].
  destruct (collect rs) as [bs|e]; [|discriminate].
  intros [= <-]. by exists b, bs.
Qed.

Lemma collect_ok {B} (bs : list B) : collect (Ok <$> bs) = Ok bs.
Proof.
  induction bs as [|b bs IH]; [reflexivity|].
  rewrite fmap_cons. cbn [collect]. by rewrite IH.
Qed.

Lemma collect_first_throw {B} (bs : list B) e rs :
  collect ((Ok <$> bs) ++ Throw e :: rs) = Throw e.
Proof.
  induction bs as [|b bs IH]; [reflexivity|].
  rewrite fmap_cons, <- app_comm_cons. cbn [collect]. by rewrite IH.
Qed.

Lemma firstFailure_app {P} (failure : P -> option JsError) ps1 ps2 :
  firstFailure failure (ps1 ++ ps2)
  = match firstFailure failure ps1 with
    | Some e => Some e
    | None => firstFailure failure ps2
    end.
Proof.
  induction ps1 as [|p ps1 IH]; [reflexivity|].
  simpl. by destruct (failure p).
Qed.

Lemma getRows_ok h n w rows :
  fst (getRows h n w) = Ok rows ->
  exists rs,
    resultSets w !! h = Some rs
    /\ rsClosed rs = false
    /\ rsGetRowsError rs = None
    /\ rows = JArr (take n (rsRows rs))
    /\ resultSets (snd (getRows h n w)) !! h
       = Some (MkResultSet (List.skipn n (rsRows rs)) false
                 (rsGetRowsError rs) (rsCloseError rs) (rsEntries rs)).
Proof.
  unfold getRows. destruct (resultSets w !! h) as [rs|] eqn:Hrs; [|discriminate].
  destruct (rsClosed rs) eqn:Hcl; [discriminate|].
  destruct (rsGetRowsError rs) eqn:Herr; [discriminate|].
  cbn [fst snd resultSets]. intros [= <-]. exists rs.
  rewrite lookup_insert_eq, Herr. by repeat split.
Qed.

Lemma getRows_healthy h n w :
  healthy w h ->
  exists rs,
    resultSets w !! h = Some rs
    /\ fst (getRows h n w) = Ok (JArr (take n (rsRows rs)))
    /\ resultSets (snd (getRows h n w)) !! h
       = Some (MkResultSet (List.skipn n (rsRows rs)) false None None (rsEntries rs)).
Proof.
  intros (rs & Hrs & Hcl & Hget & Hclose). exists rs. split; [assumption|].
  unfold getRows. rewrite Hrs, Hcl, Hget. cbn [fst snd resultSets].
  rewrite lookup_insert_eq. by rewrite ?Hget, ?Hclose.
Qed.


Lemma firstFailure_none {P} (failure : P -> option JsError) ps :
  Forall (fun p => failure p = None) ps -> firstFailure failure ps = None.
Proof. induction 1 as [|p ps Hp _ IH]; [reflexivity|]. simpl. by rewrite Hp. Qed.

Lemma all_ok {B} (rs : list (Outcome B)) :
  Forall (fun r => exists b, r = Ok b) rs -> exists bs, rs = Ok <$> bs.
Proof.
  induction 1 as [|r rs [b ->] _ [bs ->]]; [by exists []|]. by exists (b :: bs).
Qed.

Lemma closeResultSet_healthy h w rs :
  resultSets w !! h = Some rs -> rsClosed rs = false -> rsCloseError rs = None ->
  fst (closeResultSet h w) = Ok tt.
Proof. intros Hrs Hcl Herr. unfold closeResultSet. by rewrite Hrs, Hcl, Herr. Qed.

End Settling.


(** The two parts of [Promise.all], for any callback whose first part
    calls [getRows] on the handles [handles x] and whose second part
    calls [close] on the handles [closing p]. *)
Section Callbacks.

Context {A P B : Type}.
Variable start : A -> World -> P * World.
Variable finish : P -> M B.
Variable handles : A -> list nat.
Variable closing : P -> list nat.

Hypothesis start_frame :
  forall x w,
    trace (snd (start x w)) = trace w ++ fetchEvents (handles x)
    /\ (forall h, h ∉ handles x -> resultSets (snd (start x w)) !! h = resultSets w !! h).

Hypothesis start_alone :
  forall w0 x w,
    NoDup (handles x) ->
    (forall h, h ∈ handles x -> resultSets w !! h = resultSets w0 !! h) ->
    fst (start x w) = fst (start x w0)
    /\ (forall h, h ∈ handles x ->
          resultSets (snd (start x w)) !! h
          = resultSets (snd (getRows h maxRows w0)) !! h).

Hypothesis finish_frame :
  forall p w,
    trace (snd (finish p w)) = trace w ++ releaseEvents (closing p)
    /\ (forall h, h ∉ closing p -> resultSets (snd (finish p w)) !! h = resultSets w !! h).

Hypothesis finish_alone :
  forall w0 p w,
    NoDup (closing p) ->
    (forall h, h ∈ closing p -> resultSets w !! h = resultSets w0 !! h) ->
    fst (finish p w) = fst (finish p w0)
    /\ (forall h, h ∈ closing p ->
          resultSets (snd (finish p w)) !! h
          = resultSets (snd (closeResultSet h w0)) !! h).

Hypothesis finish_ok :
  forall p w b, fst (finish p w) = Ok b -> released (closing p) w (snd (finish p w)).

Lemma startAll_frame l w :
  trace (snd (startAll start l w)) = trace w ++ fetchEvents (List.flat_map handles l)
  /\ (forall h, h ∉ List.flat_map handles l ->
        resultSets (snd (startAll start l w)) !! h = resultSets w !! h).
Proof.
  revert w. induction l as [|x l IH]; intros w.
  - simpl. by rewrite app_nil_r.
  - rewrite startAll_cons. cbn [fst snd List.flat_map].
    destruct (IH (snd (start x w))) as (Htr & Hfr).
    destruct (start_frame x w) as [Htr0 Hfr0]. split.
    + rewrite Htr, Htr0. unfold fetchEvents. by rewrite fmap_app, app_assoc.
    + intros h Hh. apply not_elem_of_app in Hh as [Hh1 Hh2]. by rewrite Hfr, Hfr0.
Qed.

Lemma startAll_alone w0 l :
  forall w,
    NoDup (List.flat_map handles l) ->
    (forall h, h ∈ List.flat_map handles l -> resultSets w !! h = resultSets w0 !! h) ->
    fst (startAll start l w) = (fun x => fst (start x w0)) <$> l
    /\ (forall h, h ∈ List.flat_map handles l ->
          resultSets (snd (startAll start l w)) !! h
          = resultSets (snd (getRows h maxRows w0)) !! h).
Proof.
  induction l as [|x l IH]; intros w Hnd Hsame.
  - split; [reflexivity|]. intros h Hh. by apply elem_of_nil in Hh.
  - rewrite startAll_cons. cbn [fst snd List.flat_map] in *. rewrite fmap_cons.
    apply NoDup_app in Hnd as (Hnd0 & Hdisj & Hnd').
    destruct (start_alone w0 x w Hnd0) as [Hp Hst0].
    { intros h Hh. apply Hsame, elem_of_app. by left. }
    destruct (start_frame x w) as [_ Hfr0].
    destruct (IH (snd (start x w)) Hnd') as [Hps Hst].
    { intros h Hh. rewrite Hfr0.
      - apply Hsame, elem_of_app. by right.
      - intros Hin. by apply (Hdisj h). }
    split; [by rewrite Hps, Hp|].
    intros h Hh. apply elem_of_app in Hh as [Hh | Hh].
    + destruct (startAll_frame l (snd (start x w))) as [_ Hfr].
      rewrite Hfr; [by apply Hst0|]. intros Hin. by apply (Hdisj h).
    + by apply Hst.
Qed.

Lemma finishAll_frame ps w :
  trace (snd (finishAll finish ps w)) = trace w ++ releaseEvents (List.flat_map closing ps)
  /\ (forall h, h ∉ List.flat_map closing ps ->
        resultSets (snd (finishAll finish ps w)) !! h = resultSets w !! h).
Proof.
  revert w. induction ps as [|p ps IH]; intros w.
  - simpl. by rewrite app_nil_r.
  - rewrite finishAll_cons. cbn [fst snd List.flat_map].
    destruct (IH (snd (finish p w))) as (Htr & Hfr).
    destruct (finish_frame p w) as [Htr0 Hfr0]. split.
    + rewrite Htr, Htr0. unfold releaseEvents. by rewrite fmap_app, app_assoc.
    + intros h Hh. apply not_elem_of_app in Hh as [Hh1 Hh2]. by rewrite Hfr, Hfr0.
Qed.

Lemma finishAll_alone w0 ps :
  forall w,
    NoDup (List.flat_map closing ps) ->
    (forall h, h ∈ List.flat_map closing ps -> resultSets w !! h = resultSets w0 !! h) ->
    fst (finishAll finish ps w) = (fun p => fst (finish p w0)) <$> ps
    /\ (forall h, h ∈ List.flat_map closing ps ->
          resultSets (snd (finishAll finish ps w)) !! h
          = resultSets (snd (closeResultSet h w0)) !! h).
Proof.
  induction ps as [|p ps IH]; intros w Hnd Hsame.
  - split; [reflexivity|]. intros h Hh. by apply elem_of_nil in Hh.
  - rewrite finishAll_cons. cbn [fst snd List.flat_map] in *. rewrite fmap_cons.
    apply NoDup_app in Hnd as (Hnd0 & Hdisj & Hnd').
    destruct (finish_alone w0 p w Hnd0) as [Hp Hst0].
    { intros h Hh. apply Hsame, elem_of_app. by left. }
    destruct (finish_frame p w) as [_ Hfr0].
    destruct (IH (snd (finish p w)) Hnd') as [Hps Hst].
    { intros h Hh. rewrite Hfr0.
      - apply Hsame, elem_of_app. by right.
      - intros Hin. by apply (Hdisj h). }
    split; [by rewrite Hps, Hp|].
    intros h Hh. apply elem_of_app in Hh as [Hh | Hh].
    + destruct (finishAll_frame ps (snd (finish p w))) as [_ Hfr].
      rewrite Hfr; [by apply Hst0|]. intros Hin. by apply (Hdisj h).
    + by apply Hst.
Qed.

Lemma finishAll_ok ps :
  forall w bs,
    collect (fst (finishAll finish ps w)) = Ok bs ->
    released (List.flat_map closing ps) w (snd (finishAll finish ps w)).
Proof.
  induction ps as [|p ps IH]; intros w bs Hall.
  - apply released_nil.
  - rewrite finishAll_cons in Hall |- *. cbn [fst snd List.flat_map] in Hall |- *.
    apply collect_cons_ok in Hall as (b & bs' & Hb & Hbs & ->).
    eapply released_app; [by eapply finish_ok | by eapply IH].
Qed.

End Callbacks.

(** *** Callbacks over array elements *)

Section Items.

Lemma item_start_frame v w :
  trace (snd (startItem v w))
  = trace w ++ fetchEvents (match v with JResultSet h => [h] | _ => [] end)
  /\ (forall h, h ∉ match v with JResultSet h => [h] | _ => [] end ->
        resultSets (snd (startItem v w)) !! h = resultSets w !! h).
Proof.
  destruct v; try (split; [simpl; by rewrite app_nil_r | reflexivity]).
  rewrite startItem_handle. cbn [snd]. split; [apply getRows_trace|].
  intros h' Hh'. apply getRows_frame. intros ->. apply Hh'. by left.
Qed.

Lemma item_start_alone w0 v w :
  NoDup (match v with JResultSet h => [h] | _ => [] end) ->
  (forall h, h ∈ match v with JResultSet h => [h] | _ => [] end ->
     resultSets w !! h = resultSets w0 !! h) ->
  fst (startItem v w) = fst (startItem v w0)
  /\ (forall h, h ∈ match v with JResultSet h => [h] | _ => [] end ->
        resultSets (snd (startItem v w)) !! h
        = resultSets (snd (getRows h maxRows w0)) !! h).
Proof.
  intros _ Hsame.
  destruct v; try (split; [reflexivity | intros h' Hh'; by apply elem_of_nil in Hh']).
  rewrite !startItem_handle. cbn [fst snd].
  destruct (getRows_local h maxRows w0 w) as [Hans Hstate]; [apply Hsame; by left|].
  split; [by rewrite Hans|].
  intros h' Hh'. by apply list_elem_of_singleton in Hh' as ->.
Qed.

Lemma item_finish_frame p w :
  trace (snd (finishItem p w))
  = trace w ++ releaseEvents (match p with Fetching h (Ok _) => [h] | _ => [] end)
  /\ (forall h, h ∉ match p with Fetching h (Ok _) => [h] | _ => [] end ->
        resultSets (snd (finishItem p w)) !! h = resultSets w !! h).
Proof.
  destruct p as [v | h [rows | e]];
    try (split; [simpl; by rewrite app_nil_r | reflexivity]).
  rewrite finishItem_fetched. cbn [snd]. split; [apply closeResultSet_trace|].
  intros h' Hh'. apply closeResultSet_frame. intros ->. apply Hh'. by left.
Qed.

Lemma item_finish_alone w0 p w :
  NoDup (match p with Fetching h (Ok _) => [h] | _ => [] end) ->
  (forall h, h ∈ match p with Fetching h (Ok _) => [h] | _ => [] end ->
     resultSets w !! h = resultSets w0 !! h) ->
  fst (finishItem p w) = fst (finishItem p w0)
  /\ (forall h, h ∈ match p with Fetching h (Ok _) => [h] | _ => [] end ->
        resultSets (snd (finishItem p w)) !! h
        = resultSets (snd (closeResultSet h w0)) !! h).
Proof.
  intros _ Hsame.
  destruct p as [v | h [rows | e]];
    try (split; [reflexivity | intros h' Hh'; by apply elem_of_nil in Hh']).
  rewrite !finishItem_fetched. cbn [fst snd].
  destruct (closeResultSet_local h w0 w) as [Hans Hstate]; [apply Hsame; by left|].
  split; [by rewrite Hans|].
  intros h' Hh'. by apply list_elem_of_singleton in Hh' as ->.
Qed.

Lemma item_finish_ok p w b :
  fst (finishItem p w) = Ok b ->
  released (match p with Fetching h (Ok _) => [h] | _ => [] end) w (snd (finishItem p w)).
Proof.
  destruct p as [v | h [rows | e]]; try (intros _; apply released_nil).
  rewrite finishItem_fetched. cbn [fst snd].
    destruct (closeResultSet h w) as [[u|e] w'] eqn:Hclose; [|discriminate].
    intros _. by eapply closeResultSet_released.
Qed.

(** The first part of the callbacks: one [getRows] per handle, in list
    order, and nothing else. *)
Lemma startAll_items_frame items w :
  trace (snd (startAll startItem items w)) = trace w ++ fetchEvents (itemHandles items)
  /\ (forall h, h ∉ itemHandles items ->
        resultSets (snd (startAll startItem items w)) !! h = resultSets w !! h).
Proof. exact (startAll_frame startItem _ item_start_frame items w). Qed.

(** With pairwise different handles every [getRows] is answered as if
    it were the only call: on the result set as it was at the start. *)
Lemma startAll_items_alone w0 items w :
  NoDup (itemHandles items) ->
  (forall h, h ∈ itemHandles items -> resultSets w !! h = resultSets w0 !! h) ->
  fst (startAll startItem items w) = (fun v => fst (startItem v w0)) <$> items
  /\ (forall h, h ∈ itemHandles items ->
        resultSets (snd (startAll startItem items w)) !! h
        = resultSets (snd (getRows h maxRows w0)) !! h).
Proof.
  exact (startAll_alone startItem _ item_start_frame item_start_alone w0 items w).
Qed.

(** The second part: one [close] per handle that was answered with
    rows, in list order, and nothing else. *)
Lemma finishAll_items_frame ps w :
  trace (snd (finishAll finishItem ps w)) = trace w ++ releaseEvents (okHandles ps)
  /\ (forall h, h ∉ okHandles ps ->
        resultSets (snd (finishAll finishItem ps w)) !! h = resultSets w !! h).
Proof. exact (finishAll_frame finishItem _ item_finish_frame ps w). Qed.

Lemma finishAll_items_alone w0 ps w :
  NoDup (okHandles ps) ->
  (forall h, h ∈ okHandles ps -> resultSets w !! h = resultSets w0 !! h) ->
  fst (finishAll finishItem ps w) = (fun p => fst (finishItem p w0)) <$> ps
  /\ (forall h, h ∈ okHandles ps ->
        resultSets (snd (finishAll finishItem ps w)) !! h
        = resultSets (snd (closeResultSet h w0)) !! h).
Proof.
  exact (finishAll_alone finishItem _ item_finish_frame item_finish_alone w0 ps w).
Qed.

(** Callbacks that all went to their end have closed pairwise
    different handles. *)
Lemma finishAll_items_ok ps w arr :
  collect (fst (finishAll finishItem ps w)) = Ok arr ->
  released (okHandles ps) w (snd (finishAll finishItem ps w)).
Proof. exact (finishAll_ok finishItem _ item_finish_ok ps w arr). Qed.

Lemma finishAll_items_values ps :
  forall w arr,
    collect (fst (finishAll finishItem ps w)) = Ok arr -> Forall2 returned ps arr.
Proof.
  induction ps as [|p ps IH]; intros w arr Hall.
  - injection Hall as <-. constructor.
  - rewrite finishAll_cons in Hall. cbn [fst snd] in Hall.
    apply collect_cons_ok in Hall as (b & bs & Hb & Hbs & ->).
    constructor; [|by eapply IH].
    destruct p as [v | h [rows | e]].
    + by injection Hb as <-.
    + rewrite finishItem_fetched in Hb. cbn [fst] in Hb.
      destruct (fst (closeResultSet h w)); [by injection Hb as <- | discriminate].
    + discriminate Hb.
Qed.

(** When no [getRows] failed, every handle of the list goes on to
    [close]. *)
Lemma okHandles_startAll items :
  forall w,
    firstFailure itemFailure (fst (startAll startItem items w)) = None ->
    okHandles (fst (startAll startItem items w)) = itemHandles items.
Proof.
  induction items as [|v items IH]; intros w Hnone; [reflexivity|].
  rewrite startAll_cons in Hnone |- *. cbn [fst snd] in Hnone |- *.
  rewrite okHandles_cons, itemHandles_cons.
  simpl in Hnone.
  destruct (itemFailure (fst (startItem v w))) eqn:Hfail; [discriminate|].
  rewrite (IH _ Hnone). f_equal.
  destruct v; try reflexivity.
  rewrite startItem_handle in Hfail |- *. cbn [fst] in Hfail |- *.
  by destruct (fst (getRows h maxRows w)).
Qed.

Lemma okHandles_sublist items w :
  okHandles ((fun v => fst (startItem v w)) <$> items) `sublist_of` itemHandles items.
Proof.
  induction items as [|v items IH]; [constructor|].
  rewrite fmap_cons, okHandles_cons, itemHandles_cons.
  apply sublist_app; [|exact IH].
  destruct v; try apply sublist_nil_l.
  rewrite startItem_handle. cbn [fst].
  destruct (fst (getRows h maxRows w)); [reflexivity | apply sublist_nil_l].
Qed.

(** Reads of pairwise different handles do not interfere: every
    callback fares as if the others were not there. *)
Lemma promiseAll_items_alone items w :
  NoDup (itemHandles items) ->
  let ps := (fun v => fst (startItem v w)) <$> items in
  let w1 := snd (startAll startItem items w) in
  let run := promiseAll startItem finishItem itemFailure items w in
  fst run = settle itemFailure ps ((fun p => fst (finishItem p w1)) <$> ps)
  /\ trace (snd run)
     = trace w ++ fetchEvents (itemHandles items) ++ releaseEvents (okHandles ps)
  /\ (forall h, h ∈ itemHandles items ->
        resultSets w1 !! h = resultSets (snd (getRows h maxRows w)) !! h)
  /\ (forall h, h ∈ okHandles ps ->
        resultSets (snd run) !! h = resultSets (snd (closeResultSet h w1)) !! h)
  /\ (forall h, h ∉ okHandles ps -> resultSets (snd run) !! h = resultSets w1 !! h)
  /\ (forall h, h ∉ itemHandles items -> resultSets w1 !! h = resultSets w !! h).
Proof.
  intros Hnd ps w1 run.
  destruct (startAll_items_alone w items w Hnd (fun _ _ => eq_refl)) as [Hps Hst].
  destruct (startAll_items_frame items w) as (Htr1 & Hfr1).
  assert (Hnd' : NoDup (okHandles ps))
    by (eapply sublist_NoDup; [exact Hnd | apply okHandles_sublist]).
  destruct (finishAll_items_alone w1 ps w1 Hnd' (fun _ _ => eq_refl)) as [Hrs Hst2].
  destruct (finishAll_items_frame ps w1) as (Htr2 & Hfr2).
  subst run. rewrite promiseAll_run. cbn [fst snd]. fold w1. rewrite Hps. fold ps.
  split; [by rewrite Hrs|]. split; [|split; [|split; [|split]]].
  - rewrite Htr2. unfold w1. by rewrite Htr1, <- app_assoc.
  - exact Hst.
  - exact Hst2.
  - exact Hfr2.
  - exact Hfr1.
Qed.

Lemma itemNormalized_started w v v' :
  returned (fst (startItem v w)) v' -> itemNormalized w v v'.
Proof.
  destruct v; try (by intros ->).
  rewrite startItem_handle. cbn [fst returned].
  destruct (fst (getRows h maxRows w)) as [rows|e] eqn:Hget; [|contradiction].
  intros ->. apply getRows_ok in Hget as (rs & Hrs & _ & _ & -> & _).
  simpl. unfold fetched. by rewrite Hrs.
Qed.

Lemma items_normalized w items arr :
  Forall2 returned ((fun v => fst (startItem v w)) <$> items) arr ->
  Forall2 (itemNormalized w) items arr.
Proof.
  intros Hvals.
  apply (Forall2_fmap_l (fun v => fst (startItem v w)) returned items arr) in Hvals.
  eapply Forall2_impl; [exact Hvals|]. intros v v' Hv. by apply itemNormalized_started.
Qed.

(** What a [Promise.all] over array elements has done when it is
    fulfilled. *)
Lemma promiseAll_items_ok items w arr w' :
  promiseAll startItem finishItem itemFailure items w = (Ok arr, w') ->
  released (itemHandles items) (snd (startAll startItem items w)) w'
  /\ Forall2 (itemNormalized w) items arr
  /\ trace w'
     = trace w ++ fetchEvents (itemHandles items) ++ releaseEvents (itemHandles items)
  /\ (forall h, h ∉ itemHandles items -> resultSets w' !! h = resultSets w !! h).
Proof.
  rewrite promiseAll_run. intros [= Hsettle <-].
  apply settle_ok in Hsettle as [Hnone Hall].
  pose proof (okHandles_startAll items w Hnone) as Hok.
  pose proof (finishAll_items_ok _ _ _ Hall) as Hrel.
  pose proof (finishAll_items_values _ _ _ Hall) as Hvals. rewrite Hok in Hrel.
  assert (Hnd : NoDup (itemHandles items)) by apply Hrel.
  destruct (startAll_items_alone w items w Hnd (fun _ _ => eq_refl)) as [Hps _].
  destruct (startAll_items_frame items w) as (Htr1 & Hfr1).
  destruct (finishAll_items_frame (fst (startAll startItem items w))
              (snd (startAll startItem items w))) as (Htr2 & Hfr2).
  rewrite Hok in Htr2, Hfr2.
  split; [exact Hrel|]. split; [|split].
  - rewrite Hps in Hvals. by apply items_normalized.
  - by rewrite Htr2, Htr1, <- app_assoc.
  - intros h Hh. by rewrite Hfr2, Hfr1.
Qed.

(** Over healthy handles no [getRows] fails. *)
Lemma items_fetch_ok items w :
  Forall (healthy w) (itemHandles items) ->
  Forall (fun p => itemFailure p = None) ((fun v => fst (startItem v w)) <$> items).
Proof.
  intros Hall. induction items as [|v items IH]; [constructor|].
  rewrite itemHandles_cons in Hall. apply Forall_app in Hall as [Hv Hall].
  rewrite fmap_cons. constructor; [|by apply IH].
  destruct v; try reflexivity.
  rewrite startItem_handle. cbn [fst]. apply Forall_cons in Hv as [Hh _].
  destruct (getRows_healthy h maxRows w Hh) as (rs & _ & -> & _). reflexivity.
Qed.

(** Over healthy handles, each taken as if it were alone, every
    callback goes to its end. *)
Lemma items_finish_ok items w w1 :
  Forall (healthy w) (itemHandles items) ->
  (forall h, h ∈ itemHandles items ->
     resultSets w1 !! h = resultSets (snd (getRows h maxRows w)) !! h) ->
  Forall (fun r => exists b, r = Ok b)
    ((fun p => fst (finishItem p w1)) <$> ((fun v => fst (startItem v w)) <$> items)).
Proof.
  intros Hall Hst. induction items as [|v items IH]; [constructor|].
  rewrite itemHandles_cons in Hall, Hst. apply Forall_app in Hall as [Hv Hall].
  rewrite !fmap_cons. constructor;
    [|apply IH; [assumption | intros h Hh; apply Hst, elem_of_app; by right]].
  destruct v; try (by eexists).
  rewrite startItem_handle. cbn [fst]. apply Forall_cons in Hv as [Hh _].
  destruct (getRows_healthy h maxRows w Hh) as (rs & _ & -> & Hafter).
  rewrite finishItem_fetched. cbn [fst].
  assert (Hw1 : resultSets w1 !! h
                = Some (MkResultSet (List.skipn maxRows (rsRows rs)) false None None
                          (rsEntries rs))).
  { rewrite Hst; [exact Hafter|]. apply elem_of_app. left. by left. }
  rewrite (closeResultSet_healthy h w1 _ Hw1); [by eexists | reflexivity..].
Qed.

Lemma promiseAll_items_total items w :
  NoDup (itemHandles items) ->
  Forall (healthy w) (itemHandles items) ->
  exists arr, fst (promiseAll startItem finishItem itemFailure items w) = Ok arr.
Proof.
  intros Hnd Hall.
  destruct (promiseAll_items_alone items w Hnd) as (Hrun & _ & Hst & _).
  pose proof (items_fetch_ok items w Hall) as Hnone.
  pose proof (items_finish_ok items w _ Hall Hst) as Hoks.
  apply all_ok in Hoks as [bs Hbs]. exists bs.
  rewrite Hrun. unfold settle. by rewrite (firstFailure_none _ _ Hnone), Hbs, collect_ok.
Qed.

End Items.

(** *** Callbacks over the entries of a mapping *)

Section Entries.

Lemma entryHandles_cons kv entries :
  entryHandles (kv :: entries) = entryHandles [kv] ++ entryHandles entries.
Proof. unfold entryHandles. simpl. by rewrite app_nil_r. Qed.

Lemma entryOkHandles_cons pe pes :
  entryOkHandles (pe :: pes) = entryOkHandles [pe] ++ entryOkHandles pes.
Proof. unfold entryOkHandles. simpl. by rewrite app_nil_r. Qed.

Lemma okHandles_single p :
  okHandles [p] = match p with Fetching h (Ok _) => [h] | _ => [] end.
Proof. unfold okHandles. simpl. by rewrite app_nil_r. Qed.

Lemma startEntry_array k items w :
  startEntry (k, JArr items) w
  = (ArrayValue k (fst (startAll startItem items w)),
     snd (startAll startItem items w)).
Proof. unfold startEntry. by destruct (startAll startItem items w). Qed.

Lemma startEntry_one k v w :
  match v with
  | JArr _ => True
  | _ => startEntry (k, v) w = (OneValue k (fst (startItem v w)), snd (startItem v w))
  end.
Proof.
  destruct v; try reflexivity; try exact I.
  unfold startEntry. by destruct (startItem (JResultSet h) w).
Qed.

Lemma finishEntry_one k p w :
  finishEntry (OneValue k p) w
  = (match fst (finishItem p w) with
     | Ok v => Ok (k, v)
     | Throw e => Throw e
     end, snd (finishItem p w)).
Proof. unfold finishEntry, bind, ret. by destruct (finishItem p w) as [[v|e] w']. Qed.

Lemma finishEntry_array k ps w :
  finishEntry (ArrayValue k ps) w
  = (match settle itemFailure ps (fst (finishAll finishItem ps w)) with
     | Ok arr => Ok (k, JArr arr)
     | Throw e => Throw e
     end, snd (finishAll finishItem ps w)).
Proof.
  unfold finishEntry. destruct (finishAll finishItem ps w) as [rs w']. cbn [fst snd].
  by destruct (settle itemFailure ps rs).
Qed.

Lemma entry_start_frame kv w :
  trace (snd (startEntry kv w))
  = trace w ++ fetchEvents (match snd kv with
                            | JResultSet h => [h]
                            | JArr items => itemHandles items
                            | _ => []
                            end)
  /\ (forall h, h ∉ match snd kv with
                    | JResultSet h => [h]
                    | JArr items => itemHandles items
                    | _ => []
                    end ->
        resultSets (snd (startEntry kv w)) !! h = resultSets w !! h).
Proof.
  destruct kv as [k v]. cbn [snd].
  destruct v; try (split; [simpl; by rewrite app_nil_r | reflexivity]).
  - rewrite (startEntry_one k (JResultSet h) w). cbn [snd].
    exact (item_start_frame (JResultSet h) w).
  - rewrite startEntry_array. cbn [snd]. exact (startAll_items_frame items w).
Qed.

Lemma entry_start_alone w0 kv w :
  NoDup (match snd kv with
         | JResultSet h => [h]
         | JArr items => itemHandles items
         | _ => []
         end) ->
  (forall h, h ∈ match snd kv with
                 | JResultSet h => [h]
                 | JArr items => itemHandles items
                 | _ => []
                 end -> resultSets w !! h = resultSets w0 !! h) ->
  fst (startEntry kv w) = fst (startEntry kv w0)
  /\ (forall h, h ∈ match snd kv with
                    | JResultSet h => [h]
                    | JArr items => itemHandles items
                    | _ => []
                    end ->
        resultSets (snd (startEntry kv w)) !! h
        = resultSets (snd (getRows h maxRows w0)) !! h).
Proof.
  destruct kv as [k v]. cbn [snd]. intros Hnd Hsame.
  destruct v; try (split; [reflexivity | intros h' Hh'; by apply elem_of_nil in Hh']).
  - rewrite !(startEntry_one k (JResultSet h)). cbn [fst snd].
    destruct (item_start_alone w0 (JResultSet h) w Hnd Hsame) as [Hp Hst].
    split; [by rewrite Hp | exact Hst].
  - rewrite !startEntry_array. cbn [fst snd].
    destruct (startAll_items_alone w0 items w Hnd Hsame) as [Hp Hst].
    destruct (startAll_items_alone w0 items w0 Hnd (fun _ _ => eq_refl)) as [Hp0 _].
    split; [by rewrite Hp, Hp0 | exact Hst].
Qed.

Lemma entry_finish_frame pe w :
  trace (snd (finishEntry pe w))
  = trace w ++ releaseEvents (match pe with
                              | OneValue _ p => okHandles [p]
                              | ArrayValue _ ps => okHandles ps
                              end)
  /\ (forall h, h ∉ match pe with
                    | OneValue _ p => okHandles [p]
                    | ArrayValue _ ps => okHandles ps
                    end ->
        resultSets (snd (finishEntry pe w)) !! h = resultSets w !! h).
Proof.
  destruct pe as [k p | k ps].
  - rewrite finishEntry_one, okHandles_single. cbn [snd]. exact (item_finish_frame p w).
  - rewrite finishEntry_array. cbn [snd]. exact (finishAll_items_frame ps w).
Qed.

Lemma entry_finish_alone w0 pe w :
  NoDup (match pe with
         | OneValue _ p => okHandles [p]
         | ArrayValue _ ps => okHandles ps
         end) ->
  (forall h, h ∈ match pe with
                 | OneValue _ p => okHandles [p]
                 | ArrayValue _ ps => okHandles ps
                 end -> resultSets w !! h = resultSets w0 !! h) ->
  fst (finishEntry pe w) = fst (finishEntry pe w0)
  /\ (forall h, h ∈ match pe with
                    | OneValue _ p => okHandles [p]
                    | ArrayValue _ ps => okHandles ps
                    end ->
        resultSets (snd (finishEntry pe w)) !! h
        = resultSets (snd (closeResultSet h w0)) !! h).
Proof.
  destruct pe as [k p | k ps].
  - rewrite okHandles_single, !finishEntry_one. cbn [fst snd]. intros Hnd Hsame.
    destruct (item_finish_alone w0 p w Hnd Hsame) as [Hp Hst].
    split; [by rewrite Hp | exact Hst].
  - rewrite !finishEntry_array. cbn [fst snd]. intros Hnd Hsame.
    destruct (finishAll_items_alone w0 ps w Hnd Hsame) as [Hp Hst].
    destruct (finishAll_items_alone w0 ps w0 Hnd (fun _ _ => eq_refl)) as [Hp0 _].
    split; [by rewrite Hp, Hp0 | exact Hst].
Qed.

Lemma entry_finish_ok pe w b :
  fst (finishEntry pe w) = Ok b ->
  released (match pe with
            | OneValue _ p => okHandles [p]
            | ArrayValue _ ps => okHandles ps
            end) w (snd (finishEntry pe w)).
Proof.
  destruct pe as [k p | k ps].
  - rewrite finishEntry_one, okHandles_single. cbn [fst snd].
    destruct (fst (finishItem p w)) as [v|e] eqn:Hp; [|discriminate].
    intros _. by eapply item_finish_ok.
  - rewrite finishEntry_array. cbn [fst snd].
    destruct (settle itemFailure ps (fst (finishAll finishItem ps w))) as [arr|e] eqn:Hs;
      [|discriminate].
    intros _. apply settle_ok in Hs as [_ Hall]. by eapply finishAll_items_ok.
Qed.

Lemma startAll_entries_frame entries w :
  trace (snd (startAll startEntry entries w))
  = trace w ++ fetchEvents (entryHandles entries)
  /\ (forall h, h ∉ entryHandles entries ->
        resultSets (snd (startAll startEntry entries w)) !! h = resultSets w !! h).
Proof. exact (startAll_frame startEntry _ entry_start_frame entries w). Qed.

Lemma startAll_entries_alone w0 entries w :
  NoDup (entryHandles entries) ->
  (forall h, h ∈ entryHandles entries -> resultSets w !! h = resultSets w0 !! h) ->
  fst (startAll startEntry entries w) = (fun kv => fst (startEntry kv w0)) <$> entries
  /\ (forall h, h ∈ entryHandles entries ->
        resultSets (snd (startAll startEntry entries w)) !! h
        = resultSets (snd (getRows h maxRows w0)) !! h).
Proof.
  exact (startAll_alone startEntry _ entry_start_frame entry_start_alone w0 entries w).
Qed.

Lemma finishAll_entries_frame pes w :
  trace (snd (finishAll finishEntry pes w))
  = trace w ++ releaseEvents (entryOkHandles pes)
  /\ (forall h, h ∉ entryOkHandles pes ->
        resultSets (snd (finishAll finishEntry pes w)) !! h = resultSets w !! h).
Proof. exact (finishAll_frame finishEntry _ entry_finish_frame pes w). Qed.

Lemma finishAll_entries_alone w0 pes w :
  NoDup (entryOkHandles pes) ->
  (forall h, h ∈ entryOkHandles pes -> resultSets w !! h = resultSets w0 !! h) ->
  fst (finishAll finishEntry pes w) = (fun pe => fst (finishEntry pe w0)) <$> pes
  /\ (forall h, h ∈ entryOkHandles pes ->
        resultSets (snd (finishAll finishEntry pes w)) !! h
        = resultSets (snd (closeResultSet h w0)) !! h).
Proof.
  exact (finishAll_alone finishEntry _ entry_finish_frame entry_finish_alone w0 pes w).
Qed.

Lemma finishAll_entries_ok pes w es :
  collect (fst (finishAll finishEntry pes w)) = Ok es ->
  released (entryOkHandles pes) w (snd (finishAll finishEntry pes w)).
Proof. exact (finishAll_ok finishEntry _ entry_finish_ok pes w es). Qed.

Lemma finishAll_entries_values pes :
  forall w es,
    collect (fst (finishAll finishEntry pes w)) = Ok es -> Forall2 returnedEntry pes es.
Proof.
  induction pes as [|pe pes IH]; intros w es Hall.
  - injection Hall as <-. constructor.
  - rewrite finishAll_cons in Hall. cbn [fst snd] in Hall.
    apply collect_cons_ok in Hall as (b & bs & Hb & Hbs & ->).
    constructor; [|by eapply IH].
    destruct pe as [k p | k ps].
    + rewrite finishEntry_one in Hb. cbn [fst] in Hb.
      destruct (fst (finishItem p w)) as [v|e] eqn:Hp; [|discriminate].
      injection Hb as <-. split; [reflexivity|]. cbn [snd].
      assert (Hone : collect (fst (finishAll finishItem [p] w)) = Ok [v]).
      { rewrite finishAll_cons. cbn [fst snd finishAll collect]. by rewrite Hp. }
      apply finishAll_items_values in Hone. by inversion Hone.
    + rewrite finishEntry_array in Hb. cbn [fst] in Hb.
      destruct (settle itemFailure ps (fst (finishAll finishItem ps w))) as [arr|e] eqn:Hs;
        [|discriminate].
      injection Hb as <-. split; [reflexivity|]. exists arr. split; [reflexivity|].
      apply settle_ok in Hs as [_ Hall]. by eapply finishAll_items_values.
Qed.

Lemma entryOkHandles_startAll entries :
  forall w,
    firstFailure entryFailure (fst (startAll startEntry entries w)) = None ->
    entryOkHandles (fst (startAll startEntry entries w)) = entryHandles entries.
Proof.
  induction entries as [|[k v] entries IH]; intros w Hnone; [reflexivity|].
  rewrite startAll_cons in Hnone |- *. cbn [fst snd] in Hnone |- *.
  rewrite entryOkHandles_cons, entryHandles_cons.
  cbn [firstFailure] in Hnone.
  destruct (entryFailure (fst (startEntry (k, v) w))) eqn:Hfail; [discriminate|].
  rewrite (IH _ Hnone). f_equal.
  destruct v; try reflexivity.
  - rewrite (startEntry_one k (JResultSet h) w) in Hfail |- *.
    rewrite startItem_handle in Hfail |- *. cbn [fst] in Hfail |- *.
    by destruct (fst (getRows h maxRows w)).
  - rewrite startEntry_array in Hfail |- *. cbn [fst entryFailure] in Hfail |- *.
    unfold entryOkHandles, entryHandles. simpl. rewrite !app_nil_r.
    by apply okHandles_startAll.
Qed.

Lemma entries_normalized w entries :
  forall es,
    NoDup (entryHandles entries) ->
    Forall2 returnedEntry ((fun kv => fst (startEntry kv w)) <$> entries) es ->
    Forall2 (entryNormalized w) entries es.
Proof.
  induction entries as [|[k v] entries IH]; intros es Hnd Hvals.
  - apply Forall2_nil_inv_l in Hvals as ->. constructor.
  - rewrite fmap_cons in Hvals. inversion Hvals as [|pe kv' pes es' Hkv Hrest]; subst.
    rewrite entryHandles_cons in Hnd. apply NoDup_app in Hnd as (Hnd0 & _ & Hnd').
    constructor; [|by apply IH].
    unfold entryNormalized. cbn [fst snd].
    destruct v; try (destruct Hkv as [Hk Hv]; by split).
    + change (returnedEntry (fst (startEntry (k, JResultSet h) w)) kv') in Hkv.
      rewrite (startEntry_one k (JResultSet h) w) in Hkv. cbn [fst returnedEntry] in Hkv.
      destruct Hkv as [Hk Hv]. split; [assumption|].
      exact (itemNormalized_started w (JResultSet h) _ Hv).
    + change (returnedEntry (fst (startEntry (k, JArr items) w)) kv') in Hkv.
      rewrite startEntry_array in Hkv. cbn [fst returnedEntry] in Hkv.
      destruct Hkv as (Hk & arr & Harr & Hvs). split; [assumption|].
      exists arr. split; [assumption|]. apply items_normalized.
      assert (Hnd1 : NoDup (itemHandles items)).
      { unfold entryHandles in Hnd0. simpl in Hnd0. by rewrite app_nil_r in Hnd0. }
      destruct (startAll_items_alone w items w Hnd1 (fun _ _ => eq_refl)) as [Hps _].
      by rewrite <- Hps.
Qed.

(** What a [Promise.all] over the entries of a mapping has done when
    it is fulfilled. *)
Lemma promiseAll_entries_ok entries w es w' :
  promiseAll startEntry finishEntry entryFailure entries w = (Ok es, w') ->
  released (entryHandles entries) (snd (startAll startEntry entries w)) w'
  /\ Forall2 (entryNormalized w) entries es
  /\ trace w'
     = trace w ++ fetchEvents (entryHandles entries)
         ++ releaseEvents (entryHandles entries)
  /\ (forall h, h ∉ entryHandles entries -> resultSets w' !! h = resultSets w !! h).
Proof.
  rewrite promiseAll_run. intros [= Hsettle <-].
  apply settle_ok in Hsettle as [Hnone Hall].
  pose proof (entryOkHandles_startAll entries w Hnone) as Hok.
  pose proof (finishAll_entries_ok _ _ _ Hall) as Hrel.
  pose proof (finishAll_entries_values _ _ _ Hall) as Hvals. rewrite Hok in Hrel.
  assert (Hnd : NoDup (entryHandles entries)) by apply Hrel.
  destruct (startAll_entries_alone w entries w Hnd (fun _ _ => eq_refl)) as [Hps _].
  destruct (startAll_entries_frame entries w) as (Htr1 & Hfr1).
  destruct (finishAll_entries_frame (fst (startAll startEntry entries w))
              (snd (startAll startEntry entries w))) as (Htr2 & Hfr2).
  rewrite Hok in Htr2, Hfr2.
  split; [exact Hrel|]. split; [|split].
  - rewrite Hps in Hvals. by apply entries_normalized.
  - by rewrite Htr2, Htr1, <- app_assoc.
  - intros h Hh. by rewrite Hfr2, Hfr1.
Qed.

Lemma entries_healthy entries w w1 :
  NoDup (entryHandles entries) ->
  Forall (healthy w) (entryHandles entries) ->
  (forall h, h ∈ entryHandles entries ->
     resultSets w1 !! h = resultSets (snd (getRows h maxRows w)) !! h) ->
  let pes := (fun kv => fst (startEntry kv w)) <$> entries in
  Forall (fun pe => entryFailure pe = None) pes
  /\ Forall (fun r => exists b, r = Ok b) ((fun pe => fst (finishEntry pe w1)) <$> pes).
Proof.
  intros Hnd Hall Hst pes. subst pes.
  induction entries as [|[k v] entries IH]; [split; constructor|].
  rewrite entryHandles_cons in Hnd, Hall, Hst.
  apply NoDup_app in Hnd as (Hnd0 & _ & Hnd').
  apply Forall_app in Hall as [Hv Hall].
  destruct IH as [IH1 IH2];
    [assumption | assumption | intros h Hh; apply Hst, elem_of_app; by right|].
  assert (Hst0 : forall h, h ∈ entryHandles [(k, v)] ->
                   resultSets w1 !! h = resultSets (snd (getRows h maxRows w)) !! h).
  { intros h Hh. apply Hst, elem_of_app. by left. }
  clear Hst. rewrite !fmap_cons.
  assert (Hone : entryFailure (fst (startEntry (k, v) w)) = None
                 /\ exists b, fst (finishEntry (fst (startEntry (k, v) w)) w1) = Ok b);
    [|destruct Hone; split; by constructor].
  destruct v; try (split; [reflexivity | by eexists]).
  - rewrite (startEntry_one k (JResultSet h) w). cbn [fst entryFailure].
    rewrite finishEntry_one. cbn [fst].
    pose proof (items_fetch_ok [JResultSet h] w Hv) as Hf.
    pose proof (items_finish_ok [JResultSet h] w w1 Hv Hst0) as Ho.
    rewrite !fmap_cons in Hf, Ho.
    apply Forall_cons in Hf as [Hf0 _]. apply Forall_cons in Ho as [[b Hb] _].
    cbn beta in Hf0, Hb. split; [assumption|]. rewrite Hb. by eexists.
  - rewrite startEntry_array. cbn [fst entryFailure]. rewrite finishEntry_array. cbn [fst].
    assert (Hnd1 : NoDup (itemHandles items)).
    { unfold entryHandles in Hnd0. simpl in Hnd0. by rewrite app_nil_r in Hnd0. }
    assert (Heq : entryHandles [(k, JArr items)] = itemHandles items).
    { unfold entryHandles. simpl. by rewrite app_nil_r. }
    rewrite Heq in Hv, Hst0.
    destruct (startAll_items_alone w items w Hnd1 (fun _ _ => eq_refl)) as [Hps _].
    rewrite Hps.
    pose proof (items_fetch_ok items w Hv) as Hf.
    pose proof (items_finish_ok items w w1 Hv Hst0) as Ho.
    assert (Hnd2 : NoDup (okHandles ((fun v => fst (startItem v w)) <$> items)))
      by (eapply sublist_NoDup; [exact Hnd1 | apply okHandles_sublist]).
    destruct (finishAll_items_alone w1 _ w1 Hnd2 (fun _ _ => eq_refl)) as [Hrs _].
    rewrite Hrs. apply all_ok in Ho as [bs Hbs]. rewrite Hbs.
    unfold settle. rewrite (firstFailure_none _ _ Hf), collect_ok.
    split; [reflexivity | by eexists].
Qed.

Lemma promiseAll_entries_total entries w :
  NoDup (entryHandles entries) ->
  Forall (healthy w) (entryHandles entries) ->
  exists es, fst (promiseAll startEntry finishEntry entryFailure entries w) = Ok es.
Proof.
  intros Hnd Hall. rewrite promiseAll_run. cbn [fst].
  destruct (startAll_entries_alone w entries w Hnd (fun _ _ => eq_refl)) as [Hps Hst].
  destruct (entries_healthy entries w _ Hnd Hall Hst) as [Hnone Hoks].
  rewrite Hps.
  assert (Hok : entryOkHandles ((fun kv => fst (startEntry kv w)) <$> entries)
                = entryHandles entries).
  { rewrite <- Hps. apply entryOkHandles_startAll. rewrite Hps.
    by apply firstFailure_none. }
  destruct (finishAll_entries_alone (snd (startAll startEntry entries w))
              ((fun kv => fst (startEntry kv w)) <$> entries)
              (snd (startAll startEntry entries w))) as [Hrs _];
    [by rewrite Hok | reflexivity |].
  rewrite Hrs. apply all_ok in Hoks as [bs Hbs]. exists bs.
  unfold settle. by rewrite (firstFailure_none _ _ Hnone), Hbs, collect_ok.
Qed.

End Entries.

(** *** The normaliser as a whole *)

Section NormaliserRuns.

Lemma normalizeOutBinds_array items w :
  normalizeOutBinds (JArr items) w
  = (match fst (promiseAll startItem finishItem itemFailure items w) with
     | Ok arr => Ok (JArr arr)
     | Throw e => Throw e
     end, snd (promiseAll startItem finishItem itemFailure items w)).
Proof.
  unfold normalizeOutBinds, bind, ret.
  by destruct (promiseAll startItem finishItem itemFailure items w) as [[arr|e] w'].
Qed.

Lemma normalizeOutBinds_object v w :
  match v with
  | JObj _ | JResultSet _ =>
      normalizeOutBinds v w
      = (match fst (promiseAll startEntry finishEntry entryFailure (ownEntries w v) w) with
         | Ok es => Ok (JObj (fromEntries es))
         | Throw e => Throw e
         end, snd (promiseAll startEntry finishEntry entryFailure (ownEntries w v) w))
  | _ => True
  end.
Proof.
  destruct v; try exact I; unfold normalizeOutBinds, bind, ret, objectEntries, ownEntries.
  - by destruct (promiseAll startEntry finishEntry entryFailure _ w) as [[es|e] w'].
  - by destruct (promiseAll startEntry finishEntry entryFailure entries w) as [[es|e] w'].
Qed.

(** What the normaliser has done when it returns: the handles it met
    are pairwise different and closed, each was asked for its rows and
    then closed, and nothing else was touched. *)
Lemma normalizeOutBinds_ok v w v' w' :
  normalizeOutBinds v w = (Ok v', w') ->
  NoDup (handlesOf w v)
  /\ Forall (closedIn w') (handlesOf w v)
  /\ trace w'
     = trace w ++ fetchEvents (handlesOf w v) ++ releaseEvents (handlesOf w v)
  /\ (forall h, h ∉ handlesOf w v -> resultSets w' !! h = resultSets w !! h).
Proof.
  assert (Hobj : forall v0,
             match v0 with JObj _ | JResultSet _ => True | _ => False end ->
             handlesOf w v0 = entryHandles (ownEntries w v0) ->
             normalizeOutBinds v0 w = (Ok v', w') ->
             NoDup (handlesOf w v0)
             /\ Forall (closedIn w') (handlesOf w v0)
             /\ trace w'
                = trace w ++ fetchEvents (handlesOf w v0)
                    ++ releaseEvents (handlesOf w v0)
             /\ (forall h, h ∉ handlesOf w v0 -> resultSets w' !! h = resultSets w !! h)).
  { intros v0 Hv0 -> Hrun.
    pose proof (normalizeOutBinds_object v0 w) as Heq.
    destruct v0; try contradiction; rewrite Heq in Hrun;
      destruct (promiseAll startEntry finishEntry entryFailure _ w)
        as [[es|e] w1] eqn:Hall; try discriminate Hrun;
      injection Hrun as <- <-;
      apply promiseAll_entries_ok in Hall as (Hrel & _ & Htr & Hfr);
      (split; [apply Hrel|]); (split; [apply Hrel|]); by split. }
  destruct v;
    try (intros [= <- <-]; simpl; rewrite app_nil_r;
         split; [constructor|]; split; [constructor|]; by split).
  - by apply Hobj.
  - rewrite normalizeOutBinds_array.
    destruct (promiseAll startItem finishItem itemFailure items w)
      as [[arr|e] w1] eqn:Hall; [|discriminate].
    intros [= <- <-]. apply promiseAll_items_ok in Hall as (Hrel & _ & Htr & Hfr).
    split; [apply Hrel|]. split; [apply Hrel|]. by split.
  - by apply Hobj.
Qed.

Lemma normalizeOutBinds_total v w :
  NoDup (handlesOf w v) ->
  Forall (healthy w) (handlesOf w v) ->
  exists v' w', normalizeOutBinds v w = (Ok v', w').
Proof.
  intros Hnd Hall.
  assert (Hobj : forall v0,
             match v0 with JObj _ | JResultSet _ => True | _ => False end ->
             NoDup (entryHandles (ownEntries w v0)) ->
             Forall (healthy w) (entryHandles (ownEntries w v0)) ->
             exists v' w', normalizeOutBinds v0 w = (Ok v', w')).
  { intros v0 Hv0 Hnd0 Hall0.
    pose proof (normalizeOutBinds_object v0 w) as Heq.
    destruct (promiseAll_entries_total _ w Hnd0 Hall0) as [es Hes].
    destruct v0; try contradiction; rewrite Heq, Hes; by eexists _, _. }
  destruct v; simpl in Hnd, Hall; try (by eexists _, w).
  - by apply Hobj.
  - destruct (promiseAll_items_total items w Hnd Hall) as [arr Harr].
    rewrite normalizeOutBinds_array, Harr. by eexists _, _.
  - by apply Hobj.
Qed.

End NormaliserRuns.

(** C7. The normaliser keeps the shape of what it is given. A value
    that is absent ([undefined] or [null]), like any value that is not an
    object, is returned as it is and nothing is called. Whenever the
    normaliser returns on a mapping, the result is a mapping with the
    same keys in the same order, where a handle has become its fetched
    rows, an array value has been normalised element by element and
    every other value is unchanged. Whenever it returns on an array, the
    result is an array of the same length and order, where a handle has
    become its fetched rows and every other element is unchanged. And it
    does return when the handles it meets are pairwise different, open
    and answer without error. *)
Theorem normalizeOutBinds_preserves_shape (w : World) :
  normalizeOutBinds JUndefined w = (Ok JUndefined, w)
  /\ normalizeOutBinds JNull w = (Ok JNull, w)
  /\ (forall v,
        match v with
        | JArr _ | JObj _ | JResultSet _ => True
        | _ => normalizeOutBinds v w = (Ok v, w)
        end)
  /\ (forall entries v' w',
        NoDup entries.*1 ->
        normalizeOutBinds (JObj entries) w = (Ok v', w') ->
        exists entries',
          v' = JObj entries'
          /\ entries'.*1 = entries.*1
          /\ Forall2 (entryNormalized w) entries entries')
  /\ (forall items v' w',
        normalizeOutBinds (JArr items) w = (Ok v', w') ->
        exists items',
          v' = JArr items'
          /\ List.length items' = List.length items
          /\ Forall2 (itemNormalized w) items items')
  /\ (forall v,
        NoDup (handlesOf w v) ->
        Forall (healthy w) (handlesOf w v) ->
        exists v' w', normalizeOutBinds v w = (Ok v', w')).
Proof.
  split; [reflexivity|]. split; [reflexivity|]. split; [by intros []|].
  split; [|split].
  - intros entries v' w' Hkeys Hrun.
    pose proof (normalizeOutBinds_object (JObj entries) w) as Heq.
    cbn [ownEntries] in Heq. rewrite Heq in Hrun.
    destruct (promiseAll startEntry finishEntry entryFailure entries w)
      as [[es|e] w1] eqn:Hall; [|discriminate].
    injection Hrun as <- <-.
    apply promiseAll_entries_ok in Hall as (_ & Hshape & _).
    pose proof (entryNormalized_keys w entries es Hshape) as Hsame.
    exists es. split; [|by split].
    f_equal. apply fromEntries_NoDup. by rewrite Hsame.
  - intros items v' w' Hrun. rewrite normalizeOutBinds_array in Hrun.
    destruct (promiseAll startItem finishItem itemFailure items w)
      as [[arr|e] w1] eqn:Hall; [|discriminate].
    injection Hrun as <- <-.
    apply promiseAll_items_ok in Hall as (_ & Hshape & _).
    exists arr. split; [reflexivity|]. split; [|assumption].
    symmetry. by eapply Forall2_length.
  - intros v. apply normalizeOutBinds_total.
Qed.

Lemma normalizeOutBinds_preserves_shape_witness :
  exists entries',
    JObj [("result", JArr [Fixtures.row 1; Fixtures.row 2]);
          ("ids", JArr [JNum (JsNumber.ofN 7); JArr []]);
          ("n", JNum (JsNumber.ofN 5))]
    = JObj entries'
    /\ entries'.*1 = ["result"; "ids"; "n"]
    /\ Forall2 (entryNormalized Fixtures.twoCursors)
         [("result", JResultSet 0);
          ("ids", JArr [JNum (JsNumber.ofN 7); JResultSet 1]);
          ("n", JNum (JsNumber.ofN 5))]
         entries'.
Proof.
  apply (proj1 (proj2 (proj2 (proj2
           (normalizeOutBinds_preserves_shape Fixtures.twoCursors))))
           [("result", JResultSet 0);
            ("ids", JArr [JNum (JsNumber.ofN 7); JResultSet 1]);
            ("n", JNum (JsNumber.ofN 5))]
           _
           (snd (normalizeOutBinds
                   (JObj [("result", JResultSet 0);
                          ("ids", JArr [JNum (JsNumber.ofN 7); JResultSet 1]);
                          ("n", JNum (JsNumber.ofN 5))])
                   Fixtures.twoCursors))).
  - apply (bool_decide_unpack _). vm_compute. reflexivity.
  - vm_compute. reflexivity.
Defined.

(** The array of the specification: two handles and one scalar. *)
Example normalizeOutBinds_nested_array :
  fst (normalizeOutBinds
         (JArr [JResultSet 0; JStr "x"; JResultSet 1]) Fixtures.twoCursors)
  = Ok (JArr [JArr [Fixtures.row 1; Fixtures.row 2]; JStr "x"; JArr []])
  /\ trace (snd (normalizeOutBinds
                   (JArr [JResultSet 0; JStr "x"; JResultSet 1]) Fixtures.twoCursors))
     = [EvGetRows 0 maxRows; EvGetRows 1 maxRows; EvResultSetClose 0; EvResultSetClose 1].
Proof. split; vm_compute; reflexivity. Qed.

(** One level only: a handle inside an array inside an array is left as
    it is, and so is a handle inside a mapping inside a mapping. *)
Example normalizeOutBinds_one_level :
  fst (normalizeOutBinds (JArr [JArr [JResultSet 0]]) Fixtures.twoCursors)
  = Ok (JArr [JArr [JResultSet 0]])
  /\ fst (normalizeOutBinds (JObj [("a", JObj [("b", JResultSet 0)])]) Fixtures.twoCursors)
     = Ok (JObj [("a", JObj [("b", JResultSet 0)])]).
Proof. split; reflexivity. Qed.

(** * Further properties of the bind compiler *)

Section CompilerGuards.

Variable uuid : nat -> string.

Lemma accepts_passesGuards d : accepts d = true <-> passesGuards d.
Proof.
  unfold accepts, passesGuards. destruct (Param.parseInStatement d).
  - rewrite !andb_true_iff, !negb_true_iff, bool_decide_eq_true, bool_decide_eq_false.
    split.
    + intros [[Hdir Hdt] Hlen]. split; [|discriminate]. intros _.
      repeat split; [assumption..|].
      intros Hnil. rewrite Hnil in Hlen. discriminate.
    + intros [H _]. destruct (H eq_refl) as [Hdir [Hdt Hv]].
      repeat split; [assumption..|]. by destruct (valList (Param.value d)).
  - rewrite orb_true_iff, negb_true_iff, bool_decide_eq_true, bool_decide_eq_false.
    split.
    + intros H. split; [discriminate|]. intros _ Hc. by destruct H.
    + intros [_ H]. destruct (decide (Param.datatype d = DtCursor)); auto.
Qed.

(** The error of a rejected descriptor does not depend on the state
    the reduction has reached. *)
Lemma bindStep_throw_any_state st st' d e :
  bindStep uuid st d = Throw e -> bindStep uuid st' d = Throw e.
Proof.
  intros Hstep.
  assert (Hrej : accepts d = false).
  { destruct (accepts d) eqn:Hacc; [|reflexivity].
    apply (bindStep_accepts uuid st) in Hacc as [st1 Hst1]. congruence. }
  revert Hstep. unfold accepts in Hrej. unfold bindStep.
  destruct (Param.parseInStatement d), (Param.direction d), (Param.datatype d);
    simpl in *; try discriminate; try (intros H; exact H);
    destruct (List.length (valList (Param.value d)) =? 0)%nat; simpl in *;
    try discriminate; intros H; exact H.
Qed.

Lemma bindFold_accepted_iff items st :
  (exists st', bindFold uuid items st = Ok st')
  <-> Forall (fun d => accepts d = true) items.
Proof.
  split; [|apply bindFold_accepts].
  revert st. induction items as [|d items IH]; intros st [st' Hfold]; [constructor|].
  simpl in Hfold. destruct (bindStep uuid st d) as [st1|e] eqn:Hstep; [|discriminate].
  constructor; [apply (bindStep_accepts uuid st); eauto | apply (IH st1); eauto].
Qed.

(** X1. A parameter list compiles exactly when each of its descriptors
    passes the guards on its own: an expanding descriptor has direction
    [in], a datatype other than cursor and at least one token; a
    descriptor without expansion is a cursor only with direction [out].
    Neither the SQL text, nor the UUIDs, nor the other descriptors
    matter. *)
Theorem compile_succeeds_iff_guards_pass (items : list Param.t) (sql : string) :
  (exists st, bindParameters uuid items sql = Ok st) <-> Forall passesGuards items.
Proof.
  unfold bindParameters. rewrite bindFold_accepted_iff.
  apply Forall_iff. intros d. apply accepts_passesGuards.
Qed.

(** X2. The error of a compilation is the one of the first rejected
    descriptor in list order, as that descriptor raises it when compiled
    alone; what follows it in the list is never looked at. *)
Theorem first_rejected_descriptor_decides_error
    (pre post : list Param.t) (d : Param.t) (sql sql0 : string) (e : JsError) :
  Forall passesGuards pre ->
  bindParameters uuid [d] sql0 = Throw e ->
  bindParameters uuid (pre ++ d :: post) sql = Throw e.
Proof.
  intros Hpre Hd. unfold bindParameters in *.
  assert (Hacc : Forall (fun d => accepts d = true) pre).
  { eapply Forall_impl; [exact Hpre|]. intros x. apply accepts_passesGuards. }
  destruct (bindFold_accepts uuid pre (MkState ∅ sql 0) Hacc) as [st1 Hst1].
  rewrite bindFold_app, Hst1. simpl in *.
  destruct (bindStep uuid (MkState ∅ sql0 0) d) as [st2|e'] eqn:Hstep; [discriminate|].
  injection Hd as ->.
  by rewrite (bindStep_throw_any_state _ st1 _ _ Hstep).
Qed.

(** X3. A list without expanding descriptor is compiled without
    drawing a UUID, whatever the UUID stream the outcome is the same,
    and the SQL text comes out as it went in. *)
Theorem lists_without_expansion_keep_sql
    (uuid' : nat -> string) (items : list Param.t) (sql : string) :
  Forall (fun d => Param.parseInStatement d = false) items ->
  bindParameters uuid items sql = bindParameters uuid' items sql
  /\ (forall st,
        bindParameters uuid items sql = Ok st -> query st = sql /\ drawn st = 0).
Proof.
  intros Hall. split.
  - unfold bindParameters. generalize (MkState ∅ sql 0).
    induction items as [|d items IH]; intros st; [reflexivity|].
    inversion Hall as [|? ? Hd Hrest]; subst. simpl.
    assert (Hsame : bindStep uuid st d = bindStep uuid' st d).
    { unfold bindStep. by rewrite Hd. }
    rewrite Hsame. destruct (bindStep uuid' st d); [by apply IH | reflexivity].
  - intros st Hc. by apply (bindFold_simple_keeps_query uuid items _ st Hall) in Hc.
Qed.

Lemma bindFold_drawn items st st' :
  bindFold uuid items st = Ok st' -> drawn st' = drawn st + totalTokens items.
Proof.
  revert st. induction items as [|d items IH]; intros st Hfold; simpl in Hfold.
  - injection Hfold as <-. simpl. lia.
  - destruct (bindStep uuid st d) as [st1|e] eqn:Hstep; [|discriminate].
    rewrite (IH st1 Hfold). simpl.
    assert (Hacc : accepts d = true) by (apply (bindStep_accepts uuid st); eauto).
    destruct (Param.parseInStatement d) eqn:Hexp.
    + rewrite bindStep_expand in Hstep by assumption. injection Hstep as <-. simpl. lia.
    + rewrite bindStep_simple in Hstep by assumption. injection Hstep as <-. simpl. lia.
Qed.

Lemma lookup_insertAll_origin kvs (m : gmap string Bind.t) key :
  is_Some (insertAll kvs m !! key) -> key ∈ kvs.*1 \/ is_Some (m !! key).
Proof.
  intros Hsome. destruct (decide (key ∈ kvs.*1)) as [Hin|Hnot]; [by left|].
  right. by rewrite <- (lookup_insertAll_notin kvs m key Hnot).
Qed.

Lemma lookup_insertAll_member kvs (m : gmap string Bind.t) key :
  key ∈ kvs.*1 -> is_Some (insertAll kvs m !! key).
Proof.
  revert m. induction kvs as [|[k v] kvs IH]; intros m Hin; [by apply elem_of_nil in Hin|].
  change (is_Some (insertAll kvs (<[k := v]> m) !! key)).
  destruct (decide (key ∈ kvs.*1)) as [Hlater|Hnot]; [by apply IH|].
  rewrite lookup_insertAll_notin by assumption.
  rewrite fmap_cons in Hin. apply elem_of_cons in Hin as [-> | Hin]; [|contradiction].
  simpl. rewrite lookup_insert_eq. eauto.
Qed.

Lemma bindFold_key_origin items st st' key :
  bindFold uuid items st = Ok st' ->
  is_Some (result st' !! key) ->
  is_Some (result st !! key)
  \/ exists d,
       d ∈ items
       /\ (Param.parseInStatement d = false /\ Param.name d = key
           \/ Param.parseInStatement d = true
              /\ exists i, drawn st <= i < drawn st'
                           /\ key = Param.name d +:+ uniqueId uuid i).
Proof.
  revert st. induction items as [|d items IH]; intros st Hfold Hkey; simpl in Hfold.
  - injection Hfold as <-. by left.
  - destruct (bindStep uuid st d) as [st1|e] eqn:Hstep; [|discriminate].
    pose proof (bindFold_drawn items st1 st' Hfold) as Hdrawn.
    assert (Hacc : accepts d = true) by (apply (bindStep_accepts uuid st); eauto).
    destruct (IH st1 Hfold Hkey) as [Hst1 | [d' [Hin Hd']]].
    + destruct (Param.parseInStatement d) eqn:Hexp.
      * rewrite bindStep_expand in Hstep by assumption. injection Hstep as <-.
        simpl in *. apply lookup_insertAll_origin in Hst1 as [Hgen | Hold]; [|by left].
        right. exists d. split; [by left|]. right. split; [assumption|].
        rewrite fst_zip in Hgen
          by (rewrite length_generatedNames, List.length_map; lia).
        unfold generatedNames in Hgen.
        apply list_elem_of_In, List.in_map_iff in Hgen as [i [<- Hi]].
        apply List.in_seq in Hi. exists i. split; [lia | reflexivity].
      * rewrite bindStep_simple in Hstep by assumption. injection Hstep as <-.
        simpl in *. destruct (decide (Param.name d = key)) as [Heq|Hne].
        -- right. exists d. split; [by left|]. left. by split.
        -- left. by rewrite lookup_insert_ne in Hst1.
    + right. exists d'. split; [by right|].
      destruct Hd' as [Hs | [He [i [Hi Hk]]]]; [by left|].
      right. split; [assumption|]. exists i. split; [|assumption].
      assert (drawn st <= drawn st1); [|lia].
      destruct (Param.parseInStatement d) eqn:Hexp.
      * rewrite bindStep_expand in Hstep by assumption. injection Hstep as <-. simpl. lia.
      * rewrite bindStep_simple in Hstep by assumption. injection Hstep as <-. simpl. lia.
Qed.

(** X4. Every key of a compiled mapping comes from a descriptor of the
    list: it is the name of a descriptor without expansion, or the name
    of an expanding descriptor followed by the identifier made from one
    of the UUIDs drawn. No other name is ever bound. *)
Theorem compiled_keys_come_from_descriptors
    (items : list Param.t) (sql : string) (st : CompileState)
    (key : string) (b : Bind.t) :
  bindParameters uuid items sql = Ok st ->
  result st !! key = Some b ->
  exists d,
    d ∈ items
    /\ (Param.parseInStatement d = false /\ Param.name d = key
        \/ Param.parseInStatement d = true
           /\ exists i, i < totalTokens items
                        /\ key = Param.name d +:+ uniqueId uuid i).
Proof.
  intros Hc Hb. unfold bindParameters in Hc.
  pose proof (bindFold_drawn items _ st Hc) as Hdrawn. simpl in Hdrawn.
  destruct (bindFold_key_origin items _ st key Hc) as [Hempty | [d [Hin Hd]]].
  - by rewrite Hb.
  - simpl in Hempty. rewrite lookup_empty in Hempty. by destruct Hempty.
  - exists d. split; [assumption|].
    destruct Hd as [Hs | [He [i [Hi Hk]]]]; [by left|].
    right. split; [assumption|]. exists i. split; [simpl in Hi; lia | assumption].
Qed.

(** X5. A compilation draws one UUID per token of its expanding
    descriptors, no more and no less. *)
Theorem one_uuid_per_token (items : list Param.t) (sql : string) (st : CompileState) :
  bindParameters uuid items sql = Ok st -> drawn st = totalTokens items.
Proof. intros Hc. by apply bindFold_drawn in Hc. Qed.

Lemma bindFold_simple_lookup items :
  forall st st',
    Forall (fun d => Param.parseInStatement d = false) items ->
    NoDup (Param.name <$> items) ->
    bindFold uuid items st = Ok st' ->
    (forall d, d ∈ items -> result st' !! Param.name d = Some (simpleBind d))
    /\ (forall key, key ∉ Param.name <$> items -> result st' !! key = result st !! key).
Proof.
  induction items as [|d items IH]; intros st st' Hall Hnd Hfold; simpl in Hfold.
  - injection Hfold as <-. split; [intros d Hd; by apply elem_of_nil in Hd | reflexivity].
  - inversion Hall as [|? ? Hd Hrest]; subst.
    rewrite fmap_cons in Hnd. apply NoDup_cons in Hnd as [Hfresh Hnd].
    destruct (bindStep uuid st d) as [st1|e] eqn:Hstep; [|discriminate].
    assert (Hacc : accepts d = true) by (apply (bindStep_accepts uuid st); eauto).
    rewrite bindStep_simple in Hstep by assumption. injection Hstep as <-.
    destruct (IH _ st' Hrest Hnd Hfold) as [Hin Hout]. simpl in Hout. split.
    + intros d' Hd'. apply elem_of_cons in Hd' as [-> | Hd']; [|by apply Hin].
      rewrite (Hout _ Hfresh). apply lookup_insert_eq.
    + intros key Hkey. rewrite fmap_cons, not_elem_of_cons in Hkey.
      destruct Hkey as [Hne Hkey]. rewrite (Hout _ Hkey).
      by apply lookup_insert_ne.
Qed.

(** X6. For descriptors without expansion and with pairwise different
    names the order of the list does not matter: any reordering compiles
    to the same mapping and the same SQL text. *)
Theorem distinct_names_compile_in_any_order
    (items items' : list Param.t) (sql : string) (st : CompileState) :
  items ≡ₚ items' ->
  Forall (fun d => Param.parseInStatement d = false) items ->
  NoDup (Param.name <$> items) ->
  bindParameters uuid items sql = Ok st ->
  exists st',
    bindParameters uuid items' sql = Ok st'
    /\ result st' = result st
    /\ query st' = query st.
Proof.
  intros Hperm Hall Hnd Hc.
  assert (Hall' : Forall (fun d => Param.parseInStatement d = false) items').
  { by rewrite <- Hperm. }
  assert (Hnd' : NoDup (Param.name <$> items')).
  { by rewrite <- Hperm. }
  assert (Hacc : Forall (fun d => accepts d = true) items).
  { apply (bindFold_accepted_iff items (MkState ∅ sql 0)). eauto. }
  assert (Hacc' : Forall (fun d => accepts d = true) items') by (by rewrite <- Hperm).
  destruct (bindFold_accepts uuid items' (MkState ∅ sql 0) Hacc') as [st' Hc'].
  exists st'. split; [exact Hc'|].
  unfold bindParameters in Hc.
  destruct (bindFold_simple_lookup items _ st Hall Hnd Hc) as [Hin Hout].
  destruct (bindFold_simple_lookup items' _ st' Hall' Hnd' Hc') as [Hin' Hout'].
  split.
  - apply map_eq. intros key.
    destruct (decide (key ∈ Param.name <$> items)) as [Hk|Hk].
    + apply list_elem_of_fmap in Hk as [d [-> Hd]].
      rewrite (Hin d Hd). apply Hin'. by rewrite <- Hperm.
    + rewrite (Hout key Hk). apply Hout'. by rewrite <- Hperm.
  - destruct (bindFold_simple_keeps_query uuid items _ st Hall Hc) as [-> _].
    by destruct (bindFold_simple_keeps_query uuid items' _ st' Hall' Hc') as [-> _].
Qed.

Lemma bindFold_invariant (P : Bind.t -> Prop) items st st' :
  (forall d, Param.parseInStatement d = false -> accepts d = true -> P (simpleBind d)) ->
  (forall dt token, dt <> DtCursor -> P (tokenBind dt token)) ->
  bindFold uuid items st = Ok st' ->
  map_Forall (fun _ => P) (result st) ->
  map_Forall (fun _ => P) (result st').
Proof.
  intros Hsimple Htoken. revert st.
  induction items as [|d items IH]; intros st Hfold Hinv; simpl in Hfold.
  - by injection Hfold as <-.
  - destruct (bindStep uuid st d) as [st1|e] eqn:Hstep; [|discriminate].
    apply (IH st1 Hfold).
    assert (Hacc : accepts d = true) by (apply (bindStep_accepts uuid st); eauto).
    destruct (Param.parseInStatement d) eqn:Hexp.
    + rewrite bindStep_expand in Hstep by assumption. injection Hstep as <-.
      simpl. apply map_Forall_insertAll; [|assumption].
      apply Forall_forall. intros [k b] Hin. simpl.
      apply elem_of_zip_r, list_elem_of_In, List.in_map_iff in Hin as [token [<- _]].
      apply Htoken. unfold accepts in Hacc. rewrite Hexp in Hacc.
      destruct (Param.datatype d); try discriminate.
      by rewrite andb_false_r in Hacc.
    + rewrite bindStep_simple in Hstep by assumption. injection Hstep as <-.
      simpl. apply map_Forall_insert_2; [|assumption]. by apply Hsimple.
Qed.

(** X8. No compiled bind carries a [maxSize] that is NaN or zero:
    whatever size the descriptors supply, the buffer size handed to the
    driver is a number other than 0. *)
Theorem compiled_maxSize_is_usable
    (items : list Param.t) (sql : string) (st : CompileState)
    (key : string) (b : Bind.t) :
  bindParameters uuid items sql = Ok st ->
  result st !! key = Some b ->
  usableMaxSize b.
Proof.
  intros Hc Hb. unfold bindParameters in Hc.
  apply (bindFold_invariant usableMaxSize) in Hc.
  - exact (Hc key b Hb).
  - intros d _ _. unfold usableMaxSize, simpleBind.
    destruct (Param.direction d), (Param.datatype d); simpl; try exact I;
      rewrite ensureOutMaxSize_string;
      by destruct (JsNumber.truthy (toNumber (Param.maxSize d))) eqn:E.
  - intros dt token _. exact I.
  - apply map_Forall_empty.
Qed.

(** X9. In every compiled mapping the value of a bind is of the kind
    of its wire type (a Number under NUMBER, a Date under DATE, a text
    under STRING), and a bind without value is an OUT bind. *)
Theorem compiled_value_matches_type
    (items : list Param.t) (sql : string) (st : CompileState)
    (key : string) (b : Bind.t) :
  bindParameters uuid items sql = Ok st ->
  result st !! key = Some b ->
  valueMatchesType b.
Proof.
  intros Hc Hb. unfold bindParameters in Hc.
  apply (bindFold_invariant valueMatchesType) in Hc.
  - exact (Hc key b Hb).
  - intros d _ Hacc. unfold accepts in Hacc. unfold valueMatchesType, simpleBind.
    destruct (Param.parseInStatement d), (Param.direction d), (Param.datatype d);
      simpl in *; try reflexivity; discriminate.
  - intros dt token Hdt. unfold valueMatchesType, tokenBind.
    destruct dt; simpl; try reflexivity. congruence.
  - apply map_Forall_empty.
Qed.

End CompilerGuards.

(** ** Tokens of an IN list *)

Section Tokens.

Import JsString StringFacts.

Lemma allChars_trimStart p s : allChars p s = true -> allChars p (trimStart s) = true.
Proof.
  induction s as [|c s IH]; simpl; [trivial|].
  rewrite andb_true_iff. intros [Hc Hs].
  destruct (isWhiteSpace c); [by apply IH | simpl; by rewrite Hc, Hs].
Qed.

Lemma allChars_trimEnd p s : allChars p s = true -> allChars p (trimEnd s) = true.
Proof.
  induction s as [|c s IH]; simpl; [trivial|].
  rewrite andb_true_iff. intros [Hc Hs]. specialize (IH Hs).
  destruct (trimEnd s) as [|c' t].
  - destruct (isWhiteSpace c); simpl; [reflexivity | by rewrite Hc].
  - simpl in *. by rewrite Hc, IH.
Qed.

Lemma split_notComma s :
  Forall (fun piece => allChars notComma piece = true) (split "," s).
Proof.
  induction s as [|c s IH]; simpl; [by repeat constructor|].
  destruct (Ascii.eqb c ",") eqn:Ec; [by constructor|].
  destruct (split "," s) as [|piece pieces].
  - repeat constructor. simpl. unfold notComma. by rewrite Ec.
  - inversion IH; subst. constructor; [|assumption]. simpl. unfold notComma at 1.
    by rewrite Ec.
Qed.

Lemma trimStart_first s c :
  firstChar (trimStart s) = Some c -> isWhiteSpace c = false.
Proof.
  induction s as [|a s IH]; [discriminate|]. simpl.
  destruct (isWhiteSpace a) eqn:Ea; [exact IH|]. by intros [= <-].
Qed.

Lemma trimEnd_first s c : firstChar (trimEnd s) = Some c -> firstChar s = Some c.
Proof.
  destruct s as [|a s]; [discriminate|]. simpl.
  destruct (trimEnd s); [|by intros [= <-]].
  destruct (isWhiteSpace a); [discriminate | by intros [= <-]].
Qed.

Lemma trimEnd_last s c :
  lastChar (trimEnd s) = Some c -> isWhiteSpace c = false.
Proof.
  induction s as [|a s IH]; [discriminate|]. simpl.
  destruct (trimEnd s) as [|b t'].
  - destruct (isWhiteSpace a) eqn:Ea; [discriminate|]. by intros [= <-].
  - exact IH.
Qed.

(** X7. Whatever the value, every token of an IN list is a non-empty
    text without comma whose first character and whose last character
    are not white space, so no generated bind ever holds an empty or
    padded piece. *)
Theorem tokens_are_trimmed_and_comma_free (v : option string) :
  Forall (fun token =>
            token <> EmptyString
            /\ allChars notComma token = true
            /\ (forall c, firstChar token = Some c -> isWhiteSpace c = false)
            /\ (forall c, lastChar token = Some c -> isWhiteSpace c = false))
         (valList v).
Proof.
  unfold valList. apply Forall_forall. intros token Hin.
  apply list_elem_of_In, List.filter_In in Hin as [Hin Hlen].
  apply List.in_map_iff in Hin as [piece [<- Hpiece]].
  split; [|split; [|split]].
  - intros Hempty. rewrite Hempty in Hlen. discriminate.
  - unfold trim. apply allChars_trimEnd, allChars_trimStart.
    pose proof (split_notComma (valueText v)) as Hall.
    rewrite Forall_forall in Hall. by apply Hall, list_elem_of_In.
  - intros c Hc. unfold trim in Hc. by apply trimEnd_first, trimStart_first in Hc.
  - intros c Hc. unfold trim in Hc. by apply trimEnd_last in Hc.
Qed.

Lemma replaceScan_absent pat tpl fuel before s :
  includes pat s = false -> replaceScan pat tpl fuel before s = s.
Proof.
  revert before s. induction fuel as [|fuel IH]; intros before s Habs; [reflexivity|].
  rewrite replaceScan_step.
  destruct s as [|c s].
  - simpl in Habs. rewrite orb_false_r in Habs. by rewrite Habs.
  - change (isPrefix pat (String c s) || includes pat s = false) in Habs.
    apply orb_false_iff in Habs as [Hp Hrest]. rewrite Hp. f_equal. by apply IH.
Qed.

Lemma replaceAll_absent s pat tpl :
  pat <> EmptyString -> includes pat s = false -> replaceAll s pat tpl = s.
Proof.
  intros Hne Habs. unfold replaceAll. destruct pat; [congruence|].
  by apply replaceScan_absent.
Qed.

(** X10. When the SQL text does not contain [:name], the expansion of
    the descriptor leaves the text as it is and still adds one bind per
    token: binds the statement does not refer to. *)
Theorem unreferenced_expansion_keeps_sql
    (uuid : nat -> string) (st : CompileState) (d : Param.t) :
  Param.parseInStatement d = true ->
  passesGuards d ->
  includes (":" +:+ Param.name d) (query st) = false ->
  exists st',
    bindStep uuid st d = Ok st'
    /\ query st' = query st
    /\ Forall (fun nm => is_Some (result st' !! nm))
         (generatedNames uuid (Param.name d) (drawn st)
            (List.length (valList (Param.value d)))).
Proof.
  intros Hexp Hguards Habs.
  apply accepts_passesGuards in Hguards.
  eexists. split; [by apply bindStep_expand|]. cbn [query result]. split.
  - by apply replaceAll_absent.
  - apply Forall_forall. intros nm Hnm. apply lookup_insertAll_member.
    rewrite fst_zip; [assumption|].
    rewrite length_generatedNames, List.length_map. lia.
Qed.

End Tokens.

(** * Further properties of [execute] *)

(** X11. Whatever guard rejects the parameter list, [execute] ends
    with an error of class NodeOperationError and the statement is
    never sent: the one driver call is the close of the connection, and
    the result sets are left as they were. *)
Theorem compile_failure_sends_nothing
    (uuid : nat -> string) (c : Connection) (sql : string)
    (items : list Param.t) (w : World) (e : JsError) :
  bindParameters uuid items sql = Throw e ->
  exists e',
    fst (execute uuid c sql items w) = Throw e'
    /\ errName e' = "NodeOperationError"
    /\ trace (snd (execute uuid c sql items w)) = trace w ++ closeEvents c
    /\ List.filter isExecute (closeEvents c) = []
    /\ resultSets (snd (execute uuid c sql items w)) = resultSets w.
Proof.
  intros Hc. rewrite execute_run, Hc. cbn [fst snd trace resultSets].
  eexists. split; [reflexivity|]. split; [reflexivity|]. split; [reflexivity|].
  split; [|reflexivity]. unfold closeEvents. by destruct (connClose c).
Qed.

(** X12. When the statement is rejected by the driver, whatever the
    class of the driver's error, [execute] throws an error of class
    NodeOperationError; the statement was sent once, with the compiled
    text and binds, and the connection is closed afterwards. *)
Theorem driver_error_is_wrapped
    (uuid : nat -> string) (c : Connection) (sql : string)
    (items : list Param.t) (w : World) (st : CompileState) (e : JsError) :
  bindParameters uuid items sql = Ok st ->
  connExecute c (query st) (result st) = Throw e ->
  exists e',
    fst (execute uuid c sql items w) = Throw e'
    /\ errName e' = "NodeOperationError"
    /\ trace (snd (execute uuid c sql items w))
       = trace w ++ [EvExecute (query st) (result st)] ++ closeEvents c.
Proof.
  intros Hc He. rewrite execute_run, Hc. cbn zeta. rewrite He. cbn [fst snd trace].
  eexists. split; [reflexivity|]. by split.
Qed.

(** X13. On every path [execute] sends at most one statement to the
    connection (there is no retry), closes the connection once, and
    never reads or closes a result set: the result sets are left as it
    found them. *)
Theorem execute_sends_at_most_one_statement
    (uuid : nat -> string) (c : Connection) (sql : string)
    (items : list Param.t) (w : World) :
  let w' := snd (execute uuid c sql items w) in
  resultSets w' = resultSets w
  /\ exists evs,
       trace w' = trace w ++ evs
       /\ List.filter isResultSetCall evs = []
       /\ List.length (List.filter isExecute evs) <= 1
       /\ List.length (List.filter isConnectionClose evs) = 1.
Proof.
  intros w'. subst w'. rewrite execute_run.
  assert (Hc1 : List.filter isResultSetCall (closeEvents c) = [])
    by (unfold closeEvents; by destruct (connClose c)).
  assert (Hc2 : List.filter isExecute (closeEvents c) = [])
    by (unfold closeEvents; by destruct (connClose c)).
  assert (Hc3 : List.filter isConnectionClose (closeEvents c) = [EvConnectionClose])
    by (unfold closeEvents; by destruct (connClose c)).
  destruct (bindParameters uuid items sql) as [st|e]; cbv zeta.
  - assert (Hgoal : exists evs,
               trace w ++ EvExecute (query st) (result st) :: closeEvents c = trace w ++ evs
               /\ List.filter isResultSetCall evs = []
               /\ List.length (List.filter isExecute evs) <= 1
               /\ List.length (List.filter isConnectionClose evs) = 1).
    { exists ([EvExecute (query st) (result st)] ++ closeEvents c).
      split; [reflexivity|]. rewrite !List.filter_app, Hc1, Hc2, Hc3.
      simpl. repeat split; lia. }
    destruct (connExecute c (query st) (result st)); by split.
  - split; [reflexivity|]. exists (closeEvents c).
    rewrite Hc1, Hc2, Hc3. cbn [snd trace]. simpl List.length. repeat split; lia.
Qed.

(** * Further properties of the result normaliser *)

Section Traces.

Lemma fetchEvents_cons h hs :
  fetchEvents (h :: hs) = EvGetRows h maxRows :: fetchEvents hs.
Proof. reflexivity. Qed.

Lemma releaseEvents_cons h hs :
  releaseEvents (h :: hs) = EvResultSetClose h :: releaseEvents hs.
Proof. reflexivity. Qed.

Lemma filter_getRows_fetchEvents hs h :
  NoDup hs ->
  List.filter (isGetRows h) (fetchEvents hs)
  = if bool_decide (h ∈ hs) then [EvGetRows h maxRows] else [].
Proof.
  induction hs as [|h' hs IH]; intros Hnd; [reflexivity|].
  apply NoDup_cons in Hnd as [Hfresh Hnd].
  rewrite fetchEvents_cons. cbn [List.filter isGetRows]. rewrite (IH Hnd).
  destruct (Nat.eqb_spec h h') as [<- | Hne].
  - rewrite (bool_decide_eq_true_2 (h ∈ h :: hs)) by (by left).
    by rewrite (bool_decide_eq_false_2 (h ∈ hs)).
  - destruct (decide (h ∈ hs)) as [Hin|Hnot].
    + rewrite (bool_decide_eq_true_2 _ Hin).
      by rewrite (bool_decide_eq_true_2 (h ∈ h' :: hs)) by (by right).
    + rewrite (bool_decide_eq_false_2 _ Hnot).
      rewrite (bool_decide_eq_false_2 (h ∈ h' :: hs)); [reflexivity|].
      intros Hin. apply elem_of_cons in Hin as [? | ?]; congruence.
Qed.

Lemma filter_close_releaseEvents hs h :
  NoDup hs ->
  List.filter (isResultSetClose h) (releaseEvents hs)
  = if bool_decide (h ∈ hs) then [EvResultSetClose h] else [].
Proof.
  induction hs as [|h' hs IH]; intros Hnd; [reflexivity|].
  apply NoDup_cons in Hnd as [Hfresh Hnd].
  rewrite releaseEvents_cons. cbn [List.filter isResultSetClose]. rewrite (IH Hnd).
  destruct (Nat.eqb_spec h h') as [<- | Hne].
  - rewrite (bool_decide_eq_true_2 (h ∈ h :: hs)) by (by left).
    by rewrite (bool_decide_eq_false_2 (h ∈ hs)).
  - destruct (decide (h ∈ hs)) as [Hin|Hnot].
    + rewrite (bool_decide_eq_true_2 _ Hin).
      by rewrite (bool_decide_eq_true_2 (h ∈ h' :: hs)) by (by right).
    + rewrite (bool_decide_eq_false_2 _ Hnot).
      rewrite (bool_decide_eq_false_2 (h ∈ h' :: hs)); [reflexivity|].
      intros Hin. apply elem_of_cons in Hin as [? | ?]; congruence.
Qed.

Lemma filter_getRows_releaseEvents hs h :
  List.filter (isGetRows h) (releaseEvents hs) = [].
Proof. induction hs as [|h' hs IH]; [reflexivity|]. by rewrite releaseEvents_cons. Qed.

Lemma filter_close_fetchEvents hs h :
  List.filter (isResultSetClose h) (fetchEvents hs) = [].
Proof. induction hs as [|h' hs IH]; [reflexivity|]. by rewrite fetchEvents_cons. Qed.

Lemma filter_close_absent hs h :
  h ∉ hs -> List.filter (isResultSetClose h) (releaseEvents hs) = [].
Proof.
  induction hs as [|h' hs IH]; intros Hh; [reflexivity|].
  apply not_elem_of_cons in Hh as [Hne Hh].
  rewrite releaseEvents_cons. cbn [List.filter isResultSetClose].
  destruct (Nat.eqb_spec h h'); [contradiction | by apply IH].
Qed.

End Traces.

Section Released.

(** X15. Whenever the normaliser returns on a value whose handles are
    pairwise different (the reads of one [Promise.all] overlap, so a
    handle met twice is left aside), each handle it met was read once
    and closed exactly once and is closed afterwards, and every other
    result set was neither read nor closed nor changed. *)
Theorem normalizeOutBinds_reads_each_handle_once (v : jsval) (w : World) (v' : jsval) (w' : World) :
  NoDup (handlesOf w v) ->
  normalizeOutBinds v w = (Ok v', w') ->
  exists evs,
    trace w' = trace w ++ evs
    /\ forall h,
         (h ∈ handlesOf w v ->
            List.filter (isGetRows h) evs = [EvGetRows h maxRows]
            /\ List.filter (isResultSetClose h) evs = [EvResultSetClose h]
            /\ closedIn w' h)
         /\ (h ∉ handlesOf w v ->
               List.filter (isGetRows h) evs = []
               /\ List.filter (isResultSetClose h) evs = []
               /\ resultSets w' !! h = resultSets w !! h).
Proof.
  intros _ Hrun.
  apply normalizeOutBinds_ok in Hrun as (Hnd & Hcl & Htr & Hframe).
  exists (fetchEvents (handlesOf w v) ++ releaseEvents (handlesOf w v)).
  split; [exact Htr|].
  intros h. rewrite !List.filter_app.
  rewrite filter_getRows_fetchEvents, filter_close_releaseEvents by assumption.
  rewrite filter_getRows_releaseEvents, filter_close_fetchEvents, app_nil_r.
  rewrite Forall_forall in Hcl. split; intros Hh.
  - rewrite (bool_decide_eq_true_2 _ Hh). repeat split. by apply Hcl.
  - rewrite (bool_decide_eq_false_2 _ Hh). repeat split. by apply Hframe.
Qed.

End Released.

Section NoOp.

Lemma startAll_items_noop items w :
  itemHandles items = [] -> startAll startItem items w = (Kept <$> items, w).
Proof.
  induction items as [|v items IH]; intros Hnone; [reflexivity|].
  rewrite itemHandles_cons in Hnone. apply app_eq_nil in Hnone as [Hv Hitems].
  assert (Hstart : startItem v w = (Kept v, w)) by (by destruct v).
  rewrite startAll_cons, Hstart. cbn [fst snd]. by rewrite (IH Hitems).
Qed.

Lemma finishAll_items_noop (items : list jsval) w :
  finishAll finishItem (Kept <$> items) w = (Ok <$> items, w).
Proof.
  induction items as [|v items IH]; [reflexivity|].
  rewrite !fmap_cons, finishAll_cons. cbn [finishItem ret fst snd]. by rewrite IH.
Qed.

Lemma firstFailure_kept (items : list jsval) :
  firstFailure itemFailure (Kept <$> items) = None.
Proof. apply firstFailure_none, Forall_fmap, Forall_true. by intros v. Qed.

Lemma promiseAll_items_noop items w :
  itemHandles items = [] ->
  promiseAll startItem finishItem itemFailure items w = (Ok items, w).
Proof.
  intros Hnone. rewrite promiseAll_run, (startAll_items_noop items w Hnone).
  cbn [fst snd]. rewrite finishAll_items_noop. cbn [fst snd].
  unfold settle. by rewrite firstFailure_kept, collect_ok.
Qed.

Lemma promiseAll_entries_noop entries w :
  entryHandles entries = [] ->
  promiseAll startEntry finishEntry entryFailure entries w = (Ok entries, w).
Proof.
  intros Hnone.
  assert (Hstart : forall kv,
             entryHandles [kv] = [] ->
             entryFailure (fst (startEntry kv w)) = None
             /\ snd (startEntry kv w) = w
             /\ finishEntry (fst (startEntry kv w)) w = (Ok kv, w)).
  { intros [k v] Hkv. unfold entryHandles in Hkv. simpl in Hkv.
    rewrite app_nil_r in Hkv.
    destruct v; try discriminate Hkv;
      try (split; [reflexivity|]; split; reflexivity).
    rewrite startEntry_array, (startAll_items_noop items w Hkv). cbn [fst snd].
    split; [apply firstFailure_kept|]. split; [reflexivity|].
    rewrite finishEntry_array, finishAll_items_noop. cbn [fst snd].
    unfold settle. by rewrite firstFailure_kept, collect_ok. }
  rewrite promiseAll_run.
  assert (Hall : firstFailure entryFailure (fst (startAll startEntry entries w)) = None
                 /\ snd (startAll startEntry entries w) = w
                 /\ finishAll finishEntry (fst (startAll startEntry entries w)) w
                    = (Ok <$> entries, w)).
  { clear -Hnone Hstart. induction entries as [|kv entries IH]; [by repeat split|].
    rewrite entryHandles_cons in Hnone. apply app_eq_nil in Hnone as [Hkv Hrest].
    destruct (Hstart kv Hkv) as (Hf & Hw & Hfin).
    destruct (IH Hrest) as (IHf & IHw & IHfin).
    rewrite startAll_cons. cbn [fst snd]. rewrite Hw. split; [|split].
    - cbn [firstFailure]. by rewrite Hf.
    - exact IHw.
    - rewrite finishAll_cons, Hfin. cbn [fst snd]. by rewrite IHfin. }
  destruct Hall as (Hf & Hw & Hfin). rewrite Hw, Hfin. cbn [fst snd].
  unfold settle. by rewrite Hf, collect_ok.
Qed.

(** X14. A value without handle at the levels the normaliser inspects
    (an array without handle element, a mapping with pairwise different
    keys whose values are neither handles nor arrays with a handle
    element, or any value that is not an object) is returned as it is
    and the driver is not called. Handles that sit deeper, inside an
    array of an array or inside a mapping of a mapping, are such values:
    they are left unread and open. *)
Theorem normalizeOutBinds_settled_is_noop (v : jsval) (w : World) :
  settled v -> normalizeOutBinds v w = (Ok v, w).
Proof.
  destruct v; simpl; try reflexivity.
  - intros [].
  - intros Hnone. unfold bind, ret. by rewrite promiseAll_items_noop.
  - intros [Hnone Hkeys]. unfold bind, ret. simpl.
    rewrite promiseAll_entries_noop by assumption.
    by rewrite fromEntries_NoDup.
Qed.

Lemma itemNormalized_no_handle w items items' :
  Forall2 (itemNormalized w) items items' -> itemHandles items' = [].
Proof.
  induction 1 as [|v v' items items' Hv _ IH]; [reflexivity|].
  unfold itemHandles in *. simpl. rewrite IH, app_nil_r.
  destruct v; simpl in Hv; try (by subst v').
  unfold fetched in Hv. destruct (resultSets w !! h); [|discriminate].
  by injection Hv as <-.
Qed.

(** X19. Normalising an array is idempotent: what the normaliser
    returns on an array holds no handle element any more, and
    normalising it again, in any world, returns it unchanged without a
    call to the driver. *)
Theorem normalizeOutBinds_array_idempotent
    (items : list jsval) (w : World) (v' : jsval) (w' : World) :
  normalizeOutBinds (JArr items) w = (Ok v', w') ->
  settled v' /\ forall w'', normalizeOutBinds v' w'' = (Ok v', w'').
Proof.
  intros Hrun. rewrite normalizeOutBinds_array in Hrun.
  destruct (promiseAll startItem finishItem itemFailure items w)
    as [[arr|e] w1] eqn:Hall; [|discriminate].
  injection Hrun as <- <-.
  apply promiseAll_items_ok in Hall as (_ & Hshape & _).
  apply itemNormalized_no_handle in Hshape.
  split; [exact Hshape|]. intros w''.
  rewrite normalizeOutBinds_array. by rewrite promiseAll_items_noop.
Qed.

End NoOp.

Section Failures.

Lemma getRows_failing h n w rs e :
  resultSets w !! h = Some rs -> rsClosed rs = false -> rsGetRowsError rs = Some e ->
  fst (getRows h n w) = Throw e
  /\ resultSets (snd (getRows h n w)) !! h = Some rs.
Proof. intros Hrs Hcl Herr. unfold getRows. by rewrite Hrs, Hcl, Herr. Qed.

Lemma getRows_answering h n w rs :
  resultSets w !! h = Some rs -> rsClosed rs = false -> rsGetRowsError rs = None ->
  fst (getRows h n w) = Ok (JArr (take n (rsRows rs)))
  /\ resultSets (snd (getRows h n w)) !! h
     = Some (MkResultSet (List.skipn n (rsRows rs)) false None (rsCloseError rs)
               (rsEntries rs)).
Proof.
  intros Hrs Hcl Herr. unfold getRows. rewrite Hrs, Hcl, Herr.
  cbn [fst snd resultSets]. by rewrite lookup_insert_eq.
Qed.

Lemma closeResultSet_failing h w rs e :
  resultSets w !! h = Some rs -> rsClosed rs = false -> rsCloseError rs = Some e ->
  fst (closeResultSet h w) = Throw e
  /\ resultSets (snd (closeResultSet h w)) !! h = Some rs.
Proof. intros Hrs Hcl Herr. unfold closeResultSet. by rewrite Hrs, Hcl, Herr. Qed.

(** In a list of pairwise different handles, the one handle is neither
    before nor after itself. *)
Lemma only_failing_handle (pre post : list jsval) (h : nat) :
  NoDup (itemHandles (pre ++ JResultSet h :: post)) ->
  (h ∉ itemHandles pre)
  /\ (h ∉ itemHandles post)
  /\ (h ∈ itemHandles (pre ++ JResultSet h :: post)).
Proof.
  rewrite itemHandles_app, itemHandles_cons.
  change (itemHandles [JResultSet h]) with [h].
  intros Hnd. apply NoDup_app in Hnd as (_ & Hdisj & Hnd).
  apply NoDup_cons in Hnd as [Hpost _]. split; [|split].
  - intros Hin. apply (Hdisj h Hin). by left.
  - exact Hpost.
  - apply elem_of_app. right. by left.
Qed.

Lemma started_split w pre h post :
  (fun v => fst (startItem v w)) <$> (pre ++ JResultSet h :: post)
  = ((fun v => fst (startItem v w)) <$> pre)
      ++ Fetching h (fst (getRows h maxRows w))
      :: ((fun v => fst (startItem v w)) <$> post).
Proof. by rewrite fmap_app, fmap_cons, startItem_handle. Qed.

(** X16. When the fetch of one handle of an array fails (the handles
    of the array being pairwise different and the other ones healthy,
    so that this is the only read that fails), the normaliser throws
    the error of the fetch, returns no partial result, and the failing
    handle is never closed: its result set is left open as it was. *)
Theorem failed_fetch_leaves_handle_open
    (pre post : list jsval) (h : nat) (w : World) (rs : ResultSet) (e : JsError) :
  NoDup (itemHandles (pre ++ JResultSet h :: post)) ->
  Forall (healthy w) (itemHandles pre ++ itemHandles post) ->
  resultSets w !! h = Some rs ->
  rsClosed rs = false ->
  rsGetRowsError rs = Some e ->
  let run := normalizeOutBinds (JArr (pre ++ JResultSet h :: post)) w in
  fst run = Throw e
  /\ resultSets (snd run) !! h = Some rs
  /\ exists evs,
       trace (snd run) = trace w ++ evs
       /\ List.filter (isResultSetClose h) evs = [].
Proof.
  intros Hnd Hhealthy Hrs Hopen Hget run.
  destruct (only_failing_handle pre post h Hnd) as (Hpre & Hpost & Hin).
  apply Forall_app in Hhealthy as [Hhpre Hhpost].
  destruct (getRows_failing h maxRows w rs e Hrs Hopen Hget) as [Hans Hstate].
  destruct (promiseAll_items_alone _ w Hnd) as (Hrun & Htr & Hst1 & _ & Hfr2 & _).
  rewrite started_split, Hans in Hrun, Htr, Hfr2.
  assert (Hout : h ∉ okHandles
                       (((fun v => fst (startItem v w)) <$> pre)
                          ++ Fetching h (Throw e)
                          :: ((fun v => fst (startItem v w)) <$> post))).
  { unfold okHandles. rewrite List.flat_map_app. cbn [List.flat_map app].
    intros Hh. apply elem_of_app in Hh as [Hh | Hh].
    - apply Hpre. eapply elem_of_sublist; [exact Hh | apply okHandles_sublist].
    - apply Hpost. eapply elem_of_sublist; [exact Hh | apply okHandles_sublist]. }
  subst run. rewrite normalizeOutBinds_array. cbn [fst snd].
  split; [|split].
  - rewrite Hrun. unfold settle. rewrite firstFailure_app.
    by rewrite (firstFailure_none _ _ (items_fetch_ok pre w Hhpre)).
  - by rewrite (Hfr2 h Hout), (Hst1 h Hin).
  - eexists. split; [exact Htr|].
    rewrite List.filter_app, filter_close_fetchEvents. cbn [app].
    by apply filter_close_absent.
Qed.

(** X17. When the release of one handle of an array fails after its
    rows were fetched (the handles of the array being pairwise
    different and the other ones healthy, so that this is the only read
    that fails), the normaliser throws the error of the release: the
    rows that were fetched are not returned, and the handle stays
    open. *)
Theorem failed_release_discards_rows
    (pre post : list jsval) (h : nat) (w : World) (rs : ResultSet) (e : JsError) :
  NoDup (itemHandles (pre ++ JResultSet h :: post)) ->
  Forall (healthy w) (itemHandles pre ++ itemHandles post) ->
  resultSets w !! h = Some rs ->
  rsClosed rs = false ->
  rsGetRowsError rs = None ->
  rsCloseError rs = Some e ->
  let run := normalizeOutBinds (JArr (pre ++ JResultSet h :: post)) w in
  fst run = Throw e
  /\ ~ closedIn (snd run) h
  /\ exists evs,
       trace (snd run) = trace w ++ evs
       /\ List.filter (isGetRows h) evs = [EvGetRows h maxRows]
       /\ List.filter (isResultSetClose h) evs = [EvResultSetClose h].
Proof.
  intros Hnd Hhealthy Hrs Hopen Hget Hclose run.
  destruct (only_failing_handle pre post h Hnd) as (Hpre & Hpost & Hin).
  apply Forall_app in Hhealthy as [Hhpre Hhpost].
  destruct (getRows_answering h maxRows w rs Hrs Hopen Hget) as [Hans Hstate].
  destruct (promiseAll_items_alone _ w Hnd) as (Hrun & Htr & Hst1 & Hst2 & _ & _).
  set (w1 := snd (startAll startItem (pre ++ JResultSet h :: post) w)) in *.
  assert (Hw1 : resultSets w1 !! h
                = Some (MkResultSet (List.skipn maxRows (rsRows rs)) false None
                          (rsCloseError rs) (rsEntries rs)))
    by (by rewrite (Hst1 h Hin)).
  destruct (closeResultSet_failing h w1 _ e Hw1 eq_refl Hclose) as [Hcans Hcstate].
  assert (Hnone : Forall (fun p => itemFailure p = None)
                    ((fun v => fst (startItem v w)) <$> (pre ++ JResultSet h :: post))).
  { rewrite started_split, Hans. apply Forall_app. split; [by apply items_fetch_ok|].
    constructor; [reflexivity | by apply items_fetch_ok]. }
  assert (Hok : okHandles
                  ((fun v => fst (startItem v w)) <$> (pre ++ JResultSet h :: post))
                = itemHandles (pre ++ JResultSet h :: post)).
  { destruct (startAll_items_alone w _ w Hnd (fun _ _ => eq_refl)) as [Hps _].
    rewrite <- Hps. apply okHandles_startAll. rewrite Hps.
    by apply firstFailure_none. }
  rewrite Hok in Htr, Hst2.
  subst run. rewrite normalizeOutBinds_array. cbn [fst snd].
  split; [|split].
  - rewrite Hrun. unfold settle. rewrite (firstFailure_none _ _ Hnone).
    rewrite started_split, Hans, fmap_app, fmap_cons.
    rewrite finishItem_fetched. cbn [fst]. rewrite Hcans.
    assert (Hpreok : Forall (fun r => exists b, r = Ok b)
                       ((fun p => fst (finishItem p w1))
                          <$> ((fun v => fst (startItem v w)) <$> pre))).
    { apply items_finish_ok; [assumption|].
      intros h' Hh'. apply Hst1. rewrite itemHandles_app. apply elem_of_app. by left. }
    apply all_ok in Hpreok as [bs ->]. by rewrite collect_first_throw.
  - intros (rs' & Hrs' & Hcl'). rewrite (Hst2 h Hin), Hcstate in Hrs'.
    injection Hrs' as <-. discriminate Hcl'.
  - eexists. split; [exact Htr|].
    rewrite !List.filter_app.
    rewrite filter_getRows_fetchEvents, filter_close_releaseEvents by assumption.
    rewrite filter_getRows_releaseEvents, filter_close_fetchEvents, app_nil_r.
    by rewrite (bool_decide_eq_true_2 _ Hin).
Qed.

End Failures.

(** X18. One read is all a handle gets: [readResultSet] returns the
    first 10000 rows at most and closes the handle, so that the rows
    past the page are dropped and no later read of the handle can
    bring them. *)
Theorem readResultSet_drops_rows_past_page (h : nat) (w : World) (v : jsval) (w' : World) :
  readResultSet h w = (Ok v, w') ->
  exists rs,
    resultSets w !! h = Some rs
    /\ v = JArr (take maxRows (rsRows rs))
    /\ List.length (take maxRows (rsRows rs)) = Nat.min maxRows (List.length (rsRows rs))
    /\ closedIn w' h
    /\ forall n w'',
         resultSets w'' = resultSets w' ->
         fst (getRows h n w'') = Throw errInvalidResultSet.
Proof.
  intros Hrun. apply readResultSet_inv in Hrun as (rs & Hrs & Hopen & -> & Hstore & Htr).
  exists rs. split; [assumption|]. split; [reflexivity|].
  split; [apply length_take|].
  assert (Hlook : resultSets w' !! h
                  = Some (MkResultSet (List.skipn maxRows (rsRows rs)) true
                            (rsGetRowsError rs) (rsCloseError rs) (rsEntries rs))).
  { by rewrite Hstore, lookup_insert_eq. }
  split.
  - eexists. by split.
  - intros n w'' Hsame. unfold getRows. by rewrite Hsame, Hlook.
Qed.

(** * The further properties on concrete invocations *)

(** Proves [passesGuards] of a concrete descriptor. *)
Ltac guard_holds :=
  split;
  [ intros Hexp;
    first
      [ discriminate Hexp
      | split;
        [ reflexivity
        | split;
          [ intros Hdt; discriminate Hdt
          | intros Hnil; vm_compute in Hnil; discriminate Hnil ] ] ]
  | intros Hexp Hdt;
    first [ discriminate Hexp | discriminate Hdt | reflexivity ] ].

Lemma compile_succeeds_iff_guards_pass_witness :
  exists st,
    bindParameters Fixtures.uuid
      [MoreFixtures.numberParam; Fixtures.cursorParam; MoreFixtures.idsParam]
      "BEGIN p(:a, :result, :ids); END;" = Ok st.
Proof.
  apply (proj2 (compile_succeeds_iff_guards_pass Fixtures.uuid _ _)).
  constructor; [guard_holds|]. constructor; [guard_holds|].
  constructor; [guard_holds|]. constructor.
Defined.

Lemma first_rejected_descriptor_decides_error_witness :
  bindParameters Fixtures.uuid
    [MoreFixtures.numberParam; MoreFixtures.cursorInParam;
     Param.Make "z" None DtCursor DirInOut None true]
    "BEGIN p(:a, :c, :z); END;"
  = Throw (errCursorIn "c").
Proof.
  apply (first_rejected_descriptor_decides_error Fixtures.uuid
           [MoreFixtures.numberParam]
           [Param.Make "z" None DtCursor DirInOut None true]
           MoreFixtures.cursorInParam _ EmptyString).
  - constructor; [guard_holds|]. constructor.
  - reflexivity.
Defined.

Lemma lists_without_expansion_keep_sql_witness :
  bindParameters Fixtures.uuid [MoreFixtures.numberParam; Fixtures.cursorParam]
    "BEGIN p(:a, :result); END;"
  = bindParameters (fun _ => EmptyString) [MoreFixtures.numberParam; Fixtures.cursorParam]
      "BEGIN p(:a, :result); END;".
Proof.
  apply (lists_without_expansion_keep_sql Fixtures.uuid (fun _ => EmptyString)).
  repeat constructor.
Defined.

Lemma compiled_keys_come_from_descriptors_witness :
  exists d,
    d ∈ [MoreFixtures.numberParam; MoreFixtures.idsParam]
    /\ (Param.parseInStatement d = false
        /\ Param.name d = "ids9f0c1d2e_5a6b_4c7d_8e9f_0a1b2c3d4e5f"
        \/ Param.parseInStatement d = true
           /\ exists i,
                i < totalTokens [MoreFixtures.numberParam; MoreFixtures.idsParam]
                /\ "ids9f0c1d2e_5a6b_4c7d_8e9f_0a1b2c3d4e5f"
                   = Param.name d +:+ uniqueId Fixtures.uuid i).
Proof.
  destruct (bindParameters Fixtures.uuid
              [MoreFixtures.numberParam; MoreFixtures.idsParam]
              "SELECT :a FROM t WHERE id IN (:ids)") as [st|e] eqn:Hc;
    [|vm_compute in Hc; discriminate Hc].
  apply (compiled_keys_come_from_descriptors Fixtures.uuid _ _ st _
           (Bind.Make BIND_IN NUMBER (Some (ValNumber (JFin false 2 0))) None) Hc).
  vm_compute in Hc. injection Hc as <-. vm_compute. reflexivity.
Defined.

Lemma one_uuid_per_token_witness :
  exists st,
    bindParameters Fixtures.uuid [MoreFixtures.numberParam; MoreFixtures.idsParam]
      "SELECT :a FROM t WHERE id IN (:ids)" = Ok st
    /\ drawn st = 2.
Proof.
  destruct (bindParameters Fixtures.uuid
              [MoreFixtures.numberParam; MoreFixtures.idsParam]
              "SELECT :a FROM t WHERE id IN (:ids)") as [st|e] eqn:Hc;
    [|vm_compute in Hc; discriminate Hc].
  exists st. split; [reflexivity|].
  apply (one_uuid_per_token Fixtures.uuid _ _ st Hc).
Defined.

Lemma distinct_names_compile_in_any_order_witness :
  exists st st',
    bindParameters Fixtures.uuid [MoreFixtures.numberParam; Fixtures.cursorParam]
      "BEGIN p(:a, :result); END;" = Ok st
    /\ bindParameters Fixtures.uuid [Fixtures.cursorParam; MoreFixtures.numberParam]
         "BEGIN p(:a, :result); END;" = Ok st'
    /\ result st' = result st.
Proof.
  destruct (bindParameters Fixtures.uuid [MoreFixtures.numberParam; Fixtures.cursorParam]
              "BEGIN p(:a, :result); END;") as [st|e] eqn:Hc;
    [|vm_compute in Hc; discriminate Hc].
  destruct (distinct_names_compile_in_any_order Fixtures.uuid
              [MoreFixtures.numberParam; Fixtures.cursorParam]
              [Fixtures.cursorParam; MoreFixtures.numberParam]
              "BEGIN p(:a, :result); END;" st) as (st' & Hc' & Hres & _).
  - apply perm_swap.
  - repeat constructor.
  - apply (bool_decide_unpack _). vm_compute. reflexivity.
  - exact Hc.
  - exists st, st'. split; [reflexivity|]. split; assumption.
Defined.

Lemma compiled_maxSize_is_usable_witness :
  usableMaxSize (Bind.Make BIND_OUT STRING None (Some (JsNumber.ofN 2000))).
Proof.
  apply (compiled_maxSize_is_usable Fixtures.uuid [MoreFixtures.stringOutParam]
           "BEGIN :msg := f(); END;"
           (MkState {[ "msg" := Bind.Make BIND_OUT STRING None (Some (JsNumber.ofN 2000)) ]}
              "BEGIN :msg := f(); END;" 0)
           "msg").
  - reflexivity.
  - reflexivity.
Defined.

Lemma compiled_value_matches_type_witness :
  valueMatchesType
    (Bind.Make BIND_IN NUMBER (Some (ValNumber (JFin false 1 0))) None).
Proof.
  apply (compiled_value_matches_type Fixtures.uuid [MoreFixtures.numberParam]
           "SELECT :a FROM dual"
           (MkState
              {[ "a" := Bind.Make BIND_IN NUMBER (Some (ValNumber (JFin false 1 0))) None ]}
              "SELECT :a FROM dual" 0)
           "a").
  - reflexivity.
  - reflexivity.
Defined.

Lemma unreferenced_expansion_keeps_sql_witness :
  exists st',
    bindStep Fixtures.uuid (MkState ∅ "SELECT 1 FROM dual" 0) MoreFixtures.idsParam = Ok st'
    /\ query st' = "SELECT 1 FROM dual"
    /\ Forall (fun nm => is_Some (result st' !! nm))
         (generatedNames Fixtures.uuid "ids" 0 2).
Proof.
  apply (unreferenced_expansion_keeps_sql Fixtures.uuid
           (MkState ∅ "SELECT 1 FROM dual" 0) MoreFixtures.idsParam).
  - reflexivity.
  - guard_holds.
  - reflexivity.
Defined.

Lemma compile_failure_sends_nothing_witness :
  exists e',
    fst (execute Fixtures.uuid Fixtures.cursorConnection "BEGIN p(:c); END;"
           [MoreFixtures.cursorInParam] Fixtures.world) = Throw e'
    /\ errName e' = "NodeOperationError"
    /\ trace (snd (execute Fixtures.uuid Fixtures.cursorConnection "BEGIN p(:c); END;"
                     [MoreFixtures.cursorInParam] Fixtures.world))
       = [EvConnectionClose].
Proof.
  destruct (compile_failure_sends_nothing Fixtures.uuid Fixtures.cursorConnection
              "BEGIN p(:c); END;" [MoreFixtures.cursorInParam] Fixtures.world
              (errCursorIn "c")) as (e' & Hrun & Hclass & Htr & _).
  - reflexivity.
  - exists e'. split; [exact Hrun|]. split; [exact Hclass | exact Htr].
Defined.

Lemma driver_error_is_wrapped_witness :
  exists e',
    fst (execute Fixtures.uuid MoreFixtures.failingConnection "SELECT :a FROM missing"
           [MoreFixtures.numberParam] Fixtures.world) = Throw e'
    /\ errName e' = "NodeOperationError".
Proof.
  destruct (driver_error_is_wrapped Fixtures.uuid MoreFixtures.failingConnection
              "SELECT :a FROM missing" [MoreFixtures.numberParam] Fixtures.world
              (MkState
                 {[ "a" := Bind.Make BIND_IN NUMBER (Some (ValNumber (JFin false 1 0))) None ]}
                 "SELECT :a FROM missing" 0)
              MoreFixtures.tableError) as (e' & Hrun & Hclass & _).
  - reflexivity.
  - reflexivity.
  - exists e'. by split.
Defined.

Lemma normalizeOutBinds_settled_is_noop_witness :
  normalizeOutBinds
    (JObj [("deep", JArr [JArr [JResultSet 0]]); ("n", JNum (JsNumber.ofN 5))])
    Fixtures.world
  = (Ok (JObj [("deep", JArr [JArr [JResultSet 0]]); ("n", JNum (JsNumber.ofN 5))]),
     Fixtures.world).
Proof.
  apply normalizeOutBinds_settled_is_noop.
  split; [reflexivity|]. apply (bool_decide_unpack _). vm_compute. reflexivity.
Defined.

Lemma normalizeOutBinds_reads_each_handle_once_witness :
  exists evs,
    trace (snd (normalizeOutBinds
                  (JObj [("result", JResultSet 0); ("more", JArr [JResultSet 1])])
                  Fixtures.twoCursors))
    = trace Fixtures.twoCursors ++ evs
    /\ List.filter (isResultSetClose 1) evs = [EvResultSetClose 1].
Proof.
  destruct (normalizeOutBinds
              (JObj [("result", JResultSet 0); ("more", JArr [JResultSet 1])])
              Fixtures.twoCursors) as [[v'|e] w'] eqn:Hrun;
    [|vm_compute in Hrun; discriminate Hrun].
  assert (Hnd : NoDup (handlesOf Fixtures.twoCursors
                         (JObj [("result", JResultSet 0); ("more", JArr [JResultSet 1])])))
    by (apply (bool_decide_unpack _); vm_compute; reflexivity).
  destruct (normalizeOutBinds_reads_each_handle_once _ _ v' w' Hnd Hrun)
    as (evs & Htr & Hh).
  exists evs. split; [exact Htr|].
  apply (proj1 (Hh 1)). apply (bool_decide_unpack _). vm_compute. reflexivity.
Defined.

Lemma failed_fetch_leaves_handle_open_witness :
  fst (normalizeOutBinds (JArr [JResultSet 0; JResultSet 1; JStr "x"])
         MoreFixtures.faulty)
  = Throw MoreFixtures.fetchError.
Proof.
  apply (failed_fetch_leaves_handle_open [JResultSet 0] [JStr "x"] 1
           MoreFixtures.faulty
           (MkResultSet [Fixtures.row 2] false (Some MoreFixtures.fetchError) None [])).
  - apply (bool_decide_unpack _). vm_compute. reflexivity.
  - apply Forall_singleton. eexists. split; [reflexivity|]. repeat split.
  - reflexivity.
  - reflexivity.
  - reflexivity.
Defined.

Lemma failed_release_discards_rows_witness :
  fst (normalizeOutBinds (JArr [JResultSet 0; JResultSet 2]) MoreFixtures.faulty)
  = Throw MoreFixtures.fetchError.
Proof.
  apply (failed_release_discards_rows [JResultSet 0] [] 2
           MoreFixtures.faulty
           (MkResultSet [Fixtures.row 3] false None (Some MoreFixtures.fetchError) [])).
  - apply (bool_decide_unpack _). vm_compute. reflexivity.
  - apply Forall_singleton. eexists. split; [reflexivity|]. repeat split.
  - reflexivity.
  - reflexivity.
  - reflexivity.
  - reflexivity.
Defined.

Lemma readResultSet_drops_rows_past_page_witness :
  closedIn (snd (readResultSet 0 Fixtures.world)) 0.
Proof.
  destruct (readResultSet 0 Fixtures.world) as [[v|e] w'] eqn:Hrun;
    [|vm_compute in Hrun; discriminate Hrun].
  destruct (readResultSet_drops_rows_past_page 0 Fixtures.world v w' Hrun)
    as (rs & _ & _ & _ & Hclosed & _).
  exact Hclosed.
Defined.

Lemma normalizeOutBinds_array_idempotent_witness :
  exists v' w',
    normalizeOutBinds (JArr [JResultSet 0; JStr "x"]) Fixtures.world = (Ok v', w')
    /\ normalizeOutBinds v' w' = (Ok v', w').
Proof.
  destruct (normalizeOutBinds (JArr [JResultSet 0; JStr "x"]) Fixtures.world)
    as [[v'|e] w'] eqn:Hrun; [|vm_compute in Hrun; discriminate Hrun].
  exists v', w'. split; [reflexivity|].
  apply (proj2 (normalizeOutBinds_array_idempotent _ _ v' w' Hrun)).
Defined.
